(** * Resumable chunked upload: server coordinator and client scheduler

    A shallow embedding of the upload server (the express routes
    [/api/upload/init], [/api/upload/chunk], [/api/upload/merge],
    [/api/upload/progress], with [checkFileExists], [handleRequestCancel]
    and [mergeChunks]) and of the client class [BigFileUploader]
    ([start], [pause], [_uploadChunks], [_uploadChunk]).  The repository
    holds two variants of the server: the one with [handleRequestCancel]
    and the route [/api/upload/chunk] is [Server], the other one
    [Server2].

    - The three directories the server touches are finite maps from entry
      names to contents; the registry [uploadStatus] is a plain JavaScript
      object: a finite map from upload ids to session records, read through
      [Object.prototype].
    - Asynchronous code is cut at its [await]s: every synchronous segment is
      a function on the state, and the completion of a request is an event.
    - What the environment decides (the uuid, multer's file name, a failing
      output stream and the moment its error is raised, the outcome of a
      fetch) is an argument. *)

From stdpp Require Import gmap strings list fin_maps pretty sorting.
From Stdlib Require Import ZArith Lia Ascii.

(** ** JavaScript numbers, as far as the program computes with them *)

Module JS.

(** The numbers that occur are integers and the IEEE 754 special values.
    Finite values are exact integers: sizes and counts stay far below 2^53,
    where the double-precision quotient followed by [Math.ceil] is exact.
    [Math.round] of a percentage is taken on the exact quotient; the
    program rounds the double [(len / total) * 100], which can come out one
    lower where the exact value ends in .5 (23 of 40: 57, here 58).  The
    bounds 0 and 100, the values for [len = 0] and [len = total], and the
    cases that give [NaN] are the same. *)
Inductive jsnum :=
  | JFin (z : Z)
  | JNegZero
  | JPosInf
  | JNegInf
  | JNaN.

Global Instance jsnum_eq_dec : EqDecision jsnum.
Proof. solve_decision. Defined.

(** [Math.ceil(a / b)] for integers [a] and [b]. *)
Definition ceil_div (a b : Z) : jsnum :=
  if (b =? 0)%Z then
    if (0 <? a)%Z then JPosInf else if (a <? 0)%Z then JNegInf else JNaN
  else
    let c := (- ((- a) / b))%Z in
    if (c =? 0)%Z && ((a * b <? 0)%Z || ((a =? 0)%Z && (b <? 0)%Z))
    then JNegZero else JFin c.

(** [Math.round((len / t) * 100)] for an array length [len]. *)
Definition round_pct (len : nat) (t : jsnum) : jsnum :=
  match t with
  | JNaN => JNaN
  | JPosInf => JFin 0
  | JNegInf => JNegZero
  | JNegZero => if Nat.eqb len 0 then JNaN else JNegInf
  | JFin z =>
      if (z =? 0)%Z then (if Nat.eqb len 0 then JNaN else JPosInf)
      else
        let r := ((200 * Z.of_nat len + z) / (2 * z))%Z in
        if (r =? 0)%Z && (z <? 0)%Z then JNegZero else JFin r
  end.

(** [Math.min(x, 100)]. *)
Definition min100 (x : jsnum) : jsnum :=
  match x with
  | JFin z => JFin (Z.min z 100)
  | JPosInf => JFin 100
  | other => other
  end.

(** [isNaN(x)]. *)
Definition isNaN (x : jsnum) : bool :=
  match x with JNaN => true | _ => false end.

(** [i < t] for a loop counter [i]. *)
Definition lt_nat (i : nat) (t : jsnum) : bool :=
  match t with
  | JFin z => (Z.of_nat i <? z)%Z
  | JPosInf => true
  | JNegZero | JNegInf | JNaN => false
  end.

(** [c >= t] for a counter [c]. *)
Definition ge_nat (c : nat) (t : jsnum) : bool :=
  match t with
  | JFin z => (z <=? Z.of_nat c)%Z
  | JNegZero | JNegInf => true
  | JPosInf | JNaN => false
  end.

(** The number of iterations of [for (let i = 0; i < t; i++)]; [None] when
    the test never fails.  The loops of the server push indices into an
    array, which then outgrows what the engine allows: such a loop ends by
    throwing a [RangeError].  An array of a finite number of indices is
    taken to fit. *)
Definition loop_bound (t : jsnum) : option nat :=
  match t with
  | JFin z => Some (Z.to_nat z)
  | JNegZero | JNegInf | JNaN => Some 0
  | JPosInf => None
  end.

(** *** [parseInt(s)] without a radix

    Leading white space is skipped (the ASCII white space characters; the
    strings here are byte strings), then a sign, then a [0x] prefix selects
    radix 16; the longest prefix of digits is the value and no digit at all
    gives [NaN], here [None].  [-0] is identified with [0], as
    [Array.prototype.includes] does. *)
Definition is_ws (c : ascii) : bool :=
  let n := nat_of_ascii c in
  Nat.eqb n 32 || (Nat.leb 9 n && Nat.leb n 13).

Fixpoint skip_ws (s : string) : string :=
  match s with
  | String c s' => if is_ws c then skip_ws s' else s
  | EmptyString => s
  end.

Definition digit_val (c : ascii) : option Z :=
  let n := Z.of_nat (nat_of_ascii c) in
  if (48 <=? n)%Z && (n <=? 57)%Z then Some (n - 48)%Z
  else if (97 <=? n)%Z && (n <=? 122)%Z then Some (n - 87)%Z
  else if (65 <=? n)%Z && (n <=? 90)%Z then Some (n - 55)%Z
  else None.

Fixpoint digits (radix : Z) (s : string) (acc : option Z) : option Z :=
  match s with
  | String c s' =>
      match digit_val c with
      | Some d =>
          if (d <? radix)%Z
          then digits radix s' (Some (default 0%Z acc * radix + d)%Z)
          else acc
      | None => acc
      end
  | EmptyString => acc
  end.

Definition parseInt (s : string) : option Z :=
  let s1 := skip_ws s in
  let '(neg, s2) :=
    match s1 with
    | String "-" r => (true, r)
    | String "+" r => (false, r)
    | _ => (false, s1)
    end in
  let '(radix, s3) :=
    match s2 with
    | String "0" (String "x" r) => (16%Z, r)
    | String "0" (String "X" r) => (16%Z, r)
    | _ => (10%Z, s2)
    end in
  (λ m, if neg : bool then (- m)%Z else m) <$> digits radix s3 None.

End JS.

(** ** The server *)

Module Server.
Import JS.

Abbreviation bytes := (list Byte.byte).

(** An entry of [TEMP_DIR]: a file stored by multer, or the staging
    directory of a session with its chunk files. *)
Inductive entry :=
  | File (b : bytes)
  | Dir (d : gmap string bytes).

(** A value of [uploadStatus[uploadId]].  An element of [uploadedChunks] is
    a result of [parseInt]: an integer, or [None] for [NaN]. *)
Record session := {
  fileName : string;
  fileSize : Z;
  chunkSize : Z;
  fileHash : string;
  totalChunks : jsnum;
  uploadedChunks : list (option Z)
}.

(** The file system below [TEMP_DIR] and [UPLOAD_DIR], and the registry.
    Entry names are opaque keys: a name with a path separator in it is
    outside this model. *)
Record server := {
  temp : gmap string entry;
  uploads : gmap string bytes;
  uploadStatus : gmap string session
}.

Definition empty_server : server :=
  {| temp := ∅; uploads := ∅; uploadStatus := ∅ |}.

Definition set_temp (t : gmap string entry) (σ : server) : server :=
  {| temp := t; uploads := uploads σ; uploadStatus := uploadStatus σ |}.

(** The names of the properties of [Object.prototype].  [uploadStatus] is
    created as [{}], so [uploadStatus[uploadId]] finds one of these when the
    object has no property of its own under the name; each of them is a
    function, and [__proto__] is [Object.prototype] itself.  An upload id of
    a session is a result of [uuidv4()] and never one of these names. *)
Definition object_prototype_names : list string :=
  ["constructor"; "__defineGetter__"; "__defineSetter__"; "hasOwnProperty";
   "__lookupGetter__"; "__lookupSetter__"; "isPrototypeOf";
   "propertyIsEnumerable"; "toString"; "valueOf"; "__proto__";
   "toLocaleString"].

(** The value of [uploadStatus[uploadId]]: a session record; a member of
    [Object.prototype], which is truthy and has none of the fields of a
    record; or [undefined]. *)
Inductive status_value :=
  | Own (s : session)
  | Inherited
  | Undefined.

Definition status_of (σ : server) (uploadId : string) : status_value :=
  match uploadStatus σ !! uploadId with
  | Some s => Own s
  | None =>
      if bool_decide (uploadId ∈ object_prototype_names) then Inherited
      else Undefined
  end.

(** [!!uploadStatus[uploadId]] *)
Definition truthy (v : status_value) : bool :=
  match v with
  | Undefined => false
  | _ => true
  end.

(** [status.totalChunks]: [undefined] for an inherited member, which the
    comparisons [i < status.totalChunks] and [currentChunk >= totalChunks]
    convert to [NaN]. *)
Definition totalChunks_of (v : status_value) : jsnum :=
  match v with
  | Own s => totalChunks s
  | _ => JNaN
  end.

(** [fs.readdirSync]: the names of a directory, in the order the map
    enumerates them (the operating system promises no order either). *)
Definition readdirSync {A} (d : gmap string A) : list string :=
  (map_to_list d).*1.

(** [`${i}.part`] *)
Definition chunk_name (i : nat) : string := pretty i +:+ ".part".

(** [`${chunkIndex}.part`] for the form field as received. *)
Definition part_name (chunkIndex : string) : string := chunkIndex +:+ ".part".

(** The chunk files of the staging directory [id]; none when there is no
    such directory. *)
Definition staging (t : gmap string entry) (id : string) : gmap string bytes :=
  match t !! id with
  | Some (Dir d) => d
  | _ => ∅
  end.

(** [fs.existsSync(path.join(tempDir, name))] *)
Definition existsChunk (t : gmap string entry) (id name : string) : bool :=
  bool_decide (is_Some (staging t id !! name)).

(** [ensureDir(dir)]: [mkdirSync] unless something exists at the path. *)
Definition ensureDir (id : string) (t : gmap string entry) : gmap string entry :=
  match t !! id with
  | None => <[id := Dir ∅]> t
  | Some _ => t
  end.

(** [fs.mkdirSync(dir, { recursive: true })]: succeeds on an existing
    directory, throws when a file is in the way. *)
Definition mkdirSync (id : string) (t : gmap string entry)
  : option (gmap string entry) :=
  match t !! id with
  | None => Some (<[id := Dir ∅]> t)
  | Some (Dir _) => Some t
  | Some (File _) => None
  end.

(** [fs.renameSync(path.join(TEMP_DIR, src), path.join(TEMP_DIR, id, name))]:
    throws ([None]) when the source file or the target directory is missing;
    an existing target file is replaced. *)
Definition renameSync (src id name : string) (t : gmap string entry)
  : option (gmap string entry) :=
  match t !! src, t !! id with
  | Some (File b), Some (Dir d) =>
      Some (<[id := Dir (<[name := b]> d)]> (delete src t))
  | _, _ => None
  end.

Section routes.

(** [UPLOAD_DIR], and node's [path.extname]. *)
Variable UPLOAD_DIR : string.
Variable extname : string → string.

(** [path.join(dir, file)] for an entry name. *)
Definition path_join (dir file : string) : string := dir +:+ "/" +:+ file.

(** [checkFileExists(fileHash)]: the path of the first archive entry whose
    name starts with the hash; [None] for [false]. *)
Definition checkFileExists (fileHash : string) (σ : server) : option string :=
  path_join UPLOAD_DIR <$>
    List.find (String.prefix fileHash) (readdirSync (uploads σ)).

(** *** [POST /api/upload/init] *)

Inductive init_response :=
  | InitExists (filePath : string)   (* 200, uploadId null, exists true *)
  | InitCreated (uploadId : string)  (* 200, the new uploadId *)
  | InitFailed.                      (* 500, the directory was not created *)

(** [uuid] is the value [uuidv4()] returns. *)
Definition init_route (uuid : string) (fileName : string) (fileSize chunkSize : Z)
    (fileHash : string) (σ : server) : init_response * server :=
  match checkFileExists fileHash σ with
  | Some existingFile => (InitExists existingFile, σ)
  | None =>
      match mkdirSync uuid (temp σ) with
      | Some t =>
          (InitCreated uuid,
           {| temp := t;
              uploads := uploads σ;
              uploadStatus :=
                <[uuid := {| fileName := fileName;
                             fileSize := fileSize;
                             chunkSize := chunkSize;
                             fileHash := fileHash;
                             totalChunks := ceil_div fileSize chunkSize;
                             uploadedChunks := [] |}]> (uploadStatus σ) |})
      | None => (InitFailed, σ)
      end
  end.

(** *** [POST /api/upload/chunk] *)

(** A chunk request after [upload.single('file')]: the form fields, and
    [req.file.path] as the name multer gave the file in [TEMP_DIR]
    ([None] when the request carried no file). *)
Record chunk_req := {
  req_uploadId : string;
  req_chunkIndex : string;
  req_file : option string
}.

(** [handleRequestCancel(req)]: unlink the request's file if it is still
    there, then, when [uploadStatus[uploadId]] is truthy, remove whatever is
    at the path of the staging directory and delete the registry entry
    ([delete] of a name the object does not own does nothing).  The
    removals are taken to succeed. *)
Definition handleRequestCancel (req : chunk_req) (σ : server) : server :=
  let t1 :=
    match req_file req with
    | Some p =>
        match temp σ !! p with
        | Some (File _) => delete p (temp σ)
        | _ => temp σ
        end
    | None => temp σ
    end in
  let uploadId := req_uploadId req in
  if bool_decide (uploadId ≠ EmptyString) && truthy (status_of σ uploadId) then
    {| temp := delete uploadId t1;
       uploads := uploads σ;
       uploadStatus := delete uploadId (uploadStatus σ) |}
  else set_temp t1 σ.

Inductive chunk_response :=
  | ChunkOk          (* 200, success true *)
  | ChunkNotFound    (* 404 *)
  | ChunkFailed.     (* 500 *)

(** [status.uploadedChunks.includes(x)], then [push]. *)
Definition record_chunk (x : option Z) (s : session) : session :=
  {| fileName := fileName s;
     fileSize := fileSize s;
     chunkSize := chunkSize s;
     fileHash := fileHash s;
     totalChunks := totalChunks s;
     uploadedChunks :=
       if bool_decide (x ∈ uploadedChunks s) then uploadedChunks s
       else uploadedChunks s ++ [x] |}.

(** The handler of the route.  [req.file.path] throws when the request
    carried no file, [renameSync] when it fails, and
    [status.uploadedChunks.includes] when [status] is an inherited member,
    the file having been moved by then; the [catch] calls
    [handleRequestCancel] and answers 500. *)
Definition chunk_handler (req : chunk_req) (σ : server) : chunk_response * server :=
  match status_of σ (req_uploadId req) with
  | Undefined => (ChunkNotFound, σ)
  | Own status =>
      match req_file req ≫= λ p,
            renameSync p (req_uploadId req) (part_name (req_chunkIndex req)) (temp σ) with
      | Some t =>
          (ChunkOk,
           {| temp := t;
              uploads := uploads σ;
              uploadStatus :=
                <[req_uploadId req :=
                    record_chunk (parseInt (req_chunkIndex req)) status]>
                  (uploadStatus σ) |})
      | None => (ChunkFailed, handleRequestCancel req σ)
      end
  | Inherited =>
      match req_file req ≫= λ p,
            renameSync p (req_uploadId req) (part_name (req_chunkIndex req)) (temp σ) with
      | Some t => (ChunkFailed, handleRequestCancel req (set_temp t σ))
      | None => (ChunkFailed, handleRequestCancel req σ)
      end
  end.

(** [upload.single('file')]: multer stores the uploaded bytes in [TEMP_DIR]
    under a name of its own, [name], before the handler runs. *)
Definition multer_single (name : string) (b : bytes) (σ : server) : server :=
  set_temp (<[name := File b]> (temp σ)) σ.

Definition chunk_route (uploadId chunkIndex : string) (name : string) (b : bytes)
    (σ : server) : chunk_response * server :=
  chunk_handler
    {| req_uploadId := uploadId; req_chunkIndex := chunkIndex; req_file := Some name |}
    (multer_single name b σ).

(** The listener [req.on('close', ...)] of the handler: [headersSent] is
    the value of [res.headersSent] when the event fires. *)
Definition on_close (headersSent : bool) (req : chunk_req) (σ : server) : server :=
  if headersSent then σ else handleRequestCancel req σ.


(** *** [mergeChunks(tempDir, totalChunks, filePath)] *)

Inductive merge_error :=
  | TempDirMissing            (* the staging directory does not exist *)
  | ChunkMissing (i : nat)    (* the chunk file does not exist *)
  | WriteError (i : nat).     (* 'error' on the output stream *)

Inductive settled :=
  | Resolved
  | Rejected (e : merge_error).

(** A failure of the output stream.  The stream writes behind the reader:
    a chunk file is read to its end, and the next one is piped, while
    bytes handed over earlier are still on their way to the file, and
    'error' is emitted some time after the write that failed.
    [failed_chunk] is the first chunk whose bytes do not reach the file
    (the bytes of the chunks before it do); [lag] is the number of chunk
    files, from that one on, that are read to their end before 'error' is
    emitted.  The file itself is taken to be opened. *)
Record stream_fault := { failed_chunk : nat; lag : nat }.

(** The number of chunk files that have been read to their end when
    'error' is emitted. *)
Definition noticed_after (f : stream_fault) : nat := failed_chunk f + lag f.

(** Do the bytes of chunk [i] reach the file? *)
Definition reaches_file (fault : option stream_fault) (i : nat) : bool :=
  match fault with
  | Some f => i <? failed_chunk f
  | None => true
  end.

(** Is 'error' emitted while chunk [i] is read, after the files before it
    have been read to their end? *)
Definition noticed_at (fault : option stream_fault) (i : nat) : bool :=
  match fault with
  | Some f => i =? noticed_after f
  | None => false
  end.

(** The first argument of [reject] in the listener of 'error'. *)
Definition write_error (fault : option stream_fault) : merge_error :=
  WriteError (from_option failed_chunk 0 fault).

(** [writeNextChunk()], with [currentChunk] and the bytes that reach the
    output file as arguments.  A call resolves the promise right after
    [writeStream.end()] when every chunk has been read, whether or not the
    stream has written what it was given; it rejects when the chunk file is
    missing; otherwise it pipes the chunk file, and the next call comes
    with the 'end' of the read stream, unless the listener of 'error'
    rejects first.  An 'error' that is emitted after the promise has been
    resolved changes nothing.  Every call either settles the promise or
    pipes one more chunk file, so the number of calls is bounded by the
    number of files; [fuel] counts them. *)
Fixpoint writeNextChunk (fuel : nat) (totalChunks : jsnum) (d : gmap string bytes)
    (fault : option stream_fault) (currentChunk : nat) (out : bytes)
  : option (settled * bytes) :=
  match fuel with
  | O => None
  | S fuel' =>
      if ge_nat currentChunk totalChunks then Some (Resolved, out)
      else
        match d !! chunk_name currentChunk with
        | None => Some (Rejected (ChunkMissing currentChunk), out)
        | Some b =>
            let out' := if reaches_file fault currentChunk then out ++ b else out in
            if noticed_at fault currentChunk
            then Some (Rejected (write_error fault), out')
            else writeNextChunk fuel' totalChunks d fault (S currentChunk) out'
        end
  end.

(** The promise [mergeChunks] returns, and the archive directory after it
    has settled.  [fs.createWriteStream(filePath)] creates or truncates the
    file; nothing in the function removes it again. *)
Definition mergeChunks (t : gmap string entry) (id : string) (totalChunks : jsnum)
    (fault : option stream_fault) (filePath : string) (ups : gmap string bytes)
  : option (settled * gmap string bytes) :=
  match t !! id with
  | None => Some (Rejected TempDirMissing, ups)
  | Some _ =>
      let d := staging t id in
      '(r, out) ← writeNextChunk (S (size d)) totalChunks d fault 0 [];
      Some (r, <[filePath := out]> ups)
  end.

(** *** [POST /api/upload/merge] *)

Inductive merge_response :=
  | MergeOk (filePath : string)             (* 200, success true *)
  | MergeNotFound                           (* 404 *)
  | MergeIncomplete (missingFiles : list nat) (* 400 *)
  | MergeFailed (e : merge_error)           (* 500 *)
  | MergeThrown.                            (* no answer of the handler *)

(** The list [missingFiles] after the loop over [n] indices. *)
Definition missingFiles (t : gmap string entry) (id : string) (n : nat) : list nat :=
  List.filter (λ i, negb (existsChunk t id (chunk_name i))) (seq 0 n).

(** The handler of the route.  For an infinite [totalChunks] the loop that
    collects [missingFiles] throws; it stands before the [try], so the
    promise of the [async] handler is rejected and the handler sends no
    answer: [MergeThrown], with the state as it is by then.  What becomes
    of the rejected promise is up to express and node.  [None] only when
    [mergeChunks] is given too little fuel, which does not happen
    ([mergeChunks_settles]). *)
Definition merge_route (uploadId fileName fileHash : string)
    (fault : option stream_fault) (σ : server) : option (merge_response * server) :=
  let status := status_of σ uploadId in
  if negb (truthy status) then Some (MergeNotFound, σ)
  else
    let t := ensureDir uploadId (temp σ) in
    match loop_bound (totalChunks_of status) with
    | None => Some (MergeThrown, set_temp t σ)
    | Some n =>
        let missing := missingFiles t uploadId n in
        if bool_decide (missing ≠ []) then
          Some (MergeIncomplete missing, set_temp t σ)
        else
          let finalFileName := fileHash +:+ extname fileName in
          '(r, ups) ← mergeChunks t uploadId (totalChunks_of status) fault
                        finalFileName (uploads σ);
          match r with
          | Resolved =>
              Some (MergeOk finalFileName,
                    if bool_decide (is_Some (t !! uploadId)) then
                      {| temp := delete uploadId t;
                         uploads := ups;
                         uploadStatus := delete uploadId (uploadStatus σ) |}
                    else
                      {| temp := t; uploads := ups; uploadStatus := uploadStatus σ |})
          | Rejected e =>
              Some (MergeFailed e,
                    {| temp := t; uploads := ups; uploadStatus := uploadStatus σ |})
          end
    end.

(** *** [GET /api/upload/progress] *)

Record progress_body := {
  progress : jsnum;
  body_uploadedChunks : list (option Z);
  body_totalChunks : jsnum;
  missingChunks : list nat
}.

(** The handler of the route: [None] for 404 in the inner option; the outer
    [None] when the handler throws, and express answers 500 in its place:
    a [RangeError] from the loop that collects [missingChunks] for an
    infinite [totalChunks], or a [TypeError] from
    [status.uploadedChunks.length] for an inherited member.  The route
    changes nothing. *)
Definition progress_route (uploadId : string) (σ : server)
  : option (option progress_body) :=
  match status_of σ uploadId with
  | Undefined => Some None
  | Inherited => None
  | Own status =>
      n ← loop_bound (totalChunks status);
      Some (Some
        {| progress :=
             round_pct (length (uploadedChunks status)) (totalChunks status);
           body_uploadedChunks := uploadedChunks status;
           body_totalChunks := totalChunks status;
           missingChunks :=
             List.filter
               (λ i, bool_decide (Some (Z.of_nat i) ∉ uploadedChunks status))
               (seq 0 n) |})
  end.

(** *** Runs of the coordinator *)

(** [OpClose] is the event 'close' of a chunk request whose handler has
    registered the listener. *)
Inductive op :=
  | OpInit (uuid fileName : string) (fileSize chunkSize : Z) (fileHash : string)
  | OpChunk (uploadId chunkIndex name : string) (b : bytes)
  | OpClose (req : chunk_req)
  | OpProgress (uploadId : string)
  | OpMerge (uploadId fileName fileHash : string) (fault : option stream_fault).

(** The state after one operation.  A progress query leaves the state as it
    is, also when its handler throws; after a merge whose handler has
    thrown the state is the one the handler left. *)
Definition step (o : op) (σ : server) : option server :=
  match o with
  | OpInit uuid fileName fileSize chunkSize fileHash =>
      Some (init_route uuid fileName fileSize chunkSize fileHash σ).2
  | OpChunk uploadId chunkIndex name b =>
      Some (chunk_route uploadId chunkIndex name b σ).2
  | OpClose req => Some (on_close true req σ)
  | OpProgress uploadId => Some σ
  | OpMerge uploadId fileName fileHash fault =>
      snd <$> merge_route uploadId fileName fileHash fault σ
  end.

Fixpoint run (ops : list op) (σ : server) : option server :=
  match ops with
  | [] => Some σ
  | o :: ops' => step o σ ≫= run ops'
  end.

End routes.
End Server.

(** ** The client: [BigFileUploader] *)

Module Client.
Import JS.

(** An element of [this.chunks]; the blob is [file.slice(start, end)]. *)
Record chunk := { index : nat; c_start : Z; c_end : Z }.

(** [_prepareChunks()]: the loop [while (start < fileSize)].  For a chunk
    size of at least one byte, [start] grows in every iteration, so
    [fileSize] iterations are enough.  For a negative chunk size the loop
    of the program does not end and the constructor does not return: the
    list given here for such a size belongs to no uploader. *)
Fixpoint prepareChunks_from (fuel : nat) (chunkSize fileSize start : Z) (i : nat)
  : list chunk :=
  match fuel with
  | O => []
  | S fuel' =>
      if (start <? fileSize)%Z then
        let e := Z.min (start + chunkSize) fileSize in
        {| index := i; c_start := start; c_end := e |}
          :: prepareChunks_from fuel' chunkSize fileSize e (S i)
      else []
  end.

Definition _prepareChunks (chunkSize fileSize : Z) : list chunk :=
  prepareChunks_from (Z.to_nat fileSize) chunkSize fileSize 0 0.

(** An invocation of [_uploadChunks] suspended at
    [await this._uploadChunk(chunk)]: its chunk, the rest of its local
    [chunksToUpload], and the [AbortController] its fetch was given. *)
Record worker := { w_chunk : chunk; w_todo : list chunk; w_ctrl : nat }.

(** An invocation of [_initUploadSession] suspended at one of its awaits;
    [then_upload] when [start()] goes on to call [_uploadChunks()] after it. *)
Inductive init_stage := AwaitInit | AwaitProgress.
Record init_task := { stage : init_stage; then_upload : bool }.

Inductive callback :=
  | OnProgress (p : jsnum)
  | OnSuccess
  | OnError.

(** The fields of the object, and what is pending in the event loop:
    [controllers] counts the [AbortController]s created so far,
    [abortController] is the one last created, [workers] are the chunk
    transfers in flight with their continuations, [merges] the merge
    requests in flight, [log] the callbacks invoked so far. *)
Record uploader := Uploader {
  chunks : list chunk;
  concurrent : nat;
  uploadedChunks : list (option Z);
  activeConnections : Z;
  paused : bool;
  uploadId : option string;
  abortController : option nat;
  controllers : nat;
  workers : list worker;
  inits : list init_task;
  merges : nat;
  log : list callback
}.

Definition set_uploadedChunks (v : list (option Z)) (st : uploader) : uploader :=
  let 'Uploader a b _ d e f g h i j k l := st in Uploader a b v d e f g h i j k l.
Definition set_activeConnections (v : Z) (st : uploader) : uploader :=
  let 'Uploader a b c _ e f g h i j k l := st in Uploader a b c v e f g h i j k l.
Definition set_paused (v : bool) (st : uploader) : uploader :=
  let 'Uploader a b c d _ f g h i j k l := st in Uploader a b c d v f g h i j k l.
Definition set_uploadId (v : option string) (st : uploader) : uploader :=
  let 'Uploader a b c d e _ g h i j k l := st in Uploader a b c d e v g h i j k l.
Definition set_workers (v : list worker) (st : uploader) : uploader :=
  let 'Uploader a b c d e f g h _ j k l := st in Uploader a b c d e f g h v j k l.
Definition set_inits (v : list init_task) (st : uploader) : uploader :=
  let 'Uploader a b c d e f g h i _ k l := st in Uploader a b c d e f g h i v k l.
Definition set_merges (v : nat) (st : uploader) : uploader :=
  let 'Uploader a b c d e f g h i j _ l := st in Uploader a b c d e f g h i j v l.
Definition emit (cb : callback) (st : uploader) : uploader :=
  let 'Uploader a b c d e f g h i j k l := st in
  Uploader a b c d e f g h i j k (l ++ [cb]).

(** [new BigFileUploader(options)] for a file of [fileSize] bytes;
    [options.chunkSize || 5 * 1024 * 1024] and [options.concurrent || 3]. *)
Definition BigFileUploader (fileSize chunkSize : Z) (concurrent : nat) : uploader :=
  {| chunks :=
       _prepareChunks (if (chunkSize =? 0)%Z then 5 * 1024 * 1024 else chunkSize)%Z
                      fileSize;
     concurrent := if Nat.eqb concurrent 0 then 3 else concurrent;
     uploadedChunks := [];
     activeConnections := 0;
     paused := false;
     uploadId := None;
     abortController := None;
     controllers := 0;
     workers := [];
     inits := [];
     merges := 0;
     log := [] |}.

(** [_updateProgress()] *)
Definition _updateProgress (st : uploader) : uploader :=
  let uniqueChunks := remove_dups (uploadedChunks st) in
  emit (OnProgress
          (min100 (round_pct (length uniqueChunks)
                             (JFin (Z.of_nat (length (chunks st))))))) st.

(** [this.activeConnections++; await this._uploadChunk(chunk)] up to the
    await: a new [AbortController] replaces [this.abortController], the
    fetch is sent, and the invocation is suspended. *)
Definition send_chunk (c : chunk) (rest : list chunk) (st : uploader) : uploader :=
  let 'Uploader a b u act e f _ n ws j k l := st in
  Uploader a b u (act + 1)%Z e f (Some n) (S n)
           (ws ++ [{| w_chunk := c; w_todo := rest; w_ctrl := n |}]) j k l.

(** The [while] loop of [_uploadChunks] from its head to the next await or
    to its exit. *)
Definition upload_loop (chunksToUpload : list chunk) (st : uploader) : uploader :=
  if (activeConnections st <? Z.of_nat (concurrent st))%Z
     && bool_decide (chunksToUpload ≠ [])
  then
    if paused st then st
    else
      match chunksToUpload with
      | c :: rest => send_chunk c rest st
      | [] => st
      end
  else st.

(** [_uploadChunks()] from its entry to its first await or to its return;
    an empty [chunksToUpload] sends the merge request. *)
Definition _uploadChunks (st : uploader) : uploader :=
  if paused st then st
  else
    let chunksToUpload :=
      List.filter
        (λ c, negb (bool_decide (Some (Z.of_nat (index c)) ∈ uploadedChunks st)))
        (chunks st) in
    if bool_decide (chunksToUpload = [])
    then set_merges (S (merges st)) st
    else upload_loop chunksToUpload st.

(** How the fetch of a chunk ends: [response.ok]; a response that is not
    ok ([throw new Error]); a rejected fetch; a fetch rejected with
    [AbortError] after [abort()]. *)
Inductive outcome := Ok | HttpError | NetworkError | AbortError.

Global Instance outcome_eq_dec : EqDecision outcome.
Proof. solve_decision. Defined.

(** The continuation of a suspended invocation once its fetch has settled:
    the rest of the [try], the [catch], the [finally], and the loop again. *)
Definition resume_worker (w : worker) (o : outcome) (st : uploader) : uploader :=
  let finally st := set_activeConnections (activeConnections st - 1)%Z st in
  match o with
  | Ok =>
      let i := Some (Z.of_nat (index (w_chunk w))) in
      let st1 :=
        if bool_decide (i ∈ uploadedChunks st) then st
        else set_uploadedChunks (uploadedChunks st ++ [i]) st in
      let st2 := finally (_updateProgress st1) in
      let st3 := if paused st2 then st2 else _uploadChunks st2 in
      upload_loop (w_todo w) st3
  | AbortError => finally st
  | HttpError | NetworkError => finally (emit OnError st)
  end.

(** [pause()]: [abort()] on [this.abortController] rejects the fetch that
    was given its signal, if that fetch is still in flight, and the
    suspended invocation runs its [catch]. *)
Definition pause (st : uploader) : uploader :=
  let st1 := set_paused true st in
  match abortController st1 with
  | None => st1
  | Some c =>
      match list_find (λ w, w_ctrl w = c) (workers st1) with
      | Some (i, w) => resume_worker w AbortError (set_workers (delete i (workers st1)) st1)
      | None => st1
      end
  end.

(** [start()] up to its first await or to its return. *)
Definition start (st : uploader) : uploader :=
  if paused st then
    let st1 := set_paused false st in
    match uploadId st1 with
    | None =>
        set_inits (inits st1 ++ [{| stage := AwaitInit; then_upload := true |}]) st1
    | Some _ => _uploadChunks st1
    end
  else
    set_inits (inits st ++ [{| stage := AwaitInit; then_upload := false |}]) st.

(** What [_initUpload()] gives: it throws; the server reports the file as
    existing ([uploadId] null); the server opened a session. *)
Inductive init_result :=
  | InitThrows
  | InitDedup
  | InitSession (id : string).

(** [_initUploadSession] has returned: [start()] continues. *)
Definition init_done (task : init_task) (st : uploader) : uploader :=
  if then_upload task then _uploadChunks st else st.

Inductive event :=
  | EvStart
  | EvPause
  | EvInitResponse (i : nat) (r : init_result)
  | EvProgressResponse (i : nat) (r : option (list (option Z)))
  | EvSettle (i : nat) (o : outcome)
  | EvMergeResponse (ok : bool).

(** One turn of the event loop; [None] when the event cannot happen in the
    state. *)
Definition step (e : event) (st : uploader) : option uploader :=
  match e with
  | EvStart => Some (start st)
  | EvPause => Some (pause st)
  | EvInitResponse i r =>
      task ← inits st !! i;
      match stage task, r with
      | AwaitInit, InitThrows =>
          Some (init_done task (emit OnError (set_inits (delete i (inits st)) st)))
      | AwaitInit, InitDedup =>
          let st1 := set_uploadId None (set_inits (delete i (inits st)) st) in
          let st2 := _updateProgress (set_uploadedChunks [] st1) in
          Some (init_done task (emit OnSuccess st2))
      | AwaitInit, InitSession id =>
          Some (set_uploadId (Some id)
                  (set_inits
                     (<[i := {| stage := AwaitProgress;
                                then_upload := then_upload task |}]> (inits st)) st))
      | AwaitProgress, _ => None
      end
  | EvProgressResponse i r =>
      task ← inits st !! i;
      match stage task, r with
      | AwaitProgress, None =>
          Some (init_done task (emit OnError (set_inits (delete i (inits st)) st)))
      | AwaitProgress, Some ups =>
          let st1 := set_uploadedChunks ups (set_inits (delete i (inits st)) st) in
          Some (init_done task (_uploadChunks st1))
      | AwaitInit, _ => None
      end
  | EvSettle i o =>
      w ← workers st !! i;
      if bool_decide (o = AbortError) then None
      else Some (resume_worker w o (set_workers (delete i (workers st)) st))
  | EvMergeResponse ok =>
      match merges st with
      | O => None
      | S m => Some (if ok then emit OnSuccess (set_merges m st) else set_merges m st)
      end
  end.

Fixpoint run (evs : list event) (st : uploader) : option uploader :=
  match evs with
  | [] => Some st
  | e :: evs' => step e st ≫= run evs'
  end.

End Client.

(** ** Vocabulary of the statements *)

Module Spec.
Import JS Server.

(** How the promise settles and what has reached the output file, for a
    directory that holds the chunk files of [data], from chunk [c] on. *)
Definition merge_outcome (fault : option stream_fault) (c : nat) (data : list bytes)
    (out : bytes) : settled * bytes :=
  match fault with
  | Some f =>
      (if bool_decide (c ≤ noticed_after f < length data)
       then Rejected (WriteError (failed_chunk f))
       else Resolved,
       out ++ concat (take (failed_chunk f - c) (drop c data)))
  | None => (Resolved, out ++ concat (drop c data))
  end.

(** A sequence of chunk uploads for one session, each with its index, the
    name multer gives its file and its bytes; [None] unless every one of
    them is acknowledged. *)
Fixpoint upload_chunks (id : string) (l : list (nat * string * bytes))
    (σ : server) : option server :=
  match l with
  | [] => Some σ
  | (k, name, b) :: l' =>
      match chunk_route id (pretty k) name b σ with
      | (ChunkOk, σ') => upload_chunks id l' σ'
      | _ => None
      end
  end.

Section routes.

Variable UPLOAD_DIR : string.
Variable extname : string → string.

(** The answer of the merge route and the state it leaves, for a session
    whose staging directory holds the chunk files of [data]. *)
Definition merge_result (id fileName fileHash : string) (fault : option stream_fault)
    (data : list bytes) (σ : server) : merge_response * server :=
  let final := fileHash +:+ extname fileName in
  let '(r, out) := merge_outcome fault 0 data [] in
  match r with
  | Resolved =>
      (MergeOk final,
       {| temp := delete id (ensureDir id (temp σ));
          uploads := <[final := out]> (uploads σ);
          uploadStatus := delete id (uploadStatus σ) |})
  | Rejected e =>
      (MergeFailed e,
       {| temp := ensureDir id (temp σ);
          uploads := <[final := out]> (uploads σ);
          uploadStatus := uploadStatus σ |})
  end.

(** The index of a chunk request parses to an integer below the chunk count
    of the session. *)
Definition index_in_range (chunkIndex : string) (s : session) : bool :=
  match parseInt chunkIndex, totalChunks s with
  | Some k, JFin z => (0 <=? k)%Z && (k <? z)%Z
  | _, _ => false
  end.

Definition op_in_range (o : op) (σ : server) : bool :=
  match o with
  | OpChunk id chunkIndex _ _ =>
      match uploadStatus σ !! id with
      | Some s => index_in_range chunkIndex s
      | None => true
      end
  | _ => true
  end.

(** Every chunk request of the run that reaches a session has its index in
    range. *)
Fixpoint run_in_range (ops : list op) (σ : server) : bool :=
  match ops with
  | [] => true
  | o :: ops' =>
      op_in_range o σ
      && from_option (run_in_range ops') true (step UPLOAD_DIR extname o σ)
  end.

Definition indices_ok (s : session) : Prop :=
  NoDup (uploadedChunks s)
  ∧ ∀ x, x ∈ uploadedChunks s →
         ∃ k z, x = Some k ∧ totalChunks s = JFin z ∧ (0 ≤ k < z)%Z.

Definition registry_ok (σ : server) : Prop :=
  ∀ id s, uploadStatus σ !! id = Some s → indices_ok s.

End routes.
End Spec.

(** The scheduler's counter agrees with the transfers in flight, and these
    fit the window. *)
Module ClientSpec.
Import Client.

Definition window_ok (st : uploader) : Prop :=
  activeConnections st = Z.of_nat (length (workers st))
  ∧ length (workers st) ≤ concurrent st.

End ClientSpec.

(** ** Scenarios

    One upload session [u1] for a file [movie.bin] of three bytes in chunks
    of two bytes, with content hash [abc]. *)

Module Scenario.
Import JS Server.

Definition upload_dir : string := "uploads".

(** [path.extname] of the one file name that occurs, ["movie.bin"]. *)
Definition ext (fileName : string) : string := ".bin".

Definition chunk0 : bytes := [Byte.x01; Byte.x02].
Definition chunk1 : bytes := [Byte.x03].

Definition init_u1 : op := OpInit "u1" "movie.bin" 3 2 "abc".

(** [u1] with chunk 0 staged. *)
Definition one_staged : server :=
  {| temp := {[ "u1" := Dir {[ "0.part" := chunk0 ]} ]};
     uploads := ∅;
     uploadStatus :=
       {[ "u1" := {| fileName := "movie.bin"; fileSize := 3; chunkSize := 2;
                     fileHash := "abc"; totalChunks := JFin 2;
                     uploadedChunks := [Some 0%Z] |} ]} |}.

(** [u1] with both chunks staged, chunk 1 having arrived first. *)
Definition both_staged : server :=
  {| temp := {[ "u1" := Dir (<[ "1.part" := chunk1 ]> {[ "0.part" := chunk0 ]}) ]};
     uploads := ∅;
     uploadStatus :=
       {[ "u1" := {| fileName := "movie.bin"; fileSize := 3; chunkSize := 2;
                     fileHash := "abc"; totalChunks := JFin 2;
                     uploadedChunks := [Some 1%Z; Some 0%Z] |} ]} |}.

(** The archive after the merge of [u1]. *)
Definition archived : server :=
  {| temp := ∅;
     uploads := {[ "abc.bin" := chunk0 ++ chunk1 ]};
     uploadStatus := ∅ |}.

(** A chunk request for [u1] whose file multer stored as [m1]. *)
Definition req_chunk1 : chunk_req :=
  {| req_uploadId := "u1"; req_chunkIndex := "1"; req_file := Some "m1" |}.

(** An uploader for a file of 30 bytes in chunks of 10, window 3. *)
Definition uploader30 : Client.uploader := Client.BigFileUploader 30 10 3.

(** [start()], the session is opened, no chunk is there yet, then the
    transfer of chunk 0 completes. *)
Definition first_chunk_done : list Client.event :=
  [Client.EvStart;
   Client.EvInitResponse 0 (Client.InitSession "u1");
   Client.EvProgressResponse 0 (Some []);
   Client.EvSettle 0 Client.Ok].

End Scenario.

(** ** The rest of the server *)

(** [cleanupOrphanedTempDirs()]: every entry [dir] of [TEMP_DIR] for which
    [uploadStatus[dir]] is falsy is removed, in the order [readdirSync]
    lists them; [fs.rmSync] with [recursive] removes a file as well as a
    directory, and is taken to succeed. *)
Module Sweep.
Import JS Server.

Definition cleanupOrphanedTempDirs (σ : server) : server :=
  set_temp
    (foldl (λ t dir, if truthy (status_of σ dir) then t else delete dir t)
           (temp σ) (readdirSync (temp σ)))
    σ.

End Sweep.

(** The second variant of the server in the repository: no
    [handleRequestCancel], the chunk route is [/api/upload], [init] records
    the session before it creates the directory, and the merge route
    answers 400 when the staging directory is missing.  [checkFileExists],
    [mergeChunks] and the progress route are those of the first variant. *)
Module Server2.
Import JS Server.

Section routes.

Variable UPLOAD_DIR : string.
Variable extname : string → string.

(** [if (!fs.existsSync(tempDir)) fs.mkdirSync(tempDir)] is [ensureDir]. *)
Definition init_route (uuid : string) (fileName : string) (fileSize chunkSize : Z)
    (fileHash : string) (σ : server) : init_response * server :=
  match checkFileExists UPLOAD_DIR fileHash σ with
  | Some existingFile => (InitExists existingFile, σ)
  | None =>
      (InitCreated uuid,
       {| temp := ensureDir uuid (temp σ);
          uploads := uploads σ;
          uploadStatus :=
            <[uuid := {| fileName := fileName;
                         fileSize := fileSize;
                         chunkSize := chunkSize;
                         fileHash := fileHash;
                         totalChunks := ceil_div fileSize chunkSize;
                         uploadedChunks := [] |}]> (uploadStatus σ) |})
  end.

(** The [catch] only answers 500. *)
Definition chunk_handler (req : chunk_req) (σ : server) : chunk_response * server :=
  match status_of σ (req_uploadId req) with
  | Undefined => (ChunkNotFound, σ)
  | Own status =>
      match req_file req ≫= λ p,
            renameSync p (req_uploadId req) (part_name (req_chunkIndex req)) (temp σ) with
      | Some t =>
          (ChunkOk,
           {| temp := t;
              uploads := uploads σ;
              uploadStatus :=
                <[req_uploadId req :=
                    record_chunk (parseInt (req_chunkIndex req)) status]>
                  (uploadStatus σ) |})
      | None => (ChunkFailed, σ)
      end
  | Inherited =>
      match req_file req ≫= λ p,
            renameSync p (req_uploadId req) (part_name (req_chunkIndex req)) (temp σ) with
      | Some t => (ChunkFailed, set_temp t σ)
      | None => (ChunkFailed, σ)
      end
  end.

Definition chunk_route (uploadId chunkIndex : string) (name : string) (b : bytes)
    (σ : server) : chunk_response * server :=
  chunk_handler
    {| req_uploadId := uploadId; req_chunkIndex := chunkIndex; req_file := Some name |}
    (multer_single name b σ).

Inductive merge_response :=
  | Merge (r : Server.merge_response)   (* the answers of the first variant *)
  | MergeNoTempDir.                     (* 400, the staging directory is missing *)

Definition merge_route (uploadId fileName fileHash : string)
    (fault : option stream_fault) (σ : server) : option (merge_response * server) :=
  let status := status_of σ uploadId in
  if negb (truthy status) then Some (Merge MergeNotFound, σ)
  else
    let t := temp σ in
    match t !! uploadId with
    | None => Some (MergeNoTempDir, σ)
    | Some _ =>
        match loop_bound (totalChunks_of status) with
        | None => Some (Merge MergeThrown, σ)
        | Some n =>
            let missing := missingFiles t uploadId n in
            if bool_decide (missing ≠ []) then
              Some (Merge (MergeIncomplete missing), σ)
            else
              let finalFileName := fileHash +:+ extname fileName in
              '(r, ups) ← mergeChunks t uploadId (totalChunks_of status) fault
                            finalFileName (uploads σ);
              match r with
              | Resolved =>
                  Some (Merge (MergeOk finalFileName),
                        if bool_decide (is_Some (t !! uploadId)) then
                          {| temp := delete uploadId t;
                             uploads := ups;
                             uploadStatus := delete uploadId (uploadStatus σ) |}
                        else
                          {| temp := t; uploads := ups;
                             uploadStatus := uploadStatus σ |})
              | Rejected e =>
                  Some (Merge (MergeFailed e),
                        {| temp := t; uploads := ups;
                           uploadStatus := uploadStatus σ |})
              end
        end
    end.

End routes.
End Server2.

(** ** The chunks the client sends *)

Module Transfer.
Import JS Server.

(** A string of decimal digits, as [String(chunk.index)] is. *)
Fixpoint decimal (s : string) : Prop :=
  match s with
  | EmptyString => True
  | String c s' => (∃ m, (m < 10)%N ∧ c = pretty_N_char m) ∧ decimal s'
  end.

(** [Blob.slice(start, end)]: a negative position counts from the end, and
    both positions are clamped to the size. *)
Definition slice (file : bytes) (start end_ : Z) : bytes :=
  let size := Z.of_nat (length file) in
  let rel x := if (x <? 0)%Z then Z.max (size + x) 0 else Z.min x size in
  take (Z.to_nat (Z.max (rel end_ - rel start) 0)) (drop (Z.to_nat (rel start)) file).

(** [chunk.blob], as [_prepareChunks] sets it. *)
Definition blob (file : bytes) (c : Client.chunk) : bytes :=
  slice file (Client.c_start c) (Client.c_end c).

(** The chunks of [new BigFileUploader({ file, chunkSize })], with
    [file.size] the length of the file. *)
Definition file_chunks (file : bytes) (chunkSize : Z) : list Client.chunk :=
  Client._prepareChunks chunkSize (Z.of_nat (length file)).

(** What [_uploadChunk(chunk)] puts into the form for every chunk of the
    file: [chunkIndex] is the index in decimal, [file] is the blob; [names]
    gives the name multer chooses for the file of each chunk. *)
Definition chunk_uploads (file : bytes) (chunkSize : Z) (names : nat → string)
  : list (nat * string * bytes) :=
  (λ c, (Client.index c, names (Client.index c), blob file c))
    <$> file_chunks file chunkSize.

End Transfer.

(** ** The callbacks of the client *)

Module ClientLog.
Import JS Client.

(** A callback other than a progress report, or a progress report with a
    percentage between 0 and 100; [NaN] is reported for a file without
    chunks only. *)
Definition percent_ok (chs : list chunk) (cb : callback) : Prop :=
  match cb with
  | OnProgress p => (∃ z, p = JFin z ∧ (0 ≤ z ≤ 100)%Z) ∨ (p = JNaN ∧ chs = [])
  | _ => True
  end.

(** [st'] has the chunks of [st], and its log is the log of [st] followed
    by callbacks with such percentages. *)
Definition extends (st st' : uploader) : Prop :=
  chunks st' = chunks st
  ∧ ∃ more, log st' = log st ++ more ∧ Forall (percent_ok (chunks st)) more.

(** Every chunk of the file is recorded as uploaded. *)
Definition covered (st : uploader) : Prop :=
  ∀ c, c ∈ chunks st → Some (Z.of_nat (index c)) ∈ uploadedChunks st.

(** From [st] to [st'] the chunks and the recorded indices stay as they
    are, and a merge request is added only if every chunk is recorded. *)
Definition merges_if_covered (st st' : uploader) : Prop :=
  chunks st' = chunks st
  ∧ uploadedChunks st' = uploadedChunks st
  ∧ (merges st' ≤ merges st ∨ covered st).

End ClientLog.

(** ** Further scenarios *)

Module Scenario2.
Import JS Server Scenario.

(** The file of the session [u1]: three bytes. *)
Definition file3 : bytes := [Byte.x01; Byte.x02; Byte.x03].

(** The names multer gives to the files of the chunks. *)
Definition names (k : nat) : string := "m" +:+ pretty k.

(** [u1] right after [init]. *)
Definition opened : server :=
  {| temp := {[ "u1" := Dir ∅ ]};
     uploads := ∅;
     uploadStatus :=
       {[ "u1" := {| fileName := "movie.bin"; fileSize := 3; chunkSize := 2;
                     fileHash := "abc"; totalChunks := JFin 2;
                     uploadedChunks := [] |} ]} |}.

(** The two chunks of [file3], chunk 1 first. *)
Definition uploads3 : list (nat * string * bytes) :=
  [(1, "m1", chunk1); (0, "m0", chunk0)].


(** [u1] as [init] opens it for a chunk size of zero: the chunk count is
    [Math.ceil(3 / 0)]. *)
Definition unbounded : server :=
  {| temp := {[ "u1" := Dir ∅ ]};
     uploads := ∅;
     uploadStatus :=
       {[ "u1" := {| fileName := "movie.bin"; fileSize := 3; chunkSize := 0;
                     fileHash := "abc"; totalChunks := JPosInf;
                     uploadedChunks := [] |} ]} |}.

(** No session, and a directory [constructor] in [TEMP_DIR], as a merge
    request with that upload id leaves it. *)
Definition orphan_dir : server :=
  {| temp := {[ "constructor" := Dir ∅ ]}; uploads := ∅; uploadStatus := ∅ |}.

(** A session [u5] for a file of five bytes in chunks of two, with content
    hash [def], all three chunks staged. *)
Definition part1 : bytes := [Byte.x03; Byte.x04].
Definition part2 : bytes := [Byte.x05].

Definition session_u5 : session :=
  {| fileName := "movie.bin"; fileSize := 5; chunkSize := 2;
     fileHash := "def"; totalChunks := JFin 3;
     uploadedChunks := [Some 0%Z; Some 1%Z; Some 2%Z] |}.

Definition three_staged : server :=
  {| temp :=
       {[ "u5" := Dir (<[ "2.part" := part2 ]>
                         (<[ "1.part" := part1 ]> {[ "0.part" := chunk0 ]})) ]};
     uploads := ∅;
     uploadStatus := {[ "u5" := session_u5 ]} |}.

(** The output stream fails at chunk 1, and its 'error' is emitted while
    that chunk is read. *)
Definition fails_at_1 : stream_fault := {| failed_chunk := 1; lag := 0 |}.

(** The output stream fails at chunk 1, and its 'error' is emitted when
    that chunk has been read to its end. *)
Definition fails_at_1_late : stream_fault := {| failed_chunk := 1; lag := 1 |}.

(** The uploader of [Scenario.uploader30] once the session is open and the
    transfer of chunk 0 is in flight. *)
Definition sending : Client.uploader :=
  default uploader30
    (Client.run [Client.EvStart;
                 Client.EvInitResponse 0 (Client.InitSession "u1");
                 Client.EvProgressResponse 0 (Some [])] uploader30).

(** The same uploader after the transfer of chunk 0 has completed. *)
Definition sending_twice : Client.uploader :=
  default uploader30 (Client.run first_chunk_done uploader30).

(** The same uploader after one of the two transfers of chunk 1 has
    completed as well: the other transfer of chunk 1 and two transfers of
    chunk 2 are in flight. *)
Definition three_in_flight : Client.uploader :=
  default uploader30
    (Client.run (first_chunk_done ++ [Client.EvSettle 0 Client.Ok]) uploader30).

(** An uploader for a file of one chunk that waits for the answer to its
    progress query. *)
Definition querying : Client.uploader :=
  default (Client.BigFileUploader 10 10 3)
    (Client.run [Client.EvStart; Client.EvInitResponse 0 (Client.InitSession "u1")]
       (Client.BigFileUploader 10 10 3)).

End Scenario2.

(** * Properties of the server *)

Import JS Server Spec Scenario.

Example parseInt_7 : parseInt "7" = Some 7%Z.
Proof. reflexivity. Qed.
Example parseInt_42px : parseInt " 42px" = Some 42%Z.
Proof. reflexivity. Qed.
Example parseInt_hex : parseInt "0x1f" = Some 31%Z.
Proof. reflexivity. Qed.
Example parseInt_neg : parseInt "-3" = Some (-3)%Z.
Proof. reflexivity. Qed.
Example parseInt_nan : parseInt "abc" = None.
Proof. reflexivity. Qed.
Example ceil_div_10_4 : ceil_div 10 4 = JFin 3.
Proof. reflexivity. Qed.
Example ceil_div_10_0 : ceil_div 10 0 = JPosInf.
Proof. reflexivity. Qed.
Example round_pct_1_3 : round_pct 1 (JFin 3) = JFin 33.
Proof. reflexivity. Qed.
Example round_pct_1_8 : round_pct 1 (JFin 8) = JFin 13.
Proof. reflexivity. Qed.
Example chunk_name_12 : chunk_name 12 = "12.part".
Proof. reflexivity. Qed.

(** ** [uploadStatus[uploadId]] *)

Lemma status_of_Own (σ : server) (id : string) (s : session) :
  uploadStatus σ !! id = Some s → status_of σ id = Own s.
Proof. unfold status_of. by intros ->. Qed.

Lemma status_of_Undefined (σ : server) (id : string) :
  uploadStatus σ !! id = None → id ∉ object_prototype_names →
  status_of σ id = Undefined.
Proof.
  unfold status_of. intros -> Hid. by rewrite bool_decide_eq_false_2.
Qed.


Lemma status_of_Own_inv (σ : server) (id : string) (s : session) :
  status_of σ id = Own s → uploadStatus σ !! id = Some s.
Proof.
  unfold status_of. destruct (uploadStatus σ !! id); [congruence|].
  by case_bool_decide.
Qed.

(** The value depends on the registry and the name only. *)
Lemma status_of_ext (σ σ' : server) (id : string) :
  uploadStatus σ' !! id = uploadStatus σ !! id → status_of σ' id = status_of σ id.
Proof. unfold status_of. by intros ->. Qed.

(** ** Loops over the chunk indices *)

(** [loop_bound] is the number of iterations of the loop with the test
    [i < totalChunks]. *)
Lemma loop_bound_lt_nat (t : jsnum) (n i : nat) :
  loop_bound t = Some n → lt_nat i t = true ↔ i < n.
Proof.
  destruct t as [z| | | |]; simpl; intros [= <-]; try (split; [done|lia]).
  rewrite Z.ltb_lt. lia.
Qed.

Lemma loop_bound_None (t : jsnum) :
  loop_bound t = None ↔ ∀ i, lt_nat i t = true.
Proof.
  destruct t as [z| | | |]; simpl; split; try done.
  - intros H. specialize (H (Z.to_nat z)). apply Z.ltb_lt in H. lia.
  - intros H. by specialize (H 0).
  - intros H. by specialize (H 0).
  - intros H. by specialize (H 0).
Qed.

(** ** Names of chunk files *)

Lemma string_length_app (s t : string) :
  String.length (s +:+ t) = String.length s + String.length t.
Proof. induction s as [|a s IH]; simpl; [done | by rewrite IH]. Qed.

Lemma string_app_inv_tail (s1 s2 t : string) : s1 +:+ t = s2 +:+ t → s1 = s2.
Proof.
  revert s2. induction s1 as [|a s1 IH]; intros [|b s2] H.
  - done.
  - apply (f_equal String.length) in H.
    rewrite !string_length_app in H. simpl in H. lia.
  - apply (f_equal String.length) in H.
    rewrite !string_length_app in H. simpl in H. lia.
  - simpl in H. injection H as -> H. f_equal. by apply IH.
Qed.

Global Instance chunk_name_inj : Inj (=) (=) chunk_name.
Proof.
  intros i j H. unfold chunk_name in H.
  apply string_app_inv_tail in H. by apply (inj pretty).
Qed.

(** A directory that holds the chunk files [0 .. k-1] has at least [k]
    entries. *)
Lemma staged_prefix_size (d : gmap string bytes) (k : nat) :
  (∀ i, i < k → is_Some (d !! chunk_name i)) → k ≤ size d.
Proof.
  intros Hd.
  assert (NoDup (chunk_name <$> seq 0 k)) as Hnd.
  { apply NoDup_fmap_2; [apply _ | apply NoDup_seq]. }
  replace k with (length (chunk_name <$> seq 0 k)) at 1
    by (by rewrite length_fmap, length_seq).
  rewrite <- (size_list_to_set (C := gset string)) by done.
  rewrite <- (size_dom (D := gset string) d).
  apply subseteq_size. intros x Hx.
  apply elem_of_list_to_set, list_elem_of_fmap in Hx as (i & -> & Hi).
  apply elem_of_seq in Hi. apply elem_of_dom, Hd. lia.
Qed.

(** ** [mergeChunks] settles *)

Lemma writeNextChunk_settles (total : jsnum) (d : gmap string bytes)
    (fault : option stream_fault) (fuel c : nat) (out : bytes) :
  (∀ i, i < c → is_Some (d !! chunk_name i)) →
  size d < c + fuel →
  is_Some (writeNextChunk fuel total d fault c out).
Proof.
  revert c out. induction fuel as [|fuel IH]; intros c out Hc Hfuel.
  - apply staged_prefix_size in Hc. lia.
  - simpl. destruct (ge_nat c total); [by eexists|].
    destruct (d !! chunk_name c) as [b|] eqn:Hb; [|by eexists].
    destruct (noticed_at fault c); [by eexists|].
    apply IH; [|lia].
    intros i Hi. destruct (decide (i = c)) as [->|]; [by eexists|].
    apply Hc. lia.
Qed.

Lemma mergeChunks_settles (t : gmap string entry) (id : string) (total : jsnum)
    (fault : option stream_fault) (filePath : string) (ups : gmap string bytes) :
  is_Some (mergeChunks t id total fault filePath ups).
Proof.
  unfold mergeChunks. destruct (t !! id); [|by eexists].
  destruct (writeNextChunk_settles total (staging t id) fault
              (S (size (staging t id))) 0 []) as [[r out] ->];
    [intros; lia | lia | by eexists].
Qed.

Lemma writeNextChunk_staged (d : gmap string bytes) (data : list bytes) (z : Z)
    (fault : option stream_fault) (fuel c : nat) (out : bytes) :
  (∀ i b, data !! i = Some b → d !! chunk_name i = Some b) →
  length data = Z.to_nat z →
  c ≤ length data →
  length data - c < fuel →
  writeNextChunk fuel (JFin z) d fault c out = Some (merge_outcome fault c data out).
Proof.
  intros Hd Hz. revert c out.
  induction fuel as [|fuel IH]; intros c out Hc Hfuel; [lia|].
  simpl. destruct (decide (c = length data)) as [->|Hne].
  - rewrite (proj2 (Z.leb_le _ _)) by lia.
    unfold merge_outcome. rewrite drop_all.
    destruct fault as [f|]; [|by rewrite app_nil_r].
    rewrite bool_decide_eq_false_2 by lia. by rewrite take_nil, app_nil_r.
  - rewrite (proj2 (Z.leb_gt _ _)) by lia.
    destruct (lookup_lt_is_Some_2 data c) as [b Hb]; [lia|].
    rewrite (Hd _ _ Hb).
    destruct fault as [[k l]|]; simpl.
    + unfold merge_outcome, noticed_after. simpl.
      rewrite (drop_S _ _ _ Hb).
      assert ((if c <? k then out ++ b else out)
                ++ concat (take (k - S c) (drop (S c) data))
              = out ++ concat (take (k - c) (b :: drop (S c) data))) as Hout.
      { destruct (Nat.ltb_spec c k) as [Hk|Hk].
        - replace (k - c) with (S (k - S c)) by lia.
          simpl. by rewrite <- app_assoc.
        - replace (k - c) with 0 by lia. by replace (k - S c) with 0 by lia. }
      destruct (Nat.eqb_spec c (k + l)) as [->|Hm].
      * rewrite bool_decide_eq_true_2 by lia. do 2 f_equal.
        rewrite <- Hout. replace (k - S (k + l)) with 0 by lia.
        simpl. by rewrite app_nil_r.
      * rewrite IH by lia. unfold merge_outcome, noticed_after. simpl.
        rewrite Hout. do 2 f_equal.
        rewrite (bool_decide_ext (S c ≤ k + l < length data)
                   (c ≤ k + l < length data)); [done|lia].
    + rewrite IH by lia. unfold merge_outcome.
      rewrite (drop_S _ _ _ Hb). simpl. by rewrite <- app_assoc.
Qed.

(** ** The merge route on a complete staging directory *)

Lemma staging_ensureDir (id : string) (t : gmap string entry) :
  staging (ensureDir id t) id = staging t id.
Proof.
  unfold ensureDir, staging. destruct (t !! id) eqn:E; [by rewrite E|].
  by rewrite lookup_insert_eq.
Qed.

Lemma ensureDir_is_Some (id : string) (t : gmap string entry) :
  is_Some (ensureDir id t !! id).
Proof.
  unfold ensureDir. destruct (t !! id) eqn:E; [by rewrite E|].
  rewrite lookup_insert_eq. by eexists.
Qed.

Lemma elem_of_missingFiles (t : gmap string entry) (id : string) (n i : nat) :
  i ∈ missingFiles t id n ↔ i < n ∧ staging t id !! chunk_name i = None.
Proof.
  unfold missingFiles, existsChunk.
  rewrite list_elem_of_In, filter_In, <- list_elem_of_In, elem_of_seq.
  rewrite negb_true_iff, bool_decide_eq_false, <- eq_None_not_Some.
  intuition lia.
Qed.

Lemma missingFiles_nil (t : gmap string entry) (id : string) (n : nat) :
  missingFiles t id n = [] ↔ ∀ i, i < n → is_Some (staging t id !! chunk_name i).
Proof.
  split.
  - intros Hnil i Hi. destruct (staging t id !! chunk_name i) eqn:E; [by eexists|].
    assert (i ∈ missingFiles t id n) as Hin by by apply elem_of_missingFiles.
    rewrite Hnil in Hin. by apply elem_of_nil in Hin.
  - intros Hall. destruct (missingFiles t id n) as [|i l] eqn:E; [done|].
    assert (i ∈ missingFiles t id n) as Hin by (rewrite E; left).
    apply elem_of_missingFiles in Hin as [Hi Hnone].
    destruct (Hall i Hi) as [b Hb]. congruence.
Qed.



Section server_properties.

Variable UPLOAD_DIR : string.
Variable extname : string → string.

Lemma merge_route_staged (σ : server) (id : string) (s : session) (z : Z)
    (data : list bytes) (fileName fileHash : string) (fault : option stream_fault) :
  uploadStatus σ !! id = Some s →
  totalChunks s = JFin z →
  length data = Z.to_nat z →
  (∀ i b, data !! i = Some b → staging (temp σ) id !! chunk_name i = Some b) →
  merge_route extname id fileName fileHash fault σ
  = Some (merge_result extname id fileName fileHash fault data σ).
Proof.
  intros Hs Hz Hlen Hd. unfold merge_route, merge_result.
  rewrite (status_of_Own _ _ _ Hs). simpl. rewrite Hz. simpl.
  assert (missingFiles (ensureDir id (temp σ)) id (Z.to_nat z) = []) as ->.
  { apply missingFiles_nil. intros i Hi. rewrite staging_ensureDir.
    destruct (lookup_lt_is_Some_2 data i) as [b Hb]; [lia|].
    rewrite (Hd _ _ Hb). by eexists. }
  rewrite bool_decide_eq_false_2 by (intros H; by apply H).
  unfold mergeChunks.
  destruct (ensureDir_is_Some id (temp σ)) as [e He]. rewrite He.
  rewrite staging_ensureDir.
  rewrite (writeNextChunk_staged _ data z) by
    (try done; try lia;
     pose proof (staged_prefix_size (staging (temp σ) id) (length data)) as Hsz;
     (assert (length data ≤ size (staging (temp σ) id)) by
        (apply Hsz; intros i Hi;
         destruct (lookup_lt_is_Some_2 data i) as [b Hb]; [lia|];
         rewrite (Hd _ _ Hb); by eexists));
     lia).
  simpl. by destruct (merge_outcome fault 0 data []) as [[|e'] out].
Qed.

(** C1.  A session with a finite chunk count whose staging directory holds
    the chunk files [0 .. totalChunks-1] with the contents [data].  When the
    output stream does not fail, the merge route answers with success and
    the archive file holds the concatenation of [data] in index order; the
    statement is about the files on disk, so the order in which they
    arrived plays no part.  But [mergeChunks] resolves its promise as soon
    as the last chunk file has been read, not when the output is written:
    when the stream fails at chunk [failed_chunk f] and its 'error' comes
    after that, the route answers with success all the same, removes the
    staging directory and the session, and the archive file holds the
    chunks before [failed_chunk f] only. *)
Theorem merge_answers_success_before_the_output_is_written (σ : server)
    (id : string) (s : session) (z : Z) (data : list bytes)
    (fileName fileHash : string) (f : stream_fault) :
  uploadStatus σ !! id = Some s →
  totalChunks s = JFin z →
  length data = Z.to_nat z →
  (∀ i b, data !! i = Some b → staging (temp σ) id !! chunk_name i = Some b) →
  length data ≤ noticed_after f →
  (∃ σ', merge_route extname id fileName fileHash None σ
         = Some (MergeOk (fileHash +:+ extname fileName), σ')
         ∧ uploads σ' !! (fileHash +:+ extname fileName) = Some (concat data))
  ∧ (∃ σ', merge_route extname id fileName fileHash (Some f) σ
           = Some (MergeOk (fileHash +:+ extname fileName), σ')
           ∧ uploads σ' !! (fileHash +:+ extname fileName)
             = Some (concat (take (failed_chunk f) data))
           ∧ temp σ' !! id = None
           ∧ uploadStatus σ' !! id = None).
Proof.
  intros Hs Hz Hlen Hd Hlate. split.
  - rewrite (merge_route_staged σ id s z data) by done.
    eexists. split; [reflexivity|].
    simpl. by rewrite lookup_insert_eq, drop_0.
  - rewrite (merge_route_staged σ id s z data) by done.
    unfold merge_result, merge_outcome.
    rewrite bool_decide_eq_false_2 by lia.
    eexists. split; [reflexivity|]. simpl.
    rewrite lookup_insert_eq, Nat.sub_0_r, drop_0, !lookup_delete_eq. done.
Qed.

(** ** An acknowledged chunk *)

Lemma chunk_route_ok (σ σ' : server) (id chunkIndex name : string) (b : bytes) :
  chunk_route id chunkIndex name b σ = (ChunkOk, σ') →
  ∃ s,
    uploadStatus σ !! id = Some s
    ∧ uploadStatus σ' = <[id := record_chunk (parseInt chunkIndex) s]> (uploadStatus σ)
    ∧ uploads σ' = uploads σ
    ∧ staging (temp σ') id = <[part_name chunkIndex := b]> (staging (temp σ) id).
Proof.
  unfold chunk_route, chunk_handler, multer_single. simpl.
  rewrite (status_of_ext σ) by done.
  destruct (status_of σ id) as [s| |] eqn:Hst;
    [|by destruct (renameSync _ _ _ _)|done].
  apply status_of_Own_inv in Hst as Hs.
  unfold renameSync. rewrite lookup_insert_eq.
  destruct (decide (name = id)) as [->|Hne].
  { rewrite lookup_insert_eq. done. }
  rewrite lookup_insert_ne by done.
  destruct (temp σ !! id) as [[|d]|] eqn:Ht; try done.
  intros [= <-]. exists s. simpl. repeat split; [done|].
  unfold staging. by rewrite lookup_insert_eq, Ht.
Qed.

(** A chunk request for a registered session whose staging directory
    exists is acknowledged. *)
Lemma chunk_route_acknowledged (σ : server) (id chunkIndex name : string)
    (b : bytes) (s : session) (d : gmap string bytes) :
  uploadStatus σ !! id = Some s →
  temp σ !! id = Some (Dir d) →
  name ≠ id →
  chunk_route id chunkIndex name b σ
  = (ChunkOk,
     {| temp := <[id := Dir (<[part_name chunkIndex := b]> d)]> (delete name (temp σ));
        uploads := uploads σ;
        uploadStatus :=
          <[id := record_chunk (parseInt chunkIndex) s]> (uploadStatus σ) |}).
Proof.
  intros Hs Ht Hne.
  unfold chunk_route, chunk_handler, multer_single. simpl.
  rewrite (status_of_ext σ) by done. rewrite (status_of_Own _ _ _ Hs).
  unfold renameSync. rewrite lookup_insert_eq, lookup_insert_ne, Ht by done.
  simpl. by rewrite delete_insert_eq.
Qed.

(** The chunks of [data] uploaded in any order, some of them perhaps more
    than once: the staging directory then holds every chunk under the name
    of its index, and the merge gives the concatenation in index order. *)
Lemma upload_chunks_staged (id : string) (data : list bytes)
    (l : list (nat * string * bytes)) (σ σ' : server) (s : session) :
  uploadStatus σ !! id = Some s →
  upload_chunks id l σ = Some σ' →
  (∀ k name b, (k, name, b) ∈ l → data !! k = Some b) →
  (∀ k b, data !! k = Some b →
          staging (temp σ) id !! chunk_name k = Some b ∨ k ∈ l.*1.*1) →
  (∃ s', uploadStatus σ' !! id = Some s' ∧ totalChunks s' = totalChunks s)
  ∧ ∀ k b, data !! k = Some b → staging (temp σ') id !! chunk_name k = Some b.
Proof.
  revert σ s. induction l as [|[[k0 name] b0] l IH]; intros σ s Hs; simpl.
  - intros [= <-] _ Hst. split; [by exists s|].
    intros k b Hk. destruct (Hst k b Hk) as [?|Hin]; [done|].
    by apply elem_of_nil in Hin.
  - destruct (chunk_route id (pretty k0) name b0 σ) as [[| |] σ1] eqn:Hroute;
      [|done..].
    apply chunk_route_ok in Hroute as (s0 & Hs0 & Hreg & _ & Hstage).
    assert (s0 = s) as -> by congruence.
    intros Hrest Hl Hst.
    destruct (IH σ1 (record_chunk (parseInt (pretty k0)) s)) as [(s' & Hs' & Ht) Hd];
      [by rewrite Hreg, lookup_insert_eq | done | | |].
    + intros k nm b Hin. apply (Hl k nm b). by right.
    + intros k b Hk. rewrite Hstage. unfold part_name. fold (chunk_name k0).
      destruct (decide (k = k0)) as [->|Hne].
      * left. rewrite lookup_insert_eq. f_equal.
        assert (data !! k0 = Some b0) as Hb0 by (apply (Hl k0 name b0); left).
        congruence.
      * rewrite lookup_insert_ne by (intros ?%(inj chunk_name); done).
        destruct (Hst k b Hk) as [?|Hin]; [by left|].
        right. by apply elem_of_cons in Hin as [?|?].
    + split; [by exists s'|done].
Qed.

Lemma merge_after_uploads_in_any_order (σ σ' : server) (id : string)
    (s : session) (z : Z) (data : list bytes)
    (l : list (nat * string * bytes)) (fileName fileHash : string) :
  uploadStatus σ !! id = Some s →
  totalChunks s = JFin z →
  length data = Z.to_nat z →
  upload_chunks id l σ = Some σ' →
  (∀ k name b, (k, name, b) ∈ l → data !! k = Some b) →
  (∀ k, k < length data → k ∈ l.*1.*1) →
  ∃ σ'',
    merge_route extname id fileName fileHash None σ'
    = Some (MergeOk (fileHash +:+ extname fileName), σ'')
    ∧ uploads σ'' !! (fileHash +:+ extname fileName) = Some (concat data).
Proof.
  intros Hs Hz Hlen Hup Hl Hall.
  destruct (upload_chunks_staged id data l σ σ' s Hs Hup Hl)
    as [(s' & Hs' & Ht) Hd].
  { intros k b Hk. right. apply Hall. by apply lookup_lt_Some in Hk. }
  rewrite (merge_route_staged σ' id s' z data) by (try done; congruence).
  eexists. split; [reflexivity|]. simpl. by rewrite lookup_insert_eq, drop_0.
Qed.


(** ** A failing output stream *)

(** C9, as the code has it.  When the output stream fails and its 'error'
    is emitted while a chunk file is still being read, the promise of
    [mergeChunks] is rejected and the merge route answers 500 with that
    error; the session record and everything below [TEMP_DIR] are
    unchanged, so the merge can be tried again, and a later merge whose
    stream does not fail succeeds with the complete contents.  The output
    file is not removed: it stays in the archive directory with the bytes
    that reached it. *)
Theorem merge_stream_failure_keeps_staging_and_output (σ : server) (id : string)
    (s : session) (z : Z) (data : list bytes) (fileName fileHash : string)
    (f : stream_fault) :
  uploadStatus σ !! id = Some s →
  totalChunks s = JFin z →
  length data = Z.to_nat z →
  (∀ i b, data !! i = Some b → staging (temp σ) id !! chunk_name i = Some b) →
  noticed_after f < length data →
  ∃ σ',
    merge_route extname id fileName fileHash (Some f) σ
    = Some (MergeFailed (WriteError (failed_chunk f)), σ')
    ∧ uploadStatus σ' = uploadStatus σ
    ∧ temp σ' = temp σ
    ∧ uploads σ'
      = <[fileHash +:+ extname fileName := concat (take (failed_chunk f) data)]>
          (uploads σ)
    ∧ ∃ σ'',
        merge_route extname id fileName fileHash None σ'
        = Some (MergeOk (fileHash +:+ extname fileName), σ'')
        ∧ uploads σ'' !! (fileHash +:+ extname fileName) = Some (concat data).
Proof.
  intros Hs Hz Hlen Hd Hk.
  assert (ensureDir id (temp σ) = temp σ) as Hdir.
  { unfold ensureDir. destruct (temp σ !! id) eqn:E; [done|].
    destruct (lookup_lt_is_Some_2 data 0) as [b Hb]; [lia|].
    apply Hd in Hb. unfold staging in Hb. rewrite E in Hb.
    by rewrite lookup_empty in Hb. }
  rewrite (merge_route_staged σ id s z data) by done.
  unfold merge_result, merge_outcome.
  rewrite bool_decide_eq_true_2 by lia. rewrite Hdir, Nat.sub_0_r, drop_0.
  eexists. split; [reflexivity|]. simpl. repeat split.
  rewrite (merge_route_staged _ id s z data) by done.
  unfold merge_result, merge_outcome. simpl.
  eexists. split; [reflexivity|]. simpl. by rewrite lookup_insert_eq, drop_0.
Qed.

(** ** Deduplication at [init] *)

Lemma prefix_app (h e : string) : String.prefix h (h +:+ e) = true.
Proof.
  induction h as [|a h IH]; [by destruct e|].
  simpl. by destruct (ascii_dec a a).
Qed.

Lemma elem_of_readdirSync {A} (d : gmap string A) (f : string) :
  f ∈ readdirSync d ↔ is_Some (d !! f).
Proof.
  unfold readdirSync. rewrite list_elem_of_fmap. split.
  - intros ([f' x] & -> & Hin). apply elem_of_map_to_list in Hin. by eexists.
  - intros [x Hx]. exists (f, x). split; [done|]. by apply elem_of_map_to_list.
Qed.

Lemma checkFileExists_Some (fileHash path : string) (σ : server) :
  checkFileExists UPLOAD_DIR fileHash σ = Some path →
  ∃ file, path = path_join UPLOAD_DIR file
          ∧ is_Some (uploads σ !! file) ∧ String.prefix fileHash file = true.
Proof.
  unfold checkFileExists.
  destruct (find _ _) as [file|] eqn:E; [|done]. intros [= <-].
  apply find_some in E as [Hin Hp]. exists file. repeat split; [|done].
  by apply elem_of_readdirSync, list_elem_of_In.
Qed.

Lemma checkFileExists_None (fileHash : string) (σ : server) :
  checkFileExists UPLOAD_DIR fileHash σ = None ↔
  ∀ file, is_Some (uploads σ !! file) → String.prefix fileHash file = false.
Proof.
  unfold checkFileExists. split.
  - destruct (find _ _) eqn:E; [done|]. intros _ file Hfile.
    apply (find_none _ _ E). by apply list_elem_of_In, elem_of_readdirSync.
  - intros Hall. destruct (find _ _) as [file|] eqn:E; [|done].
    apply find_some in E as [Hin Hp].
    apply list_elem_of_In, elem_of_readdirSync, Hall in Hin. congruence.
Qed.

Lemma checkFileExists_archived (fileHash ext : string) (σ : server) :
  is_Some (uploads σ !! (fileHash +:+ ext)) →
  ∃ file,
    checkFileExists UPLOAD_DIR fileHash σ = Some (path_join UPLOAD_DIR file)
    ∧ is_Some (uploads σ !! file)
    ∧ String.prefix fileHash file = true.
Proof.
  intros Harch.
  destruct (checkFileExists UPLOAD_DIR fileHash σ) as [path|] eqn:E.
  - apply checkFileExists_Some in E as (file & -> & Hin & Hp). by exists file.
  - pose proof (proj1 (checkFileExists_None _ _) E _ Harch) as Hp.
    by rewrite prefix_app in Hp.
Qed.

(** C5.  When the archive holds a file for the hash (its name is the hash
    followed by an extension), [init] answers with the path of an archive
    file whose name starts with the hash, and the state is the one before:
    no session record, no staging directory.  When no other archive name
    starts with the hash, the path is that of the file itself. *)
Theorem init_with_archived_hash_returns_existing_path (σ : server)
    (uuid fileName : string) (fileSize chunkSize : Z) (fileHash ext : string) :
  is_Some (uploads σ !! (fileHash +:+ ext)) →
  ∃ file,
    init_route UPLOAD_DIR uuid fileName fileSize chunkSize fileHash σ
    = (InitExists (path_join UPLOAD_DIR file), σ)
    ∧ is_Some (uploads σ !! file)
    ∧ String.prefix fileHash file = true
    ∧ ((∀ f, is_Some (uploads σ !! f) → String.prefix fileHash f = true →
             f = fileHash +:+ ext) →
       file = fileHash +:+ ext).
Proof.
  intros Harch. unfold init_route.
  destruct (checkFileExists_archived fileHash ext σ Harch) as (file & -> & Hin & Hp).
  exists file. repeat split; [done..|]. intros Huniq. by apply Huniq.
Qed.

(** After a merge that answered with success, [init] with the same hash
    finds the archived file and opens no session. *)
Lemma init_after_merge_opens_no_session (σ σ' : server)
    (id fileName fileHash uuid fileName' : string) (fileSize chunkSize : Z)
    (fault : option stream_fault) (name : string) :
  merge_route extname id fileName fileHash fault σ = Some (MergeOk name, σ') →
  ∃ file,
    init_route UPLOAD_DIR uuid fileName' fileSize chunkSize fileHash σ'
    = (InitExists (path_join UPLOAD_DIR file), σ').
Proof.
  intros Hm.
  assert (is_Some (uploads σ' !! (fileHash +:+ extname fileName))) as Harch.
  { unfold merge_route in Hm. simpl in Hm.
    destruct (negb _); [done|].
    destruct (loop_bound _); [|done].
    case_bool_decide; [done|].
    destruct (mergeChunks _ _ _ _ _ _) as [[r ups]|] eqn:E; [|done]. simpl in Hm.
    unfold mergeChunks in E. destruct (_ !! id) eqn:Hid; [|by simplify_eq].
    destruct (writeNextChunk _ _ _ _ _ _) as [[r' out]|]; [|done].
    simpl in E. injection E as -> <-.
    destruct r; [|done]. injection Hm as _ <-.
    simpl. rewrite lookup_insert_eq. by eexists. }
  destruct (checkFileExists_archived fileHash (extname fileName) σ' Harch)
    as (file & Hc & _).
  exists file. unfold init_route. by rewrite Hc.
Qed.

(** ** [init] and the sizes it is given *)

(** C3, as the code has it.  [init] does not look at [chunkSize] or
    [fileSize] before it opens a session: whenever no archive name starts
    with the hash and no file is in the way of the staging directory, it
    registers a session with [totalChunks = Math.ceil(fileSize / chunkSize)]
    and no chunks, and the staging directory exists afterwards, whatever
    the two sizes are. *)
Theorem init_opens_session_for_any_sizes (σ : server) (uuid fileName : string)
    (fileSize chunkSize : Z) (fileHash : string) :
  (∀ file, is_Some (uploads σ !! file) → String.prefix fileHash file = false) →
  (∀ b, temp σ !! uuid ≠ Some (File b)) →
  ∃ σ',
    init_route UPLOAD_DIR uuid fileName fileSize chunkSize fileHash σ
    = (InitCreated uuid, σ')
    ∧ uploadStatus σ' !! uuid
      = Some {| fileName := fileName; fileSize := fileSize;
                chunkSize := chunkSize; fileHash := fileHash;
                totalChunks := ceil_div fileSize chunkSize;
                uploadedChunks := [] |}
    ∧ (∃ d, temp σ' !! uuid = Some (Dir d))
    ∧ uploads σ' = uploads σ.
Proof.
  intros Hnone Hfile. unfold init_route.
  rewrite (proj2 (checkFileExists_None _ _) Hnone).
  unfold mkdirSync. destruct (temp σ !! uuid) as [[b|d]|] eqn:E.
  - by destruct (Hfile b).
  - eexists. split; [reflexivity|]. simpl. rewrite lookup_insert_eq.
    repeat split. by exists d.
  - eexists. split; [reflexivity|]. simpl. rewrite !lookup_insert_eq.
    repeat split. by exists ∅.
Qed.

(** ** Progress of an empty file *)

(** C10.  For a session that [init] opened with [fileSize = 0] the progress
    route answers with [progress = NaN]: no chunk is recorded, the chunk
    count is zero ([Math.ceil(0 / chunkSize)]: [0] for a positive chunk
    size), and [0 / 0] is not guarded. *)
Theorem progress_of_empty_file_is_NaN (σ σ' : server) (uuid fileName : string)
    (chunkSize : Z) (fileHash : string) :
  init_route UPLOAD_DIR uuid fileName 0 chunkSize fileHash σ = (InitCreated uuid, σ') →
  ∃ body,
    progress_route uuid σ' = Some (Some body)
    ∧ progress body = JNaN
    ∧ isNaN (progress body) = true
    ∧ body_uploadedChunks body = []
    ∧ missingChunks body = []
    ∧ ((0 < chunkSize)%Z → body_totalChunks body = JFin 0).
Proof.
  unfold init_route. destruct (checkFileExists _ _ _); [done|].
  destruct (mkdirSync _ _); [|done]. intros [= <-].
  unfold progress_route, status_of. simpl. rewrite lookup_insert_eq. simpl.
  assert (ceil_div 0 chunkSize = JNaN ∧ chunkSize = 0%Z
          ∨ ceil_div 0 chunkSize = JNegZero ∧ (chunkSize < 0)%Z
          ∨ ceil_div 0 chunkSize = JFin 0 ∧ (0 < chunkSize)%Z) as Hc.
  { unfold ceil_div. destruct (Z.eqb_spec chunkSize 0) as [->|Hne]; [by left|].
    simpl. rewrite Z.div_0_l by done. simpl.
    destruct (Z.ltb_spec chunkSize 0); [right; left | right; right];
      (split; [done|lia]). }
  destruct Hc as [[-> Hc]|[[-> Hc]|[-> Hc]]]; simpl;
    eexists; (split; [reflexivity|]); simpl; repeat split; try done; lia.
Qed.

(** ** The recorded chunk indices *)

Lemma record_chunk_NoDup (x : option Z) (s : session) :
  NoDup (uploadedChunks s) → NoDup (uploadedChunks (record_chunk x s)).
Proof.
  intros Hnd. unfold record_chunk. simpl. case_bool_decide; [done|].
  apply NoDup_app. repeat split; [done| |apply NoDup_singleton].
  intros y Hy ->%list_elem_of_singleton. done.
Qed.

Lemma record_chunk_ok (chunkIndex : string) (s : session) :
  index_in_range chunkIndex s = true →
  indices_ok s → indices_ok (record_chunk (parseInt chunkIndex) s).
Proof.
  intros Hr [Hnd Hin]. split; [by apply record_chunk_NoDup|].
  unfold record_chunk. simpl. case_bool_decide; [done|].
  intros x [Hx| ->%list_elem_of_singleton]%elem_of_app; [by apply Hin|].
  unfold index_in_range in Hr.
  destruct (parseInt chunkIndex) as [k|]; [|done].
  destruct (totalChunks s) as [z| | | |]; try done.
  exists k, z. repeat split; lia.
Qed.

Lemma handleRequestCancel_lookup (req : chunk_req) (σ : server) (id : string)
    (s : session) :
  uploadStatus (handleRequestCancel req σ) !! id = Some s →
  uploadStatus σ !! id = Some s.
Proof.
  unfold handleRequestCancel. destruct (_ && _); simpl; [|done].
  intros Hd. apply lookup_delete_Some in Hd. tauto.
Qed.

(** A step changes the registry only by opening a session without chunks,
    by recording the index of an accepted chunk, or by removing a session. *)
Lemma step_registry (o : op) (σ σ' : server) (id : string) (s' : session) :
  step UPLOAD_DIR extname o σ = Some σ' →
  uploadStatus σ' !! id = Some s' →
  uploadStatus σ !! id = Some s'
  ∨ uploadedChunks s' = []
  ∨ ∃ chunkIndex name b s,
      o = OpChunk id chunkIndex name b
      ∧ uploadStatus σ !! id = Some s
      ∧ s' = record_chunk (parseInt chunkIndex) s.
Proof.
  destruct o as [uuid fn fs cs fh|uid ci name b|req|uid|uid fn fh fault]; simpl.
  - intros [= <-]. unfold init_route.
    destruct (checkFileExists _ _ _); [by left|].
    destruct (mkdirSync _ _); [|by left]. simpl.
    destruct (decide (uuid = id)) as [->|Hne].
    + rewrite lookup_insert_eq. intros [= <-]. by right; left.
    + rewrite lookup_insert_ne by done. by left.
  - intros [= <-]. unfold chunk_route, chunk_handler, multer_single. simpl.
    rewrite (status_of_ext σ) by done.
    destruct (status_of σ uid) as [s| |] eqn:Hst; [| |by left].
    + apply status_of_Own_inv in Hst as Hs.
      destruct (renameSync _ _ _ _); simpl.
      * destruct (decide (uid = id)) as [->|Hne].
        -- rewrite lookup_insert_eq. intros [= <-]. right; right.
           by exists ci, name, b, s.
        -- rewrite lookup_insert_ne by done. by left.
      * intros Hc. left. by apply handleRequestCancel_lookup in Hc.
    + destruct (renameSync _ _ _ _); simpl;
        intros Hc; left; by apply handleRequestCancel_lookup in Hc.
  - intros [= <-]. by left.
  - intros [= <-]. by left.
  - unfold merge_route. simpl. destruct (negb _); simpl.
    + intros [= <-]. by left.
    + destruct (loop_bound _); [|simpl; intros [= <-]; by left].
      case_bool_decide.
      * simpl. intros [= <-]. by left.
      * destruct (mergeChunks _ _ _ _ _ _) as [[[|e] ups]|]; simpl; [| |done].
        -- intros [= <-]. case_bool_decide; simpl; [|by left].
           intros Hd. apply lookup_delete_Some in Hd. left. tauto.
        -- intros [= <-]. by left.
Qed.

Lemma step_registry_ok (o : op) (σ σ' : server) :
  step UPLOAD_DIR extname o σ = Some σ' →
  op_in_range o σ = true →
  registry_ok σ → registry_ok σ'.
Proof.
  intros Hstep Hr Hok id s' Hs'.
  destruct (step_registry o σ σ' id s' Hstep Hs')
    as [Hold|[Hnil|(ci & name & b & s & -> & Hs & ->)]].
  - by apply (Hok id).
  - split; rewrite Hnil; [apply NoDup_nil_2|]. by intros x ?%elem_of_nil.
  - simpl in Hr. rewrite Hs in Hr. apply record_chunk_ok; [done|]. by apply (Hok id).
Qed.

Lemma run_registry_ok (ops : list op) (σ σ' : server) :
  run UPLOAD_DIR extname ops σ = Some σ' →
  run_in_range UPLOAD_DIR extname ops σ = true →
  registry_ok σ → registry_ok σ'.
Proof.
  revert σ. induction ops as [|o ops IH]; intros σ; simpl.
  - by intros [= <-].
  - destruct (step UPLOAD_DIR extname o σ) as [σ1|] eqn:Hstep; [|done]. simpl.
    intros Hrun [Hr Hrs]%andb_true_iff Hok.
    apply (IH σ1); [done..|]. by apply (step_registry_ok o σ).
Qed.

Lemma indices_ok_length (s : session) (z : Z) :
  indices_ok s → totalChunks s = JFin z →
  (Z.of_nat (length (uploadedChunks s)) ≤ Z.max 0 z)%Z.
Proof.
  intros [Hnd Hin] Hz.
  assert (uploadedChunks s ⊆+ (λ i, Some (Z.of_nat i)) <$> seq 0 (Z.to_nat z)) as Hsub.
  { apply NoDup_submseteq; [done|]. intros x Hx.
    destruct (Hin x Hx) as (k & z' & -> & Hz' & Hk).
    assert (z' = z) as -> by congruence.
    apply list_elem_of_fmap. exists (Z.to_nat k). split; [f_equal; lia|].
    apply elem_of_seq. lia. }
  apply submseteq_length in Hsub. rewrite length_fmap, length_seq in Hsub. lia.
Qed.

(** C2, as the code has it.  The chunk route records whatever index it is
    sent, so the bound is a property of the requests: in every run of the
    coordinator from the empty registry in which every chunk request that
    reaches a session carries an index in [0, totalChunks), every session
    records each index at most once, only indices in [0, totalChunks), and
    no more than [totalChunks] of them. *)
Theorem uploaded_indices_in_range_for_in_range_requests (ops : list op)
    (σ' : server) (id : string) (s : session) :
  run UPLOAD_DIR extname ops empty_server = Some σ' →
  run_in_range UPLOAD_DIR extname ops empty_server = true →
  uploadStatus σ' !! id = Some s →
  NoDup (uploadedChunks s)
  ∧ (∀ x, x ∈ uploadedChunks s →
          ∃ k z, x = Some k ∧ totalChunks s = JFin z ∧ (0 ≤ k < z)%Z)
  ∧ (∀ z, totalChunks s = JFin z →
          (Z.of_nat (length (uploadedChunks s)) ≤ Z.max 0 z)%Z).
Proof.
  intros Hrun Hr Hs.
  assert (registry_ok σ') as Hok.
  { apply (run_registry_ok ops empty_server); [done..|].
    intros id' s' H. simpl in H. by rewrite lookup_empty in H. }
  destruct (Hok id s Hs) as [Hnd Hin]. repeat split; [done..|].
  intros z Hz. by apply indices_ok_length.
Qed.


(** ** A chunk request whose connection closes *)



(** The clean-up does run when storing the chunk throws: a chunk request
    that is answered with 500 leaves no record of its session and nothing
    at the path of its staging directory. *)
Lemma chunk_failure_removes_the_session (req : chunk_req) (σ σ' : server) :
  req_uploadId req ≠ EmptyString →
  chunk_handler req σ = (ChunkFailed, σ') →
  uploadStatus σ' !! req_uploadId req = None
  ∧ temp σ' !! req_uploadId req = None.
Proof.
  intros Hne. unfold chunk_handler.
  assert (∀ σ0, status_of σ0 (req_uploadId req) = status_of σ (req_uploadId req) →
                truthy (status_of σ (req_uploadId req)) = true →
                uploadStatus (handleRequestCancel req σ0) !! req_uploadId req = None
                ∧ temp (handleRequestCancel req σ0) !! req_uploadId req = None)
    as Hcancel.
  { intros σ0 Hst0 Htrue. unfold handleRequestCancel.
    rewrite Hst0, Htrue, bool_decide_eq_true_2 by done. simpl.
    split; apply lookup_delete_eq. }
  destruct (status_of σ (req_uploadId req)) as [s| |] eqn:Hst; [| |done].
  - destruct (req_file req ≫= _); [done|]. intros [= <-].
    apply Hcancel; [|done]. by rewrite Hst.
  - destruct (req_file req ≫= _); intros [= <-]; (apply Hcancel; [|done]).
    + by rewrite <- Hst.
    + by rewrite Hst.
Qed.

End server_properties.

(** ** The scenarios, run *)

Example run_one_staged :
  run upload_dir ext [init_u1; OpChunk "u1" "0" "m0" chunk0] empty_server
  = Some one_staged.
Proof. vm_compute. reflexivity. Qed.

Example run_both_staged :
  run upload_dir ext
      [init_u1; OpChunk "u1" "1" "m1" chunk1; OpChunk "u1" "0" "m0" chunk0]
      empty_server
  = Some both_staged.
Proof. vm_compute. reflexivity. Qed.

Example run_archived :
  run upload_dir ext [OpMerge "u1" "movie.bin" "abc" None] both_staged
  = Some archived.
Proof. vm_compute. reflexivity. Qed.

(** The merge looks at the files, not at [uploadedChunks]: a session whose
    record lists both indices while the file of chunk 1 is absent is
    answered with 400 and [1]. *)
Example merge_ignores_recorded_indices :
  merge_route ext "u1" "movie.bin" "abc" None
    {| temp := temp one_staged;
       uploads := ∅;
       uploadStatus :=
         {[ "u1" := {| fileName := "movie.bin"; fileSize := 3; chunkSize := 2;
                       fileHash := "abc"; totalChunks := JFin 2;
                       uploadedChunks := [Some 0%Z; Some 1%Z] |} ]} |}
  = Some (MergeIncomplete [1],
          {| temp := temp one_staged;
             uploads := ∅;
             uploadStatus :=
               {[ "u1" := {| fileName := "movie.bin"; fileSize := 3; chunkSize := 2;
                             fileHash := "abc"; totalChunks := JFin 2;
                             uploadedChunks := [Some 0%Z; Some 1%Z] |} ]} |}).
Proof. vm_compute. reflexivity. Qed.

(** A chunk sent twice is recorded once. *)
Example run_chunk_twice :
  run upload_dir ext
      [init_u1; OpChunk "u1" "0" "m0" chunk0; OpChunk "u1" "0" "m2" chunk0]
      empty_server
  = Some one_staged.
Proof. vm_compute. reflexivity. Qed.

(** ** The statements at the scenarios *)

Lemma both_staged_data (i : nat) (b : bytes) :
  [chunk0; chunk1] !! i = Some b →
  staging (temp both_staged) "u1" !! chunk_name i = Some b.
Proof. destruct i as [|[|i]]; [by intros [= <-]..|done]. Defined.

(** The merge of the two staged chunks gives [chunk0 ++ chunk1], though
    chunk 1 arrived first; when the write of chunk 1 fails after both files
    have been read, the answer is success and the archive holds chunk 0. *)
Lemma merge_answers_success_before_the_output_is_written_witness :
  (∃ σ', merge_route ext "u1" "movie.bin" "abc" None both_staged
         = Some (MergeOk ("abc" +:+ ext "movie.bin"), σ')
         ∧ uploads σ' !! ("abc" +:+ ext "movie.bin")
           = Some (concat [chunk0; chunk1]))
  ∧ (∃ σ', merge_route ext "u1" "movie.bin" "abc" (Some Scenario2.fails_at_1_late)
             both_staged
           = Some (MergeOk ("abc" +:+ ext "movie.bin"), σ')
           ∧ uploads σ' !! ("abc" +:+ ext "movie.bin")
             = Some (concat (take (failed_chunk Scenario2.fails_at_1_late)
                                  [chunk0; chunk1]))
           ∧ temp σ' !! "u1" = None
           ∧ uploadStatus σ' !! "u1" = None).
Proof.
  apply (merge_answers_success_before_the_output_is_written ext both_staged "u1"
           {| fileName := "movie.bin"; fileSize := 3; chunkSize := 2;
              fileHash := "abc"; totalChunks := JFin 2;
              uploadedChunks := [Some 1%Z; Some 0%Z] |} 2).
  - reflexivity.
  - reflexivity.
  - reflexivity.
  - exact both_staged_data.
  - vm_compute. lia.
Defined.

(** The same, computed: the route answers 200 and the archived file is
    one byte short. *)
Example merge_truncated_at_scenario :
  merge_route ext "u1" "movie.bin" "abc" (Some Scenario2.fails_at_1_late) both_staged
  = Some (MergeOk "abc.bin",
          {| temp := ∅; uploads := {[ "abc.bin" := chunk0 ]}; uploadStatus := ∅ |}).
Proof. vm_compute. reflexivity. Qed.



Lemma three_staged_data (i : nat) (b : bytes) :
  [chunk0; Scenario2.part1; Scenario2.part2] !! i = Some b →
  staging (temp Scenario2.three_staged) "u5" !! chunk_name i = Some b.
Proof. destruct i as [|[|[|i]]]; [by intros [= <-]..|done]. Defined.

(** C9, the claim at a scenario.  The output stream fails at chunk 1 of
    three, and its 'error' is emitted while that chunk is read: the route
    answers 500, and the archive directory then holds [def.bin] with the
    bytes of chunk 0 only, which [checkFileExists] takes for the archived
    file. *)
Lemma merge_stream_failure_leaves_partial_archive :
  ∃ σ',
    merge_route ext "u5" "movie.bin" "def" (Some Scenario2.fails_at_1)
      Scenario2.three_staged
    = Some (MergeFailed (WriteError 1), σ')
    ∧ uploads Scenario2.three_staged !! "def.bin" = None
    ∧ uploads σ' !! "def.bin" = Some chunk0
    ∧ chunk0 ≠ chunk0 ++ Scenario2.part1 ++ Scenario2.part2
    ∧ checkFileExists upload_dir "def" σ' = Some "uploads/def.bin".
Proof.
  eexists. split; [vm_compute; reflexivity|].
  split; [reflexivity|]. split; [vm_compute; reflexivity|].
  split; [discriminate|]. vm_compute. reflexivity.
Qed.

Lemma merge_stream_failure_keeps_staging_and_output_witness :
  ∃ σ',
    merge_route ext "u5" "movie.bin" "def" (Some Scenario2.fails_at_1)
      Scenario2.three_staged
    = Some (MergeFailed (WriteError (failed_chunk Scenario2.fails_at_1)), σ')
    ∧ uploadStatus σ' = uploadStatus Scenario2.three_staged
    ∧ temp σ' = temp Scenario2.three_staged
    ∧ uploads σ'
      = <["def" +:+ ext "movie.bin" :=
            concat (take (failed_chunk Scenario2.fails_at_1)
                         [chunk0; Scenario2.part1; Scenario2.part2])]>
          (uploads Scenario2.three_staged)
    ∧ ∃ σ'',
        merge_route ext "u5" "movie.bin" "def" None σ'
        = Some (MergeOk ("def" +:+ ext "movie.bin"), σ'')
        ∧ uploads σ'' !! ("def" +:+ ext "movie.bin")
          = Some (concat [chunk0; Scenario2.part1; Scenario2.part2]).
Proof.
  apply (merge_stream_failure_keeps_staging_and_output ext Scenario2.three_staged
           "u5" Scenario2.session_u5 3).
  - reflexivity.
  - reflexivity.
  - reflexivity.
  - exact three_staged_data.
  - vm_compute. lia.
Defined.

(** [init] with the hash of the archived file. *)
Lemma init_with_archived_hash_returns_existing_path_witness :
  ∃ file,
    init_route upload_dir "u2" "copy.bin" 3 2 "abc" archived
    = (InitExists (path_join upload_dir file), archived)
    ∧ is_Some (uploads archived !! file)
    ∧ String.prefix "abc" file = true
    ∧ ((∀ f, is_Some (uploads archived !! f) → String.prefix "abc" f = true →
             f = "abc" +:+ ".bin") →
       file = "abc" +:+ ".bin").
Proof.
  apply (init_with_archived_hash_returns_existing_path upload_dir archived
           "u2" "copy.bin" 3 2 "abc" ".bin").
  exists (chunk0 ++ chunk1). reflexivity.
Defined.

(** C3, the claim at an input.  [init] with a chunk size of zero and a
    negative file size opens a session and its staging directory. *)
Lemma init_accepts_zero_chunk_size :
  ∃ σ',
    init_route upload_dir "u1" "movie.bin" (-3) 0 "abc" empty_server
    = (InitCreated "u1", σ')
    ∧ is_Some (uploadStatus σ' !! "u1")
    ∧ temp σ' !! "u1" = Some (Dir ∅).
Proof.
  eexists. split; [vm_compute; reflexivity|].
  split; [by eexists | reflexivity].
Qed.

Lemma init_opens_session_for_any_sizes_witness :
  ∃ σ',
    init_route upload_dir "u1" "movie.bin" 10 0 "abc" empty_server
    = (InitCreated "u1", σ')
    ∧ uploadStatus σ' !! "u1"
      = Some {| fileName := "movie.bin"; fileSize := 10;
                chunkSize := 0; fileHash := "abc";
                totalChunks := ceil_div 10 0;
                uploadedChunks := [] |}
    ∧ (∃ d, temp σ' !! "u1" = Some (Dir d))
    ∧ uploads σ' = uploads empty_server.
Proof.
  apply (init_opens_session_for_any_sizes upload_dir empty_server
           "u1" "movie.bin" 10 0 "abc").
  - intros file [b Hb]. simpl in Hb. by rewrite lookup_empty in Hb.
  - intros b Hb. simpl in Hb. by rewrite lookup_empty in Hb.
Defined.

(** The progress of an empty file right after [init]. *)
Lemma progress_of_empty_file_is_NaN_witness :
  ∃ body,
    progress_route "u1" (init_route upload_dir "u1" "empty.bin" 0 5 "e3b0" empty_server).2
    = Some (Some body)
    ∧ progress body = JNaN
    ∧ isNaN (progress body) = true
    ∧ body_uploadedChunks body = []
    ∧ missingChunks body = []
    ∧ ((0 < 5)%Z → body_totalChunks body = JFin 0).
Proof.
  apply (progress_of_empty_file_is_NaN upload_dir empty_server _
           "u1" "empty.bin" 5 "e3b0").
  vm_compute. reflexivity.
Defined.

(** C2, the claim at a run.  Three chunk requests with the indices 7, 8
    and 9 for a session of two chunks are all recorded. *)
Lemma out_of_range_indices_are_recorded :
  ∃ σ' s,
    run upload_dir ext
        [init_u1; OpChunk "u1" "7" "m7" chunk0; OpChunk "u1" "8" "m8" chunk0;
         OpChunk "u1" "9" "m9" chunk0] empty_server = Some σ'
    ∧ uploadStatus σ' !! "u1" = Some s
    ∧ totalChunks s = JFin 2
    ∧ uploadedChunks s = [Some 7%Z; Some 8%Z; Some 9%Z]
    ∧ 2 < length (uploadedChunks s).
Proof.
  eexists _, _. split; [vm_compute; reflexivity|].
  split; [vm_compute; reflexivity|].
  split; [reflexivity|]. split; [reflexivity|]. simpl. lia.
Qed.

Lemma uploaded_indices_in_range_for_in_range_requests_witness :
  NoDup [Some 1%Z; Some 0%Z]
  ∧ (∀ x, x ∈ [Some 1%Z; Some 0%Z] →
          ∃ k z, x = Some k ∧ JFin 2 = JFin z ∧ (0 ≤ k < z)%Z)
  ∧ (∀ z, JFin 2 = JFin z → (Z.of_nat 2 ≤ Z.max 0 z)%Z).
Proof.
  apply (uploaded_indices_in_range_for_in_range_requests upload_dir ext
           [init_u1; OpChunk "u1" "1" "m1" chunk1; OpChunk "u1" "0" "m0" chunk0]
           both_staged "u1"
           {| fileName := "movie.bin"; fileSize := 3; chunkSize := 2;
              fileHash := "abc"; totalChunks := JFin 2;
              uploadedChunks := [Some 1%Z; Some 0%Z] |}).
  - vm_compute. reflexivity.
  - vm_compute. reflexivity.
  - reflexivity.
Defined.


(** The clean-up the listener would run: had it run for this request, the
    file of chunk 0 and the session record would be gone as well. *)
Example request_cancel_removes_sibling_chunks :
  staging (temp (multer_single "m1" chunk1 one_staged)) "u1" !! "0.part" = Some chunk0
  ∧ staging (temp (handleRequestCancel req_chunk1 (multer_single "m1" chunk1 one_staged)))
            "u1" !! "0.part" = None
  ∧ uploadStatus (handleRequestCancel req_chunk1 (multer_single "m1" chunk1 one_staged))
    !! "u1" = None.
Proof. split; [reflexivity|]. split; reflexivity. Qed.

(** * Properties of the client *)

Module ClientFacts.
Import Client ClientSpec.

Ltac fields st :=
  destruct st as [chs conc ups act pau uid ctl n ws ins mg lg];
  unfold set_uploadedChunks, set_activeConnections, set_paused, set_uploadId,
    set_workers, set_inits, set_merges, emit, send_chunk in *;
  simpl in *.

Example _prepareChunks_30_10 :
  _prepareChunks 10 30
  = [{| index := 0; c_start := 0; c_end := 10 |};
     {| index := 1; c_start := 10; c_end := 20 |};
     {| index := 2; c_start := 20; c_end := 30 |}].
Proof. reflexivity. Qed.

Example _prepareChunks_3_2 :
  _prepareChunks 2 3
  = [{| index := 0; c_start := 0; c_end := 2 |};
     {| index := 1; c_start := 2; c_end := 3 |}].
Proof. reflexivity. Qed.

(** For a chunk size of at least one byte the loop of [_prepareChunks] ends
    within the iterations it is given: more of them change nothing. *)
Lemma prepareChunks_from_fuel (chunkSize fileSize : Z) (fuel extra : nat)
    (start : Z) (i : nat) :
  (1 ≤ chunkSize)%Z →
  (fileSize - start ≤ Z.of_nat fuel)%Z →
  prepareChunks_from (fuel + extra) chunkSize fileSize start i
  = prepareChunks_from fuel chunkSize fileSize start i.
Proof.
  intros Hc. revert start i. induction fuel as [|fuel IH]; intros start i Hf.
  - simpl. destruct extra; simpl; [done|].
    by rewrite (proj2 (Z.ltb_ge _ _)) by lia.
  - simpl. destruct (Z.ltb_spec start fileSize); [|done].
    f_equal. apply IH. lia.
Qed.

(** The chunks are numbered from 0 in the order of the list. *)
Lemma prepareChunks_from_index (chunkSize fileSize : Z) (fuel : nat)
    (start : Z) (i : nat) :
  index <$> prepareChunks_from fuel chunkSize fileSize start i
  = seq i (length (prepareChunks_from fuel chunkSize fileSize start i)).
Proof.
  revert start i. induction fuel as [|fuel IH]; intros start i; simpl; [done|].
  destruct (start <? fileSize)%Z; simpl; [|done]. by rewrite IH.
Qed.

Lemma send_chunk_window (c : chunk) (rest : list chunk) (st : uploader) :
  window_ok st →
  (activeConnections st < Z.of_nat (concurrent st))%Z →
  window_ok (send_chunk c rest st) ∧ concurrent (send_chunk c rest st) = concurrent st.
Proof.
  unfold window_ok. fields st. rewrite length_app. simpl. lia.
Qed.

Lemma upload_loop_window (todo : list chunk) (st : uploader) :
  window_ok st →
  window_ok (upload_loop todo st) ∧ concurrent (upload_loop todo st) = concurrent st.
Proof.
  intros Hok. unfold upload_loop.
  destruct (Z.ltb_spec (activeConnections st) (Z.of_nat (concurrent st))); simpl;
    [|done].
  case_bool_decide; simpl; [|done].
  destruct (paused st); [done|].
  destruct todo as [|c rest]; [done|]. by apply send_chunk_window.
Qed.

Lemma _uploadChunks_window (st : uploader) :
  window_ok st →
  window_ok (_uploadChunks st) ∧ concurrent (_uploadChunks st) = concurrent st.
Proof.
  intros Hok. unfold _uploadChunks.
  destruct (paused st); [done|].
  case_bool_decide; [|by apply upload_loop_window].
  unfold window_ok in *. by fields st.
Qed.

(** The continuation of a transfer that has just left [workers]. *)
Lemma resume_worker_window (w : worker) (o : outcome) (st : uploader) :
  activeConnections st = Z.of_nat (S (length (workers st))) →
  S (length (workers st)) ≤ concurrent st →
  window_ok (resume_worker w o st)
  ∧ concurrent (resume_worker w o st) = concurrent st.
Proof.
  intros Hact Hlen. unfold resume_worker.
  destruct o.
  - set (st1 := if bool_decide _ then st else _).
    set (st2 := set_activeConnections _ _).
    assert (window_ok st2 ∧ concurrent st2 = concurrent st) as [Hok2 Hc2].
    { subst st2 st1. unfold window_ok, _updateProgress.
      case_bool_decide; fields st; lia. }
    destruct (paused st2).
    + destruct (upload_loop_window (w_todo w) st2 Hok2) as [? ?].
      split; [done|congruence].
    + destruct (_uploadChunks_window st2 Hok2) as [Hok3 Hc3].
      destruct (upload_loop_window (w_todo w) _ Hok3) as [? ?].
      split; [done|congruence].
  - unfold window_ok. fields st. lia.
  - unfold window_ok. fields st. lia.
  - unfold window_ok. fields st. lia.
Qed.

Lemma remove_worker_window (i : nat) (w : worker) (st : uploader) :
  window_ok st → workers st !! i = Some w →
  let st' := set_workers (delete i (workers st)) st in
  activeConnections st' = Z.of_nat (S (length (workers st')))
  ∧ S (length (workers st')) ≤ concurrent st'
  ∧ concurrent st' = concurrent st.
Proof.
  intros [Hact Hlen] Hw.
  assert (length (delete i (workers st)) = length (workers st) - 1) as Hdel
    by (apply length_delete; by eexists).
  apply lookup_lt_Some in Hw.
  fields st. lia.
Qed.

Lemma pause_window (st : uploader) :
  window_ok st → window_ok (pause st) ∧ concurrent (pause st) = concurrent st.
Proof.
  intros Hok. unfold pause.
  assert (window_ok (set_paused true st)
          ∧ concurrent (set_paused true st) = concurrent st) as [Hok1 Hc1]
    by (unfold window_ok in *; by fields st).
  destruct (abortController _) as [c|]; [|done].
  destruct (list_find _ _) as [[i w]|] eqn:Hf; [|done].
  apply list_find_Some in Hf as (Hw & _ & _).
  destruct (remove_worker_window i w _ Hok1 Hw) as (Ha & Hl & Hc).
  destruct (resume_worker_window w AbortError _ Ha Hl) as [? ?].
  split; [done|congruence].
Qed.

Lemma start_window (st : uploader) :
  window_ok st → window_ok (start st) ∧ concurrent (start st) = concurrent st.
Proof.
  intros Hok. unfold start. destruct (paused st) eqn:Hp.
  - assert (window_ok (set_paused false st)
            ∧ concurrent (set_paused false st) = concurrent st) as [Hok1 Hc1]
      by (unfold window_ok in *; by fields st).
    destruct (uploadId _).
    + destruct (_uploadChunks_window _ Hok1) as [? ?]. split; [done|congruence].
    + unfold window_ok in *. by fields st.
  - unfold window_ok in *. by fields st.
Qed.

Lemma init_done_window (task : init_task) (st : uploader) :
  window_ok st →
  window_ok (init_done task st) ∧ concurrent (init_done task st) = concurrent st.
Proof.
  intros Hok. unfold init_done.
  destruct (then_upload task); [by apply _uploadChunks_window|done].
Qed.

Lemma step_window (e : event) (st st' : uploader) :
  step e st = Some st' →
  window_ok st → window_ok st' ∧ concurrent st' = concurrent st.
Proof.
  intros Hstep Hok. destruct e as [| |i r|i r|i o|ok]; simpl in Hstep.
  - injection Hstep as <-. by apply start_window.
  - injection Hstep as <-. by apply pause_window.
  - destruct (inits st !! i) as [task|]; [|done]. simpl in Hstep.
    destruct (stage task); [|done].
    destruct r as [| |id]; injection Hstep as <-.
    + assert (window_ok (emit OnError (set_inits (delete i (inits st)) st))
              ∧ concurrent (emit OnError (set_inits (delete i (inits st)) st))
                = concurrent st) as [Hok1 Hc1]
        by (unfold window_ok in *; by fields st).
      destruct (init_done_window task _ Hok1) as [? ?]. split; [done|congruence].
    + set (st2 := emit OnSuccess _).
      assert (window_ok st2 ∧ concurrent st2 = concurrent st) as [Hok1 Hc1]
        by (subst st2; unfold window_ok, _updateProgress in *; by fields st).
      destruct (init_done_window task _ Hok1) as [? ?]. split; [done|congruence].
    + unfold window_ok in *. by fields st.
  - destruct (inits st !! i) as [task|]; [|done]. simpl in Hstep.
    destruct (stage task); [done|].
    destruct r as [ups'|]; injection Hstep as <-.
    + set (st1 := set_uploadedChunks _ _).
      assert (window_ok st1 ∧ concurrent st1 = concurrent st) as [Hok1 Hc1]
        by (subst st1; unfold window_ok in *; by fields st).
      destruct (_uploadChunks_window _ Hok1) as [Hok2 Hc2].
      destruct (init_done_window task _ Hok2) as [? ?]. split; [done|congruence].
    + assert (window_ok (emit OnError (set_inits (delete i (inits st)) st))
              ∧ concurrent (emit OnError (set_inits (delete i (inits st)) st))
                = concurrent st) as [Hok1 Hc1]
        by (unfold window_ok in *; by fields st).
      destruct (init_done_window task _ Hok1) as [? ?]. split; [done|congruence].
  - destruct (workers st !! i) as [w|] eqn:Hw; [|done]. simpl in Hstep.
    case_bool_decide; [done|]. injection Hstep as <-.
    destruct (remove_worker_window i w _ Hok Hw) as (Ha & Hl & Hc).
    destruct (resume_worker_window w o _ Ha Hl) as [? ?].
    split; [done|congruence].
  - destruct (merges st) as [|m] eqn:Hm; [done|]. injection Hstep as <-.
    unfold window_ok in *. destruct ok; by fields st.
Qed.

Lemma run_window (evs : list event) (st st' : uploader) :
  run evs st = Some st' →
  window_ok st → window_ok st' ∧ concurrent st' = concurrent st.
Proof.
  revert st. induction evs as [|e evs IH]; intros st; simpl.
  - by intros [= <-].
  - destruct (step e st) as [st1|] eqn:Hstep; [|done]. simpl.
    intros Hrun Hok. destruct (step_window e st st1 Hstep Hok) as [Hok1 Hc1].
    destruct (IH st1 Hrun Hok1) as [? ?]. split; [done|congruence].
Qed.

(** C8.  In every state the scheduler reaches from a new uploader, by
    [start()], [pause()], responses to its requests and completions of its
    transfers in any order, the chunk transfers in flight are no more than
    the configured window ([options.concurrent], 3 when it is not given),
    and [activeConnections] counts exactly the transfers in flight. *)
Theorem transfers_in_flight_within_window (fileSize chunkSize : Z) (window : nat)
    (evs : list event) (st : uploader) :
  run evs (BigFileUploader fileSize chunkSize window) = Some st →
  concurrent st = (if Nat.eqb window 0 then 3 else window)
  ∧ length (workers st) ≤ concurrent st
  ∧ activeConnections st = Z.of_nat (length (workers st)).
Proof.
  intros Hrun.
  destruct (run_window evs _ st Hrun) as [[Hact Hlen] Hc].
  { split; simpl; [done|lia]. }
  done.
Qed.

Lemma transfers_in_flight_within_window_witness :
  concurrent (default Scenario.uploader30
                (run Scenario.first_chunk_done Scenario.uploader30))
  = (if Nat.eqb 3 0 then 3 else 3)
  ∧ length (workers (default Scenario.uploader30
                       (run Scenario.first_chunk_done Scenario.uploader30)))
    ≤ concurrent (default Scenario.uploader30
                    (run Scenario.first_chunk_done Scenario.uploader30))
  ∧ activeConnections (default Scenario.uploader30
                         (run Scenario.first_chunk_done Scenario.uploader30))
    = Z.of_nat (length (workers (default Scenario.uploader30
                                   (run Scenario.first_chunk_done
                                        Scenario.uploader30)))).
Proof.
  apply (transfers_in_flight_within_window 30 10 3 Scenario.first_chunk_done).
  vm_compute. reflexivity.
Defined.

(** ** [pause()] *)

(** [pause()] sets the flag and invokes no callback: the transfer it aborts
    ends in the [AbortError] branch of the [catch]. *)
Lemma pause_sets_flag_and_reports_nothing (st : uploader) :
  paused (pause st) = true ∧ log (pause st) = log st.
Proof.
  unfold pause.
  destruct (abortController (set_paused true st)) as [c|] eqn:Hc;
    [|by fields st].
  destruct (list_find _ _) as [[i w]|]; [|by fields st].
  unfold resume_worker. by fields st.
Qed.

(** A transfer that ends with [AbortError] is not reported. *)
Lemma aborted_transfer_reports_nothing (w : worker) (st : uploader) :
  log (resume_worker w AbortError st) = log st.
Proof. unfold resume_worker. by fields st. Qed.

(** While the flag is set, the completion of a transfer starts no other
    transfer: the transfers in flight are those of before, less the one
    that completed. *)
Lemma settle_while_paused_starts_nothing (i : nat) (o : outcome)
    (st st' : uploader) :
  paused st = true →
  step (EvSettle i o) st = Some st' →
  paused st' = true ∧ workers st' = delete i (workers st).
Proof.
  intros Hp. simpl.
  destruct (workers st !! i) as [w|]; [|done]. simpl.
  case_bool_decide; [done|]. intros [= <-].
  unfold resume_worker, _updateProgress, upload_loop.
  destruct o; try done; repeat case_bool_decide; fields st; subst;
    repeat (destruct (_ <? _)%Z; simpl); done.
Qed.

(** [pause()] takes at most one transfer out of flight: the one whose
    controller is the last one created. *)
Lemma pause_aborts_at_most_one (st : uploader) :
  length (workers st) - 1 ≤ length (workers (pause st)).
Proof.
  unfold pause.
  destruct (abortController (set_paused true st)) as [c|] eqn:Hc;
    [|fields st; lia].
  destruct (list_find _ _) as [[i w]|] eqn:Hf; [|fields st; lia].
  apply list_find_Some in Hf as (Hw & _ & _).
  assert (length (delete i (workers st)) = length (workers st) - 1) as Hdel.
  { apply length_delete. fields st. by eexists. }
  unfold resume_worker. fields st. lia.
Qed.

(** [start()] after the pause schedules again, next to the transfer that
    the pause left in flight. *)
Example resume_after_pause :
  (λ st, (paused st, length (workers st), activeConnections st)) <$>
    run (Scenario.first_chunk_done ++ [EvPause; EvStart]) Scenario.uploader30
  = Some (false, 2, 2%Z).
Proof. vm_compute. reflexivity. Qed.

(** C7, the code at a scenario.  After the first chunk of a three-chunk
    file has completed, two transfers are in flight (both of chunk 1).
    [pause()] aborts the one whose controller was created last; the other
    one stays in flight, completes after the pause, and is recorded and
    reported as progress. *)
Theorem pause_leaves_a_transfer_in_flight :
  ∃ st w st',
    run Scenario.first_chunk_done Scenario.uploader30 = Some st
    ∧ length (workers st) = 2
    ∧ paused (pause st) = true
    ∧ workers (pause st) = [w]
    ∧ w_ctrl w = 1
    ∧ abortController (pause st) = Some 2
    ∧ step (EvSettle 0 Ok) (pause st) = Some st'
    ∧ uploadedChunks st' = [Some 0%Z; Some 1%Z]
    ∧ log st' = [OnProgress (JS.JFin 33); OnProgress (JS.JFin 67)].
Proof.
  eexists _, _, _. split; [vm_compute; reflexivity|].
  split; [reflexivity|]. split; [reflexivity|]. split; [reflexivity|].
  split; [reflexivity|]. split; [reflexivity|].
  split; [vm_compute; reflexivity|]. split; reflexivity.
Qed.

End ClientFacts.

(** * Further properties of the server *)

Import Sweep Transfer.

(** ** The index of a chunk, as text and back *)

Lemma digit_val_pretty_N_char (m : N) :
  (m < 10)%N → digit_val (pretty_N_char m) = Some (Z.of_N m).
Proof.
  intros Hm.
  assert (m = 0 ∨ m = 1 ∨ m = 2 ∨ m = 3 ∨ m = 4 ∨ m = 5 ∨ m = 6 ∨ m = 7
          ∨ m = 8 ∨ m = 9)%N as Hc by lia.
  destruct_or!; subst; reflexivity.
Qed.

Lemma pretty_N_go_decimal (x : N) (s : string) :
  decimal s → decimal (pretty_N_go x s).
Proof.
  revert s. induction (N.lt_wf_0 x) as [x _ IH]; intros s Hs.
  assert (x = 0 ∨ 0 < x)%N as [->|Hx] by lia; [by rewrite pretty_N_go_0|].
  rewrite pretty_N_go_step by done. apply IH; [by apply N.div_lt|].
  split; [|done]. exists (x `mod` 10)%N. split; [|done].
  by apply N.mod_lt.
Qed.

Lemma pretty_N_go_cons (x : N) (s : string) :
  (0 < x)%N → ∃ c s', pretty_N_go x s = String c s'.
Proof.
  revert s. induction (N.lt_wf_0 x) as [x _ IH]; intros s Hx.
  rewrite pretty_N_go_step by done.
  destruct (N.eq_0_gt_0_cases (x `div` 10)) as [->|Hd].
  - rewrite pretty_N_go_0. by eexists _, _.
  - apply IH; [by apply N.div_lt | done].
Qed.

(** [digits] reads the digits of [x] in front of [s] as [x]. *)
Lemma digits_pretty_N_go (x : N) :
  (0 < x)%N →
  ∃ p : Z, ∀ s acc,
    digits 10 (pretty_N_go x s) acc
    = digits 10 s (Some (default 0 acc * p + Z.of_N x))%Z.
Proof.
  induction (N.lt_wf_0 x) as [x _ IH]; intros Hx.
  assert (x `mod` 10 < 10)%N as Hm by by apply N.mod_lt.
  pose proof (N.div_mod x 10 ltac:(done)) as Hdm.
  assert (∀ s acc,
            digits 10 (String (pretty_N_char (x `mod` 10)) s) acc
            = digits 10 s (Some (default 0 acc * 10 + Z.of_N (x `mod` 10))%Z))
    as Hstep.
  { intros s acc. simpl. rewrite (digit_val_pretty_N_char _ Hm).
    rewrite (proj2 (Z.ltb_lt _ _)); [done|].
    revert Hm. generalize (x `mod` 10)%N. intros; lia. }
  destruct (N.eq_0_gt_0_cases (x `div` 10)) as [Hd|Hd].
  - exists 10%Z. intros s acc. rewrite pretty_N_go_step by done.
    rewrite Hd, pretty_N_go_0, Hstep. do 3 f_equal.
    revert Hdm Hd. generalize (x `mod` 10)%N (x `div` 10)%N. intros; lia.
  - destruct (IH (x `div` 10)%N) as [p Hp]; [by apply N.div_lt | done |].
    exists (p * 10)%Z. intros s acc. rewrite pretty_N_go_step by done.
    rewrite Hp, Hstep. simpl. do 2 f_equal.
    revert Hdm. generalize (x `mod` 10)%N (x `div` 10)%N. intros; lia.
Qed.

(** On a string of decimal digits [parseInt] skips nothing and reads in
    radix 10. *)
Lemma parseInt_decimal (c : ascii) (s : string) :
  decimal (String c s) → parseInt (String c s) = digits 10 (String c s) None.
Proof.
  intros [(m & Hm & ->) Hs].
  assert (m = 0 ∨ m = 1 ∨ m = 2 ∨ m = 3 ∨ m = 4 ∨ m = 5 ∨ m = 6 ∨ m = 7
          ∨ m = 8 ∨ m = 9)%N as Hc by lia.
  destruct_or!; subst;
    try (unfold parseInt; simpl; by destruct (digits _ _ _)).
  destruct s as [|c2 s]; [reflexivity|].
  destruct Hs as [(m2 & Hm2 & ->) _].
  assert (m2 = 0 ∨ m2 = 1 ∨ m2 = 2 ∨ m2 = 3 ∨ m2 = 4 ∨ m2 = 5 ∨ m2 = 6
          ∨ m2 = 7 ∨ m2 = 8 ∨ m2 = 9)%N as Hc2 by lia.
  destruct_or!; subst; unfold parseInt; simpl; by destruct (digits _ _ _).
Qed.

Lemma parseInt_pretty_N (x : N) : parseInt (pretty x) = Some (Z.of_N x).
Proof.
  unfold pretty, pretty_N. case_decide as Hx; [by subst|].
  assert (0 < x)%N as Hpos by lia.
  destruct (pretty_N_go_cons x EmptyString Hpos) as (c & s & Hcs).
  pose proof (pretty_N_go_decimal x EmptyString I) as Hdec.
  rewrite Hcs in Hdec. rewrite Hcs, (parseInt_decimal _ _ Hdec), <- Hcs.
  destruct (digits_pretty_N_go x Hpos) as [p Hp]. rewrite Hp. simpl.
  f_equal; lia.
Qed.

(** The index a client writes into the form, [String(chunk.index)], is read
    back by [parseInt] as the same integer. *)
Lemma parseInt_pretty (k : nat) : parseInt (pretty k) = Some (Z.of_nat k).
Proof.
  unfold pretty, pretty_nat. rewrite parseInt_pretty_N. f_equal. lia.
Qed.

Section server_extras.

Variable UPLOAD_DIR : string.
Variable extname : string → string.

(** ** The chunk route *)

Lemma record_chunk_elem_of (x y : option Z) (s : session) :
  y ∈ uploadedChunks (record_chunk x s) ↔ y ∈ uploadedChunks s ∨ y = x.
Proof.
  unfold record_chunk. simpl. case_bool_decide as Hx.
  - split; [by left|]. by intros [?| ->].
  - rewrite elem_of_app, list_elem_of_singleton. done.
Qed.


(** What an acknowledgement says about the state before and after. *)
Lemma chunk_route_ok_inv (σ σ' : server) (id chunkIndex name : string) (b : bytes) :
  chunk_route id chunkIndex name b σ = (ChunkOk, σ') →
  ∃ s d,
    uploadStatus σ !! id = Some s
    ∧ temp σ !! id = Some (Dir d)
    ∧ name ≠ id
    ∧ σ' = {| temp := <[id := Dir (<[part_name chunkIndex := b]> d)]>
                        (delete name (temp σ));
              uploads := uploads σ;
              uploadStatus :=
                <[id := record_chunk (parseInt chunkIndex) s]> (uploadStatus σ) |}.
Proof.
  intros Hok. pose proof Hok as Hok'.
  unfold chunk_route, chunk_handler, multer_single in Hok'. simpl in Hok'.
  rewrite (status_of_ext σ) in Hok' by done.
  destruct (status_of σ id) as [s| |] eqn:Hst;
    [|by destruct (renameSync _ _ _ _)|done].
  apply status_of_Own_inv in Hst as Hs.
  unfold renameSync in Hok'. rewrite lookup_insert_eq in Hok'.
  destruct (decide (name = id)) as [->|Hne].
  { by rewrite lookup_insert_eq in Hok'. }
  rewrite lookup_insert_ne in Hok' by done.
  destruct (temp σ !! id) as [[|d]|] eqn:Ht; try done.
  exists s, d. split; [done|]. split; [done|]. split; [done|].
  rewrite (chunk_route_acknowledged σ id chunkIndex name b s d) in Hok by done.
  by injection Hok as <-.
Qed.

(** X1.  The name multer gives to the file of a request is new in
    [TEMP_DIR].  A chunk that is then acknowledged for the index [k], sent
    as decimal text, is staged under [`${k}.part`] with the bytes of the
    request, and [k] is among the recorded indices afterwards; the session
    gains no other index and keeps its chunk count, the other files of its
    staging directory keep their contents, and every other entry of
    [TEMP_DIR] (the staging directories of the other sessions), the archive
    and the records of the other sessions are as before. *)
Theorem acknowledged_chunk_is_staged_and_recorded (σ σ' : server) (id : string)
    (k : nat) (name : string) (b : bytes) :
  temp σ !! name = None →
  chunk_route id (pretty k) name b σ = (ChunkOk, σ') →
  ∃ s s',
    uploadStatus σ !! id = Some s
    ∧ uploadStatus σ' !! id = Some s'
    ∧ totalChunks s' = totalChunks s
    ∧ (∀ x, x ∈ uploadedChunks s' ↔ x ∈ uploadedChunks s ∨ x = Some (Z.of_nat k))
    ∧ staging (temp σ') id = <[chunk_name k := b]> (staging (temp σ) id)
    ∧ (∀ id', id' ≠ id → temp σ' !! id' = temp σ !! id')
    ∧ uploads σ' = uploads σ
    ∧ (∀ id', id' ≠ id → uploadStatus σ' !! id' = uploadStatus σ !! id').
Proof.
  intros Hname Hok.
  apply chunk_route_ok_inv in Hok as (s & d & Hs & Ht & Hne & ->).
  exists s, (record_chunk (parseInt (pretty k)) s). simpl.
  rewrite lookup_insert_eq, (delete_id _ _ Hname), parseInt_pretty.
  repeat split; try done.
  - apply record_chunk_elem_of.
  - apply record_chunk_elem_of.
  - unfold staging. by rewrite lookup_insert_eq, Ht.
  - intros id' Hid. by apply lookup_insert_ne.
  - intros id' Hid. by apply lookup_insert_ne.
Qed.


(** X3.  For an upload id that is not registered, and that does not name a
    property of [Object.prototype], the chunk route answers 404, the merge
    route answers 404 and the progress route answers 404; none of them
    changes the registry, the archive or a staging directory.  The bytes of
    the rejected chunk stay in [TEMP_DIR] under the name multer gave
    them. *)
Theorem unknown_session_is_not_found (σ : server) (id chunkIndex name : string)
    (b : bytes) (fileName fileHash : string) (fault : option stream_fault) :
  uploadStatus σ !! id = None →
  id ∉ object_prototype_names →
  chunk_route id chunkIndex name b σ
  = (ChunkNotFound, set_temp (<[name := File b]> (temp σ)) σ)
  ∧ Server.merge_route extname id fileName fileHash fault σ = Some (MergeNotFound, σ)
  ∧ progress_route id σ = Some None.
Proof.
  intros Hid Hname. unfold chunk_route, chunk_handler, merge_route, progress_route,
    multer_single. simpl.
  rewrite (status_of_ext σ) by done.
  by rewrite (status_of_Undefined _ _ Hid Hname).
Qed.

(** ** The progress route *)

Lemma filter_seq_split (P : nat → bool) (j n : nat) :
  length (List.filter P (seq j n)) + length (List.filter (λ i, negb (P i)) (seq j n))
  = n.
Proof.
  revert j. induction n as [|n IH]; intros j; simpl; [done|].
  specialize (IH (S j)). destruct (P j); simpl; lia.
Qed.

(** For a list of recorded indices without duplicates and in range, the
    recorded and the missing indices together are all of them. *)
Lemma uploaded_and_missing (l : list (option Z)) (n : nat) :
  NoDup l →
  (∀ x, x ∈ l → ∃ k, x = Some (Z.of_nat k) ∧ k < n) →
  length l
  + length (List.filter (λ i, bool_decide (Some (Z.of_nat i) ∉ l)) (seq 0 n))
  = n.
Proof.
  intros Hnd Hin.
  pose proof (filter_seq_split (λ i, bool_decide (Some (Z.of_nat i) ∈ l)) 0 n)
    as Hsplit.
  assert (length l
          = length (List.filter (λ i, bool_decide (Some (Z.of_nat i) ∈ l)) (seq 0 n)))
    as Hl.
  { assert (l ≡ₚ (λ i, Some (Z.of_nat i))
                   <$> List.filter (λ i, bool_decide (Some (Z.of_nat i) ∈ l)) (seq 0 n))
      as Hperm.
    { apply NoDup_Permutation; [done| |].
      - apply NoDup_fmap_2; [intros i j [= ?]; lia|].
        apply NoDup_ListNoDup, List.NoDup_filter, NoDup_ListNoDup, NoDup_seq.
      - intros x. rewrite list_elem_of_fmap. split.
        + intros Hx. destruct (Hin x Hx) as (k & -> & Hk). exists k. split; [done|].
          apply list_elem_of_In, filter_In. split.
          * apply list_elem_of_In, elem_of_seq. lia.
          * by apply bool_decide_eq_true.
        + intros (i & -> & Hi). apply list_elem_of_In, filter_In in Hi as [_ Hi].
          by apply bool_decide_eq_true in Hi. }
    apply Permutation_length in Hperm. by rewrite length_fmap in Hperm. }
  assert (List.filter (λ i, bool_decide (Some (Z.of_nat i) ∉ l)) (seq 0 n)
          = List.filter (λ i, negb (bool_decide (Some (Z.of_nat i) ∈ l))) (seq 0 n))
    as Hf.
  { apply filter_ext. intros i. apply bool_decide_not. }
  rewrite Hf. lia.
Qed.


(** ** The sweep of [TEMP_DIR] *)

Lemma server_eq (σ1 σ2 : server) :
  temp σ1 = temp σ2 → uploads σ1 = uploads σ2 →
  uploadStatus σ1 = uploadStatus σ2 → σ1 = σ2.
Proof. destruct σ1, σ2. simpl. by intros -> -> ->. Qed.

Lemma set_temp_id (σ : server) : set_temp (temp σ) σ = σ.
Proof. by destruct σ. Qed.

Lemma ensureDir_id (id : string) (t : gmap string entry) :
  is_Some (t !! id) → ensureDir id t = t.
Proof. intros [e He]. unfold ensureDir. by rewrite He. Qed.

Lemma sweep_fold_lookup (live : string → bool) (l : list string)
    (t : gmap string entry) (k : string) :
  foldl (λ t dir, if live dir then t else delete dir t) t l !! k
  = if bool_decide (k ∈ l) && negb (live k) then None else t !! k.
Proof.
  revert t. induction l as [|dir l IH]; intros t; simpl; [done|].
  - rewrite IH. destruct (decide (k = dir)) as [->|Hne].
    + rewrite (bool_decide_eq_true_2 (dir ∈ dir :: l)) by left. simpl.
      destruct (live dir) eqn:Hl; simpl; [by rewrite andb_false_r|].
      rewrite lookup_delete_eq. by destruct (bool_decide _).
    + assert (bool_decide (k ∈ dir :: l) = bool_decide (k ∈ l)) as ->.
      { apply bool_decide_ext. rewrite elem_of_cons. intuition congruence. }
      destruct (live dir); [done|]. by rewrite lookup_delete_ne.
Qed.

Lemma truthy_status_of (σ : server) (k : string) :
  truthy (status_of σ k)
  = bool_decide (is_Some (uploadStatus σ !! k) ∨ k ∈ object_prototype_names).
Proof.
  unfold status_of. destruct (uploadStatus σ !! k) as [s|] eqn:E.
  - rewrite bool_decide_eq_true_2; [done|]. left. by eexists.
  - case_bool_decide as Hk.
    + rewrite bool_decide_eq_true_2; [done|]. by right.
    + rewrite bool_decide_eq_false_2; [done|]. intros [[x Hx]|?]; done.
Qed.

(** X5.  [cleanupOrphanedTempDirs] leaves in [TEMP_DIR] exactly the entries
    whose name is a registered upload id or the name of a property of
    [Object.prototype], each with its contents: the staging directory of a
    registered session is never removed, also when it holds no chunk, an
    entry named [constructor] is kept although no session has that id, and
    every other entry is removed, a file that multer has just stored
    included.  The registry and the archive are as before, and a second
    sweep changes nothing. *)
Theorem sweep_keeps_exactly_the_names_uploadStatus_has (σ : server) :
  (∀ k, temp (cleanupOrphanedTempDirs σ) !! k
        = if bool_decide (is_Some (uploadStatus σ !! k) ∨ k ∈ object_prototype_names)
          then temp σ !! k else None)
  ∧ uploadStatus (cleanupOrphanedTempDirs σ) = uploadStatus σ
  ∧ uploads (cleanupOrphanedTempDirs σ) = uploads σ
  ∧ cleanupOrphanedTempDirs (cleanupOrphanedTempDirs σ) = cleanupOrphanedTempDirs σ.
Proof.
  assert (∀ σ k, temp (cleanupOrphanedTempDirs σ) !! k
                 = if bool_decide (is_Some (uploadStatus σ !! k)
                                   ∨ k ∈ object_prototype_names)
                   then temp σ !! k else None) as Hlook.
  { intros σ0 k. unfold cleanupOrphanedTempDirs. simpl.
    rewrite (sweep_fold_lookup (λ dir, truthy (status_of σ0 dir))).
    rewrite truthy_status_of.
    destruct (bool_decide (_ ∨ _)); simpl; [by rewrite andb_false_r|].
    rewrite andb_true_r. case_bool_decide as Hk; [done|].
    rewrite elem_of_readdirSync in Hk. by apply eq_None_not_Some. }
  split; [apply Hlook|]. split; [done|]. split; [done|].
  assert (temp (cleanupOrphanedTempDirs (cleanupOrphanedTempDirs σ))
          = temp (cleanupOrphanedTempDirs σ)) as Ht.
  { apply map_eq. intros k. rewrite !Hlook. simpl.
    by destruct (bool_decide (_ ∨ _)). }
  by apply server_eq.
Qed.

(** ** Cancelling twice *)

Lemma handleRequestCancel_twice (req : chunk_req) (σ : server) :
  handleRequestCancel req (handleRequestCancel req σ) = handleRequestCancel req σ.
Proof.
  set (σ1 := handleRequestCancel req σ).
  assert (∀ p b, req_file req = Some p → temp σ1 !! p ≠ Some (File b)) as Hgone.
  { intros p b Hp. subst σ1. unfold handleRequestCancel. rewrite Hp.
    assert (match temp σ !! p with
            | Some (File _) => delete p (temp σ)
            | _ => temp σ
            end !! p ≠ Some (File b)) as Ht1.
    { destruct (temp σ !! p) as [[b'|d]|] eqn:E; [|by rewrite E..].
      by rewrite lookup_delete_eq. }
    destruct (_ && _); simpl; [|done].
    intros Hd. apply lookup_delete_Some in Hd as [_ Hd]. done. }
  assert (match req_file req with
          | Some p =>
              match temp σ1 !! p with
              | Some (File _) => delete p (temp σ1)
              | _ => temp σ1
              end
          | None => temp σ1
          end = temp σ1) as Ht.
  { destruct (req_file req) as [p|]; [|done].
    destruct (temp σ1 !! p) as [[b|d]|] eqn:E; [|done..].
    by destruct (Hgone p b eq_refl). }
  assert (bool_decide (req_uploadId req ≠ EmptyString)
          && truthy (status_of σ (req_uploadId req)) = true →
          temp σ1 !! req_uploadId req = None
          ∧ uploadStatus σ1 = delete (req_uploadId req) (uploadStatus σ)) as Hdone.
  { intros Hlive. subst σ1. unfold handleRequestCancel. rewrite Hlive. simpl.
    split; [apply lookup_delete_eq|done]. }
  assert (bool_decide (req_uploadId req ≠ EmptyString)
          && truthy (status_of σ (req_uploadId req)) = false →
          uploadStatus σ1 = uploadStatus σ) as Hkept.
  { intros Hdead. subst σ1. unfold handleRequestCancel. by rewrite Hdead. }
  clearbody σ1. unfold handleRequestCancel at 1. rewrite Ht.
  destruct (bool_decide (req_uploadId req ≠ EmptyString)
            && truthy (status_of σ1 (req_uploadId req))) eqn:Hlive1;
    [|by rewrite set_temp_id].
  destruct (bool_decide (req_uploadId req ≠ EmptyString)
            && truthy (status_of σ (req_uploadId req))) eqn:Hlive.
  - destruct (Hdone eq_refl) as [Hnone Hreg].
    apply server_eq; simpl; [by apply delete_id|done|].
    apply delete_id. rewrite Hreg. apply lookup_delete_eq.
  - pose proof (Hkept eq_refl) as Hreg.
    rewrite (status_of_ext σ) in Hlive1 by by rewrite Hreg. congruence.
Qed.

(** X6.  [handleRequestCancel] never touches the archive, and it is
    idempotent: a second call for the same request finds nothing left to
    remove.  When the request names a registered session, the record and
    whatever was at the path of the staging directory are gone afterwards.
    When it names no session (and no property of [Object.prototype]), the
    registry is unchanged and nothing but the file of the request is
    removed from [TEMP_DIR]: a directory without a session stays. *)
Theorem request_cancel_twice (req : chunk_req) (σ : server) :
  handleRequestCancel req (handleRequestCancel req σ) = handleRequestCancel req σ
  ∧ uploads (handleRequestCancel req σ) = uploads σ
  ∧ (req_uploadId req ≠ EmptyString →
     is_Some (uploadStatus σ !! req_uploadId req) →
     uploadStatus (handleRequestCancel req σ) !! req_uploadId req = None
     ∧ temp (handleRequestCancel req σ) !! req_uploadId req = None)
  ∧ (uploadStatus σ !! req_uploadId req = None →
     req_uploadId req ∉ object_prototype_names →
     uploadStatus (handleRequestCancel req σ) = uploadStatus σ
     ∧ ∀ k, req_file req ≠ Some k →
            temp (handleRequestCancel req σ) !! k = temp σ !! k).
Proof.
  split; [apply handleRequestCancel_twice|].
  split; [unfold handleRequestCancel; by destruct (_ && _)|]. split.
  - intros Hne [s Hs]. unfold handleRequestCancel.
    rewrite (status_of_Own _ _ _ Hs), bool_decide_eq_true_2 by done. simpl.
    split; apply lookup_delete_eq.
  - intros Hnone Hname. unfold handleRequestCancel.
    rewrite (status_of_Undefined _ _ Hnone Hname), andb_false_r. simpl.
    split; [done|]. intros k Hk.
    destruct (req_file req) as [p|]; [|done].
    destruct (temp σ !! p) as [[b|d]|]; [|done..].
    apply lookup_delete_ne. congruence.
Qed.

(** ** After the merge *)

Lemma writeNextChunk_NaN (d : gmap string bytes) (fault : option stream_fault)
    (fuel c : nat) (out out' : bytes) (r : settled) :
  writeNextChunk fuel JNaN d fault c out = Some (r, out') → r ≠ Resolved.
Proof.
  revert c out. induction fuel as [|fuel IH]; intros c out; simpl; [done|].
  destruct (d !! chunk_name c); [|by intros [= <- _]].
  destruct (noticed_at fault c); [by intros [= <- _]|]. apply IH.
Qed.

Lemma merge_route_ok_state (σ σ' : server) (id fileName fileHash name : string)
    (fault : option stream_fault) :
  Server.merge_route extname id fileName fileHash fault σ = Some (MergeOk name, σ') →
  name = fileHash +:+ extname fileName
  ∧ is_Some (uploadStatus σ !! id)
  ∧ uploadStatus σ' = delete id (uploadStatus σ)
  ∧ temp σ' = delete id (temp σ)
  ∧ ∃ out, uploads σ' = <[name := out]> (uploads σ).
Proof.
  unfold Server.merge_route. simpl.
  destruct (status_of σ id) as [s| |] eqn:Hst; simpl; [| |done].
  - apply status_of_Own_inv in Hst as Hs.
    destruct (loop_bound _); [|done].
    case_bool_decide; [done|].
    destruct (mergeChunks _ _ _ _ _ _) as [[r ups]|] eqn:E; [|done]. simpl.
    unfold mergeChunks in E.
    destruct (ensureDir_is_Some id (temp σ)) as [e He]. rewrite He in E.
    destruct (writeNextChunk _ _ _ _ _ _) as [[r' out]|]; [|done].
    simpl in E. injection E as -> <-.
    destruct r; [|done]. rewrite He.
    rewrite bool_decide_eq_true_2 by by eexists.
    intros [= <- <-]. simpl. repeat split; [by eexists| |by eexists].
    unfold ensureDir. destruct (temp σ !! id) eqn:Ht; [done|].
    by rewrite delete_insert_eq, delete_id.
  - destruct (mergeChunks _ _ _ _ _ _) as [[r ups]|] eqn:E; [|done]. simpl.
    unfold mergeChunks in E.
    destruct (ensureDir id (temp σ) !! id); [|by simplify_eq].
    destruct (writeNextChunk _ _ _ _ _ _) as [[r' out]|] eqn:Hw; [|done].
    simpl in E. injection E as -> <-.
    apply writeNextChunk_NaN in Hw. by destruct r.
Qed.

(** X7.  The merge is one-shot: after the merge route has answered with
    success for an upload id (a uuid, which names no property of
    [Object.prototype]), the session and its staging directory are gone, so
    a second merge, a progress query and a further chunk for the same
    upload id are all answered with 404, while the archive keeps the merged
    file. *)
Theorem merged_session_is_gone (σ σ' : server) (id fileName fileHash name : string)
    (fault : option stream_fault) :
  id ∉ object_prototype_names →
  Server.merge_route extname id fileName fileHash fault σ = Some (MergeOk name, σ') →
  uploadStatus σ' !! id = None
  ∧ temp σ' !! id = None
  ∧ is_Some (uploads σ' !! name)
  ∧ (∀ fileName' fileHash' fault',
       Server.merge_route extname id fileName' fileHash' fault' σ'
       = Some (MergeNotFound, σ'))
  ∧ progress_route id σ' = Some None
  ∧ (∀ chunkIndex name' b, (chunk_route id chunkIndex name' b σ').1 = ChunkNotFound).
Proof.
  intros Hname Hm.
  apply merge_route_ok_state in Hm as (_ & _ & Hreg & Ht & out & Hup).
  assert (uploadStatus σ' !! id = None) as Hnone
    by (rewrite Hreg; apply lookup_delete_eq).
  split; [done|]. split; [rewrite Ht; apply lookup_delete_eq|].
  split; [rewrite Hup, lookup_insert_eq; by eexists|].
  split; [|split].
  - intros. unfold Server.merge_route.
    by rewrite (status_of_Undefined _ _ Hnone Hname).
  - unfold progress_route. by rewrite (status_of_Undefined _ _ Hnone Hname).
  - intros. unfold chunk_route, chunk_handler, multer_single. simpl.
    rewrite (status_of_ext σ') by done.
    by rewrite (status_of_Undefined _ _ Hnone Hname).
Qed.

(** ** [init]: which hashes count as archived *)

(** X8.  [checkFileExists] compares with [startsWith]: [init] treats a hash
    as archived as soon as some archive name starts with it, so a hash that
    is a proper prefix of an archived one (the empty string is a prefix of
    every name) is answered with the path of that other file, and no
    session is opened. *)
Theorem init_with_a_prefix_of_an_archived_name (σ : server)
    (uuid fileName : string) (fileSize chunkSize : Z) (fileHash archived : string) :
  is_Some (uploads σ !! archived) →
  String.prefix fileHash archived = true →
  ∃ file,
    Server.init_route UPLOAD_DIR uuid fileName fileSize chunkSize fileHash σ
    = (InitExists (path_join UPLOAD_DIR file), σ)
    ∧ is_Some (uploads σ !! file)
    ∧ String.prefix fileHash file = true.
Proof.
  intros Hin Hp. unfold Server.init_route.
  destruct (checkFileExists UPLOAD_DIR fileHash σ) as [path|] eqn:E.
  - apply checkFileExists_Some in E as (file & -> & Hf & Hpf). by exists file.
  - pose proof (proj1 (checkFileExists_None _ _ _) E _ Hin). congruence.
Qed.

(** ** Sessions with no chunk or no chunk count *)

Lemma ceil_div_0_pos (c : Z) : (0 < c)%Z → ceil_div 0 c = JFin 0.
Proof.
  intros Hc. unfold ceil_div. rewrite (proj2 (Z.eqb_neq c 0)) by lia.
  simpl. rewrite Z.div_0_l by lia. simpl.
  by rewrite (proj2 (Z.ltb_ge c 0)) by lia.
Qed.

Lemma init_route_created (σ σ' : server) (uuid fileName : string)
    (fileSize chunkSize : Z) (fileHash : string) :
  Server.init_route UPLOAD_DIR uuid fileName fileSize chunkSize fileHash σ
  = (InitCreated uuid, σ') →
  uploadStatus σ' !! uuid
  = Some {| fileName := fileName; fileSize := fileSize; chunkSize := chunkSize;
            fileHash := fileHash; totalChunks := ceil_div fileSize chunkSize;
            uploadedChunks := [] |}
  ∧ uploads σ' = uploads σ
  ∧ (∀ f, is_Some (uploads σ !! f) → String.prefix fileHash f = false)
  ∧ ∃ d, temp σ' !! uuid = Some (Dir d) ∧ (temp σ !! uuid = None → d = ∅).
Proof.
  unfold Server.init_route.
  destruct (checkFileExists _ _ _) eqn:E; [done|].
  unfold mkdirSync. destruct (temp σ !! uuid) as [[b|d]|] eqn:Ht; [done|..];
    intros [= <-]; simpl; rewrite ?lookup_insert_eq;
    (split; [done|]); (split; [done|]);
    (split; [exact (proj1 (checkFileExists_None UPLOAD_DIR fileHash σ) E)|]).
  - exists d. by split.
  - exists ∅. by split.
Qed.

(** X9.  An empty file needs no chunk: for a session that [init] opened
    with [fileSize = 0] and a positive chunk size, the merge right after
    [init] succeeds and archives an empty file under [fileHash + ext]; the
    session is then gone. *)
Theorem empty_file_merges_without_chunks (σ σ1 : server)
    (uuid fileName : string) (chunkSize : Z) (fileHash : string) :
  (0 < chunkSize)%Z →
  Server.init_route UPLOAD_DIR uuid fileName 0 chunkSize fileHash σ
  = (InitCreated uuid, σ1) →
  ∃ σ2,
    Server.merge_route extname uuid fileName fileHash None σ1
    = Some (MergeOk (fileHash +:+ extname fileName), σ2)
    ∧ uploads σ2 !! (fileHash +:+ extname fileName) = Some []
    ∧ uploadStatus σ2 !! uuid = None.
Proof.
  intros Hc Hinit. apply init_route_created in Hinit as (Hs & _).
  rewrite ceil_div_0_pos in Hs by done.
  rewrite (merge_route_staged extname σ1 uuid _ 0 [] fileName fileHash None Hs);
    [|done|done|by intros i b ?].
  eexists. split; [reflexivity|]. simpl.
  rewrite lookup_insert_eq, lookup_delete_eq. done.
Qed.

(** X10.  A chunk size of zero gives a session that cannot be completed.
    With a positive file size the chunk count is infinite: the handler of
    the progress route throws while it collects the missing indices, and so
    does the handler of the merge route, before its [try], so that it sends
    no answer; the session stays as it is.  With a file size of zero the
    chunk count is [NaN], and every merge is answered with 500 and leaves
    the session registered. *)
Theorem zero_chunk_size_session_never_merges (σ σ1 : server)
    (uuid fileName : string) (fileSize : Z) (fileHash : string)
    (fileName' fileHash' : string) (fault : option stream_fault) :
  (0 ≤ fileSize)%Z →
  Server.init_route UPLOAD_DIR uuid fileName fileSize 0 fileHash σ
  = (InitCreated uuid, σ1) →
  ((0 < fileSize)%Z →
   progress_route uuid σ1 = None
   ∧ Server.merge_route extname uuid fileName' fileHash' fault σ1
     = Some (MergeThrown, σ1))
  ∧ (fileSize = 0%Z →
     ∃ e σ2,
       Server.merge_route extname uuid fileName' fileHash' fault σ1
       = Some (MergeFailed e, σ2)
       ∧ is_Some (uploadStatus σ2 !! uuid)).
Proof.
  intros Hfs Hinit. apply init_route_created in Hinit as (Hs & _ & _ & d & Hd & _).
  unfold progress_route, Server.merge_route.
  rewrite (status_of_Own _ _ _ Hs). simpl. split.
  - intros Hpos. unfold ceil_div. simpl.
    rewrite (proj2 (Z.ltb_lt 0 fileSize)) by done. simpl.
    split; [done|]. rewrite ensureDir_id by by eexists. by rewrite set_temp_id.
  - intros ->. simpl. change (ceil_div 0 0) with JNaN. simpl.
    destruct (mergeChunks_settles (ensureDir uuid (temp σ1)) uuid JNaN fault
                (fileHash' +:+ extname fileName') (uploads σ1)) as [[r ups] Hm].
    rewrite Hm. simpl. destruct r as [|e].
    + unfold mergeChunks in Hm.
      destruct (ensureDir uuid (temp σ1) !! uuid); [|by simplify_eq].
      destruct (writeNextChunk _ _ _ _ _ _) as [[r out]|] eqn:Hw; [|done].
      simpl in Hm. injection Hm as -> _.
      by apply writeNextChunk_NaN in Hw.
    + eexists _, _. split; [reflexivity|]. simpl. rewrite Hs. by eexists.
Qed.

(** ** Upload ids that name a property of [Object.prototype] *)


(** ** The two variants of the server *)

(** X11.  When no file is in the way of the staging directory, the two
    variants of [init] do the same.  For an upload id that names no
    property of [Object.prototype], the two chunk routes give the same
    answer, and the same state unless storing the chunk fails: then the
    first variant removes the session, while the second leaves everything
    but the file multer has stored as it was. *)
Theorem variants_agree_on_init_and_chunk (σ : server) (uuid fileName : string)
    (fileSize chunkSize : Z) (fileHash : string)
    (id chunkIndex name : string) (b : bytes) :
  (∀ b', temp σ !! uuid ≠ Some (File b')) →
  id ∉ object_prototype_names →
  Server2.init_route UPLOAD_DIR uuid fileName fileSize chunkSize fileHash σ
  = Server.init_route UPLOAD_DIR uuid fileName fileSize chunkSize fileHash σ
  ∧ Server2.chunk_route id chunkIndex name b σ
    = ((Server.chunk_route id chunkIndex name b σ).1,
       match (Server.chunk_route id chunkIndex name b σ).1 with
       | ChunkFailed => multer_single name b σ
       | _ => (Server.chunk_route id chunkIndex name b σ).2
       end).
Proof.
  intros Hfile Hname. split.
  - unfold Server2.init_route, Server.init_route.
    destruct (checkFileExists _ _ _); [done|].
    unfold mkdirSync, ensureDir.
    destruct (temp σ !! uuid) as [[b'|d]|] eqn:E; [by destruct (Hfile b')|done..].
  - unfold Server2.chunk_route, Server.chunk_route, Server2.chunk_handler,
      Server.chunk_handler. simpl.
    unfold status_of. simpl.
    destruct (uploadStatus σ !! id).
    + by destruct (renameSync _ _ _ _).
    + by rewrite bool_decide_eq_false_2.
Qed.

(** X12.  When the staging directory exists, the merge routes of the two
    variants give the same answer and leave the same state. *)
Theorem variants_agree_on_merge (σ : server) (id fileName fileHash : string)
    (fault : option stream_fault) :
  is_Some (temp σ !! id) →
  Server2.merge_route extname id fileName fileHash fault σ
  = prod_map Server2.Merge (λ σ' : server, σ')
      <$> Server.merge_route extname id fileName fileHash fault σ.
Proof.
  intros Hdir. unfold Server2.merge_route, Server.merge_route. simpl.
  destruct (negb _); [done|].
  rewrite (ensureDir_id _ _ Hdir). destruct Hdir as [e He]. rewrite He.
  destruct (loop_bound _); [|by rewrite set_temp_id].
  case_bool_decide; [by rewrite set_temp_id|].
  by destruct (mergeChunks _ _ _ _ _ _) as [[[|e'] ups]|].
Qed.


End server_extras.

(** * The file, cut into chunks and put together again *)

(** ** [_prepareChunks] *)

Lemma prepareChunks_from_lookup (chunkSize fileSize : Z) (fuel : nat)
    (start : Z) (i j : nat) (c : Client.chunk) :
  (0 ≤ chunkSize)%Z →
  Client.prepareChunks_from fuel chunkSize fileSize start i !! j = Some c →
  Client.index c = i + j
  ∧ Client.c_start c = (start + Z.of_nat j * chunkSize)%Z
  ∧ Client.c_end c = Z.min (start + (Z.of_nat j + 1) * chunkSize) fileSize
  ∧ (Client.c_start c < fileSize)%Z.
Proof.
  intros Hcs.
  revert start i j. induction fuel as [|fuel IH]; intros start i j; simpl; [done|].
  destruct (Z.ltb_spec start fileSize) as [Hlt|]; [|done].
  destruct j as [|j]; simpl.
  - intros [= <-]. simpl. repeat split; [lia|lia|f_equal; lia|done].
  - intros Hc. apply IH in Hc as (Hi & Hs & He & Hb).
    assert (0 ≤ Z.of_nat j * chunkSize)%Z by nia.
    assert (Z.min (start + chunkSize) fileSize = start + chunkSize)%Z as Hmin by lia.
    rewrite Hmin in Hs, He. repeat split; [lia|lia| |done].
    rewrite He. f_equal. lia.
Qed.

Lemma ceil_div_nonneg (a c : Z) :
  (0 ≤ a)%Z → (0 < c)%Z → ceil_div a c = JFin (- (- a / c)).
Proof.
  intros Ha Hc. unfold ceil_div. rewrite (proj2 (Z.eqb_neq c 0)) by lia.
  rewrite (proj2 (Z.ltb_ge (a * c) 0)) by nia.
  rewrite (proj2 (Z.ltb_ge c 0)) by lia.
  by rewrite andb_false_r, andb_false_r.
Qed.

Lemma prepareChunks_from_length (chunkSize fileSize : Z) (fuel : nat)
    (start : Z) (i : nat) :
  (1 ≤ chunkSize)%Z → (start ≤ fileSize)%Z → (fileSize - start ≤ Z.of_nat fuel)%Z →
  (- (- (fileSize - start) / chunkSize))%Z
  = Z.of_nat (length (Client.prepareChunks_from fuel chunkSize fileSize start i)).
Proof.
  intros Hc. revert start i. induction fuel as [|fuel IH]; intros start i Hs Hf.
  - simpl. replace (fileSize - start)%Z with 0%Z by lia. done.
  - simpl. destruct (Z.ltb_spec start fileSize) as [Hlt|Hge].
    + simpl length. rewrite Nat2Z.inj_succ, <- IH by lia.
      destruct (Z.le_gt_cases (start + chunkSize) fileSize) as [Hle|Hgt].
      * rewrite Z.min_l by lia.
        replace (- (fileSize - (start + chunkSize)))%Z
          with (- (fileSize - start) + 1 * chunkSize)%Z by lia.
        rewrite Z.div_add by lia. lia.
      * rewrite Z.min_r by lia.
        replace (fileSize - fileSize)%Z with 0%Z by lia. simpl.
        rewrite <- (Z.div_unique (- (fileSize - start)) chunkSize (-1)
                      (chunkSize - (fileSize - start))) by lia.
        done.
    + replace (fileSize - start)%Z with 0%Z by lia. done.
Qed.

(** ** [file.slice] and the chunks of a file *)

Lemma slice_in_range (file : bytes) (start end_ : Z) :
  (0 ≤ start ≤ end_)%Z → (end_ ≤ Z.of_nat (length file))%Z →
  slice file start end_
  = take (Z.to_nat end_ - Z.to_nat start) (drop (Z.to_nat start) file).
Proof.
  intros Hs He. unfold slice.
  rewrite (proj2 (Z.ltb_ge start 0)), (proj2 (Z.ltb_ge end_ 0)) by lia.
  rewrite !Z.min_l by lia. f_equal. lia.
Qed.

Lemma concat_blobs_from (file : bytes) (chunkSize : Z) (fuel : nat)
    (start : Z) (i : nat) :
  (1 ≤ chunkSize)%Z → (0 ≤ start)%Z →
  (Z.of_nat (length file) - start ≤ Z.of_nat fuel)%Z →
  concat (blob file
            <$> Client.prepareChunks_from fuel chunkSize (Z.of_nat (length file))
                  start i)
  = drop (Z.to_nat start) file.
Proof.
  intros Hc. revert start i. induction fuel as [|fuel IH]; intros start i Hs Hf.
  - simpl. rewrite drop_ge; [done|lia].
  - simpl. destruct (Z.ltb_spec start (Z.of_nat (length file))) as [Hlt|Hge].
    + simpl. rewrite IH by lia. unfold blob. simpl.
      rewrite slice_in_range by lia.
      set (e := Z.min (start + chunkSize) (Z.of_nat (length file))).
      replace (Z.to_nat e) with (Z.to_nat start + (Z.to_nat e - Z.to_nat start))
        at 2 by lia.
      rewrite <- drop_drop. apply take_drop.
    + simpl. rewrite drop_ge; [done|lia].
Qed.

Lemma chunks_tile_the_file_aux (file : bytes) (chunkSize : Z) :
  (1 ≤ chunkSize)%Z →
  ceil_div (Z.of_nat (length file)) chunkSize
  = JFin (Z.of_nat (length (file_chunks file chunkSize)))
  ∧ concat (blob file <$> file_chunks file chunkSize) = file.
Proof.
  intros Hc. unfold file_chunks, Client._prepareChunks. split.
  - rewrite ceil_div_nonneg by lia. f_equal.
    rewrite <- (prepareChunks_from_length chunkSize _ _ 0 0) by lia.
    by rewrite Z.sub_0_r.
  - rewrite concat_blobs_from by lia. done.
Qed.

Section transfer.

Variable UPLOAD_DIR : string.
Variable extname : string → string.

(** X13.  For a chunk size of at least one byte, [_prepareChunks] cuts the
    file into the chunks the server counts: their number is the
    [totalChunks] that [init] computes from the same two sizes, chunk [j]
    has index [j] and covers the bytes from [j * chunkSize] up to
    [min((j + 1) * chunkSize, size)], no chunk is empty, and the blobs in
    index order make up the file. *)
Theorem chunks_tile_the_file (file : bytes) (chunkSize : Z) :
  (1 ≤ chunkSize)%Z →
  ceil_div (Z.of_nat (length file)) chunkSize
  = JFin (Z.of_nat (length (file_chunks file chunkSize)))
  ∧ (∀ j c, file_chunks file chunkSize !! j = Some c →
            Client.index c = j
            ∧ Client.c_start c = (Z.of_nat j * chunkSize)%Z
            ∧ Client.c_end c
              = Z.min ((Z.of_nat j + 1) * chunkSize) (Z.of_nat (length file))
            ∧ (Client.c_start c < Client.c_end c)%Z)
  ∧ concat (blob file <$> file_chunks file chunkSize) = file.
Proof.
  intros Hc. destruct (chunks_tile_the_file_aux file chunkSize Hc) as [Hn Hcat].
  split; [done|]. split; [|done].
  unfold file_chunks, Client._prepareChunks.
  intros j c Hj.
  apply prepareChunks_from_lookup in Hj as (Hi & Hs & He & Hb); [|lia].
  assert (0 ≤ Z.of_nat j * chunkSize)%Z by nia.
  split; [lia|]. split; [lia|]. split; [rewrite He; f_equal; lia|].
  rewrite He. lia.
Qed.

(** The recorded indices after a sequence of acknowledged uploads. *)
Lemma upload_chunks_recorded (id : string) (l : list (nat * string * bytes))
    (σ σ' : server) (s : session) :
  uploadStatus σ !! id = Some s →
  upload_chunks id l σ = Some σ' →
  ∃ s',
    uploadStatus σ' !! id = Some s'
    ∧ totalChunks s' = totalChunks s
    ∧ (NoDup (uploadedChunks s) → NoDup (uploadedChunks s'))
    ∧ ∀ x, x ∈ uploadedChunks s'
           ↔ x ∈ uploadedChunks s ∨ ∃ k, k ∈ l.*1.*1 ∧ x = Some (Z.of_nat k).
Proof.
  revert σ s. induction l as [|[[k name] b] l IH]; intros σ s Hs; simpl.
  - intros [= <-]. exists s. repeat split; [done..| |].
    + by left.
    + intros [?|(k & Hk & _)]; [done|]. by apply elem_of_nil in Hk.
  - destruct (chunk_route id (pretty k) name b σ) as [[| |] σ1] eqn:Hroute;
      [|done..].
    apply chunk_route_ok in Hroute as (s0 & Hs0 & Hreg & _).
    assert (s0 = s) as -> by congruence. intros Hrest.
    destruct (IH σ1 (record_chunk (parseInt (pretty k)) s)) as (s' & Hs' & Ht & Hnd & Hin);
      [by rewrite Hreg, lookup_insert_eq | done |].
    exists s'. split; [done|]. split; [done|]. split.
    + intros H0. by apply Hnd, record_chunk_NoDup.
    + intros x. rewrite Hin, record_chunk_elem_of, parseInt_pretty. split.
      * intros [[?| ->]|(k' & Hk' & ->)]; [by left| |].
        -- right. exists k. split; [left|done].
        -- right. exists k'. split; [by right|done].
      * intros [?|(k' & Hk' & ->)]; [by left; left|].
        apply elem_of_cons in Hk' as [->|Hk']; [by left; right|].
        right. by exists k'.
Qed.

Lemma chunk_uploads_data (file : bytes) (chunkSize : Z) (names : nat → string)
    (l : list (nat * string * bytes)) :
  (1 ≤ chunkSize)%Z →
  l ≡ₚ chunk_uploads file chunkSize names →
  (∀ k name b, (k, name, b) ∈ l →
               (blob file <$> file_chunks file chunkSize) !! k = Some b)
  ∧ (∀ k, k ∈ l.*1.*1 ↔ k < length (file_chunks file chunkSize)).
Proof.
  intros Hc Hl.
  assert (∀ j c, file_chunks file chunkSize !! j = Some c → Client.index c = j)
    as Hidx.
  { intros j c Hj. unfold file_chunks, Client._prepareChunks in Hj.
    by apply prepareChunks_from_lookup in Hj as (-> & _); [|lia]. }
  split.
  - intros k name b Hin. rewrite Hl in Hin. unfold chunk_uploads in Hin.
    apply list_elem_of_fmap in Hin as (c & [= -> -> ->] & Hcin).
    apply list_elem_of_lookup in Hcin as [j Hj].
    rewrite (Hidx j c Hj). by rewrite list_lookup_fmap, Hj.
  - intros k. rewrite Hl. unfold chunk_uploads. rewrite <- !list_fmap_compose.
    rewrite list_elem_of_fmap. split.
    + intros (c & -> & Hcin). apply list_elem_of_lookup in Hcin as [j Hj].
      simpl. rewrite (Hidx j c Hj). by apply lookup_lt_Some in Hj.
    + intros Hk. apply lookup_lt_is_Some_2 in Hk as [c Hk].
      exists c. split; [simpl; by rewrite (Hidx k c Hk)|].
      by apply list_elem_of_lookup_2 in Hk.
Qed.

(** X14.  The whole upload gives the file back.  For a chunk size of at
    least one byte, a session that [init] opens for the size of the file,
    and the chunks of the file as the client cuts and labels them, uploaded
    in any order and each acknowledged: the merge succeeds, and the archive
    file it names holds exactly the bytes of the file. *)
Theorem upload_and_merge_return_the_file (σ σ1 σ2 : server) (file : bytes)
    (chunkSize : Z) (uuid fileName fileHash : string) (names : nat → string)
    (l : list (nat * string * bytes)) :
  (1 ≤ chunkSize)%Z →
  Server.init_route UPLOAD_DIR uuid fileName (Z.of_nat (length file)) chunkSize
    fileHash σ = (InitCreated uuid, σ1) →
  l ≡ₚ chunk_uploads file chunkSize names →
  upload_chunks uuid l σ1 = Some σ2 →
  ∃ σ3,
    Server.merge_route extname uuid fileName fileHash None σ2
    = Some (MergeOk (fileHash +:+ extname fileName), σ3)
    ∧ uploads σ3 !! (fileHash +:+ extname fileName) = Some file
    ∧ uploadStatus σ3 !! uuid = None.
Proof.
  intros Hc Hinit Hl Hup.
  apply init_route_created in Hinit as (Hs & _).
  destruct (chunks_tile_the_file_aux file chunkSize Hc) as (Hn & Hcat).
  destruct (chunk_uploads_data file chunkSize names l Hc Hl) as [Hdata Hall].
  destruct (upload_chunks_staged uuid (blob file <$> file_chunks file chunkSize)
              l σ1 σ2 _ Hs Hup Hdata) as [(s' & Hs' & Ht) Hd].
  { intros k b Hk. right. apply Hall. apply lookup_lt_Some in Hk.
    by rewrite length_fmap in Hk. }
  simpl in Ht. rewrite Hn in Ht.
  rewrite (merge_route_staged extname σ2 uuid s'
             (Z.of_nat (length (file_chunks file chunkSize)))
             (blob file <$> file_chunks file chunkSize)
             fileName fileHash None Hs' Ht);
    [|rewrite length_fmap; lia|done].
  eexists. split; [reflexivity|]. simpl.
  rewrite lookup_insert_eq, lookup_delete_eq, drop_0, Hcat. done.
Qed.

Lemma round_pct_all (n : nat) : 0 < n → round_pct n (JFin (Z.of_nat n)) = JFin 100.
Proof.
  intros Hn. unfold round_pct. rewrite (proj2 (Z.eqb_neq _ 0)) by lia.
  replace (200 * Z.of_nat n + Z.of_nat n)%Z with (201 * Z.of_nat n)%Z by lia.
  rewrite Z.div_mul_cancel_r by lia.
  by rewrite (proj2 (Z.ltb_ge (Z.of_nat n) 0)) by lia.
Qed.

(** X15.  Once every chunk of a non-empty file has been acknowledged, in
    whatever order, the progress route reports every index as uploaded,
    none as missing, and 100 percent. *)
Theorem progress_is_complete_after_all_chunks (σ σ1 σ2 : server) (file : bytes)
    (chunkSize : Z) (uuid fileName fileHash : string) (names : nat → string)
    (l : list (nat * string * bytes)) :
  (1 ≤ chunkSize)%Z →
  file ≠ [] →
  Server.init_route UPLOAD_DIR uuid fileName (Z.of_nat (length file)) chunkSize
    fileHash σ = (InitCreated uuid, σ1) →
  l ≡ₚ chunk_uploads file chunkSize names →
  upload_chunks uuid l σ1 = Some σ2 →
  ∃ body,
    progress_route uuid σ2 = Some (Some body)
    ∧ progress body = JFin 100
    ∧ missingChunks body = []
    ∧ body_totalChunks body = JFin (Z.of_nat (length (file_chunks file chunkSize)))
    ∧ NoDup (body_uploadedChunks body)
    ∧ (∀ x, x ∈ body_uploadedChunks body
            ↔ ∃ k, k < length (file_chunks file chunkSize) ∧ x = Some (Z.of_nat k)).
Proof.
  intros Hc Hfile Hinit Hl Hup.
  apply init_route_created in Hinit as (Hs & _).
  destruct (chunks_tile_the_file_aux file chunkSize Hc) as (Hn & Hcat).
  destruct (chunk_uploads_data file chunkSize names l Hc Hl) as [_ Hall].
  destruct (upload_chunks_recorded uuid l σ1 σ2 _ Hs Hup)
    as (s' & Hs' & Ht & Hnd & Hin).
  simpl in Ht, Hnd, Hin. rewrite Hn in Ht. specialize (Hnd (NoDup_nil_2)).
  set (n := length (file_chunks file chunkSize)) in *.
  assert (0 < n) as Hpos.
  { subst n. destruct (file_chunks file chunkSize); [|simpl; lia].
    simpl in Hcat. congruence. }
  assert (∀ x, x ∈ uploadedChunks s' ↔ ∃ k, k < n ∧ x = Some (Z.of_nat k)) as Hrec.
  { intros x. rewrite Hin. split.
    - intros [H0|(k & Hk & ->)]; [by apply elem_of_nil in H0|].
      exists k. split; [by apply Hall|done].
    - intros (k & Hk & ->). right. exists k. split; [by apply Hall|done]. }
  assert (List.filter (λ i, bool_decide (Some (Z.of_nat i) ∉ uploadedChunks s'))
            (seq 0 n) = []) as Hmiss.
  { destruct (List.filter _ _) as [|i rest] eqn:E; [done|].
    assert (In i (List.filter
                    (λ i, bool_decide (Some (Z.of_nat i) ∉ uploadedChunks s'))
                    (seq 0 n))) as Hi by (rewrite E; by left).
    apply filter_In in Hi as [Hi Hno]. apply bool_decide_eq_true in Hno.
    apply list_elem_of_In, elem_of_seq in Hi. destruct Hno. apply Hrec.
    exists i. split; [lia|done]. }
  pose proof (uploaded_and_missing (uploadedChunks s') n Hnd) as Hcount.
  rewrite Hmiss in Hcount. simpl in Hcount.
  unfold progress_route. rewrite (status_of_Own _ _ _ Hs'), Ht. simpl.
  rewrite Nat2Z.id.
  eexists. split; [reflexivity|]. simpl. rewrite Hmiss.
  split; [|done].
  rewrite Nat.add_0_r in Hcount. rewrite Hcount; [by apply round_pct_all|].
  intros x Hx. apply Hrec in Hx as (k & Hk & ->). by exists k.
Qed.

End transfer.

(** ** The further statements at the scenarios *)

Import Scenario2.

Example file3_chunks :
  chunk_uploads file3 2 names = [(0, "m0", chunk0); (1, "m1", chunk1)].
Proof. vm_compute. reflexivity. Qed.

Example run_opened : run upload_dir ext [init_u1] empty_server = Some opened.
Proof. vm_compute. reflexivity. Qed.

Example sweep_at_scenario :
  cleanupOrphanedTempDirs
    (multer_single "m1" chunk1
       {| temp := <["u9" := Dir {[ "0.part" := chunk0 ]}]> (temp opened);
          uploads := ∅;
          uploadStatus := uploadStatus opened |})
  = opened.
Proof. vm_compute. reflexivity. Qed.

Lemma acknowledged_chunk_is_staged_and_recorded_witness :
  ∃ s s',
    uploadStatus one_staged !! "u1" = Some s
    ∧ uploadStatus (chunk_route "u1" (pretty 1) "m1" chunk1 one_staged).2 !! "u1"
      = Some s'
    ∧ totalChunks s' = totalChunks s
    ∧ (∀ x, x ∈ uploadedChunks s' ↔ x ∈ uploadedChunks s ∨ x = Some (Z.of_nat 1))
    ∧ staging (temp (chunk_route "u1" (pretty 1) "m1" chunk1 one_staged).2) "u1"
      = <[chunk_name 1 := chunk1]> (staging (temp one_staged) "u1")
    ∧ (∀ id', id' ≠ "u1" →
              temp (chunk_route "u1" (pretty 1) "m1" chunk1 one_staged).2 !! id'
              = temp one_staged !! id')
    ∧ uploads (chunk_route "u1" (pretty 1) "m1" chunk1 one_staged).2
      = uploads one_staged
    ∧ (∀ id', id' ≠ "u1" →
              uploadStatus (chunk_route "u1" (pretty 1) "m1" chunk1 one_staged).2 !! id'
              = uploadStatus one_staged !! id').
Proof.
  apply (acknowledged_chunk_is_staged_and_recorded one_staged
           (chunk_route "u1" (pretty 1) "m1" chunk1 one_staged).2 "u1" 1 "m1" chunk1).
  - reflexivity.
  - vm_compute. reflexivity.
Defined.


Lemma unknown_session_is_not_found_witness :
  chunk_route "u7" "0" "m0" chunk0 opened
  = (ChunkNotFound, set_temp (<["m0" := File chunk0]> (temp opened)) opened)
  ∧ Server.merge_route ext "u7" "movie.bin" "abc" None opened
    = Some (MergeNotFound, opened)
  ∧ progress_route "u7" opened = Some None.
Proof.
  apply (unknown_session_is_not_found ext opened "u7" "0" "m0" chunk0
           "movie.bin" "abc" None).
  - reflexivity.
  - intros Hin. apply (bool_decide_pack _) in Hin. vm_compute in Hin. exact Hin.
Defined.


Lemma merged_session_is_gone_witness :
  uploadStatus archived !! "u1" = None
  ∧ temp archived !! "u1" = None
  ∧ is_Some (uploads archived !! "abc.bin")
  ∧ (∀ fileName' fileHash' fault',
       Server.merge_route ext "u1" fileName' fileHash' fault' archived
       = Some (MergeNotFound, archived))
  ∧ progress_route "u1" archived = Some None
  ∧ (∀ chunkIndex name' b, (chunk_route "u1" chunkIndex name' b archived).1
                           = ChunkNotFound).
Proof.
  apply (merged_session_is_gone ext both_staged archived "u1" "movie.bin" "abc"
           "abc.bin" None).
  - intros Hin. apply (bool_decide_pack _) in Hin. vm_compute in Hin. exact Hin.
  - vm_compute. reflexivity.
Defined.

Lemma init_with_a_prefix_of_an_archived_name_witness :
  ∃ file,
    Server.init_route upload_dir "u2" "other.bin" 9 2 "ab" archived
    = (InitExists (path_join upload_dir file), archived)
    ∧ is_Some (uploads archived !! file)
    ∧ String.prefix "ab" file = true.
Proof.
  apply (init_with_a_prefix_of_an_archived_name upload_dir archived
           "u2" "other.bin" 9 2 "ab" "abc.bin").
  - exists (chunk0 ++ chunk1). reflexivity.
  - reflexivity.
Defined.

Lemma empty_file_merges_without_chunks_witness :
  ∃ σ2,
    Server.merge_route ext "u3" "empty.bin" "e3b0" None
      (Server.init_route upload_dir "u3" "empty.bin" 0 5 "e3b0" empty_server).2
    = Some (MergeOk ("e3b0" +:+ ext "empty.bin"), σ2)
    ∧ uploads σ2 !! ("e3b0" +:+ ext "empty.bin") = Some []
    ∧ uploadStatus σ2 !! "u3" = None.
Proof.
  apply (empty_file_merges_without_chunks upload_dir ext empty_server
           (Server.init_route upload_dir "u3" "empty.bin" 0 5 "e3b0" empty_server).2
           "u3" "empty.bin" 5 "e3b0").
  - lia.
  - vm_compute. reflexivity.
Defined.

Lemma zero_chunk_size_session_never_merges_witness :
  ((0 < 3)%Z →
   progress_route "u1" unbounded = None
   ∧ Server.merge_route ext "u1" "movie.bin" "abc" None unbounded
     = Some (MergeThrown, unbounded))
  ∧ (3%Z = 0%Z →
     ∃ e σ2,
       Server.merge_route ext "u1" "movie.bin" "abc" None unbounded
       = Some (MergeFailed e, σ2)
       ∧ is_Some (uploadStatus σ2 !! "u1")).
Proof.
  apply (zero_chunk_size_session_never_merges upload_dir ext empty_server
           unbounded "u1" "movie.bin" 3 "abc" "movie.bin" "abc" None).
  - lia.
  - vm_compute. reflexivity.
Defined.


Example archived_file_is_emptied :
  uploads archived !! "abc.bin" = Some (chunk0 ++ chunk1)
  ∧ ∃ σ', Server.merge_route ext "constructor" "movie.bin" "abc" None archived
          = Some (MergeFailed (ChunkMissing 0), σ')
          ∧ uploads σ' !! "abc.bin" = Some [].
Proof.
  split; [reflexivity|]. eexists. split; [vm_compute; reflexivity|].
  vm_compute. reflexivity.
Qed.

(** For the upload id [constructor] the chunk routes of the two variants
    part: both answer 500, the first removes the directory, the second
    leaves the chunk file in it. *)
Example variants_differ_on_a_prototype_name :
  Server.chunk_route "constructor" "0" "m0" chunk0 orphan_dir
  = (ChunkFailed, empty_server)
  ∧ Server2.chunk_route "constructor" "0" "m0" chunk0 orphan_dir
    = (ChunkFailed,
       {| temp := {[ "constructor" := Dir {[ "0.part" := chunk0 ]} ]};
          uploads := ∅; uploadStatus := ∅ |}).
Proof. split; vm_compute; reflexivity. Qed.

(** The sweep keeps the directory [constructor] and removes a file multer
    has stored. *)
Example sweep_keeps_a_prototype_name :
  cleanupOrphanedTempDirs (multer_single "m0" chunk0 orphan_dir) = orphan_dir.
Proof. vm_compute. reflexivity. Qed.

Lemma variants_agree_on_init_and_chunk_witness :
  Server2.init_route upload_dir "u2" "other.bin" 9 2 "xyz" opened
  = Server.init_route upload_dir "u2" "other.bin" 9 2 "xyz" opened
  ∧ Server2.chunk_route "u1" "0" "m0" chunk0 opened
    = ((Server.chunk_route "u1" "0" "m0" chunk0 opened).1,
       match (Server.chunk_route "u1" "0" "m0" chunk0 opened).1 with
       | ChunkFailed => multer_single "m0" chunk0 opened
       | _ => (Server.chunk_route "u1" "0" "m0" chunk0 opened).2
       end).
Proof.
  apply (variants_agree_on_init_and_chunk upload_dir opened
           "u2" "other.bin" 9 2 "xyz" "u1" "0" "m0" chunk0).
  - intros b' Hb'. vm_compute in Hb'. discriminate.
  - intros Hin. apply (bool_decide_pack _) in Hin. vm_compute in Hin. exact Hin.
Defined.

Lemma variants_agree_on_merge_witness :
  Server2.merge_route ext "u1" "movie.bin" "abc" None both_staged
  = prod_map Server2.Merge (λ σ' : server, σ')
      <$> Server.merge_route ext "u1" "movie.bin" "abc" None both_staged.
Proof.
  apply (variants_agree_on_merge ext both_staged "u1" "movie.bin" "abc" None).
  by eexists.
Defined.


Lemma chunks_tile_the_file_witness :
  ceil_div (Z.of_nat (length file3)) 2
  = JFin (Z.of_nat (length (file_chunks file3 2)))
  ∧ (∀ j c, file_chunks file3 2 !! j = Some c →
            Client.index c = j
            ∧ Client.c_start c = (Z.of_nat j * 2)%Z
            ∧ Client.c_end c = Z.min ((Z.of_nat j + 1) * 2) (Z.of_nat (length file3))
            ∧ (Client.c_start c < Client.c_end c)%Z)
  ∧ concat (blob file3 <$> file_chunks file3 2) = file3.
Proof.
  apply (chunks_tile_the_file file3 2). lia.
Defined.

Lemma upload_and_merge_return_the_file_witness :
  ∃ σ3,
    Server.merge_route ext "u1" "movie.bin" "abc" None
      (default opened (upload_chunks "u1" uploads3 opened))
    = Some (MergeOk ("abc" +:+ ext "movie.bin"), σ3)
    ∧ uploads σ3 !! ("abc" +:+ ext "movie.bin") = Some file3
    ∧ uploadStatus σ3 !! "u1" = None.
Proof.
  apply (upload_and_merge_return_the_file upload_dir ext empty_server opened
           (default opened (upload_chunks "u1" uploads3 opened))
           file3 2 "u1" "movie.bin" "abc" names uploads3).
  - lia.
  - vm_compute. reflexivity.
  - rewrite file3_chunks. apply Permutation_swap.
  - vm_compute. reflexivity.
Defined.

Lemma progress_is_complete_after_all_chunks_witness :
  ∃ body,
    progress_route "u1" (default opened (upload_chunks "u1" uploads3 opened))
    = Some (Some body)
    ∧ progress body = JFin 100
    ∧ missingChunks body = []
    ∧ body_totalChunks body = JFin (Z.of_nat (length (file_chunks file3 2)))
    ∧ NoDup (body_uploadedChunks body)
    ∧ (∀ x, x ∈ body_uploadedChunks body
            ↔ ∃ k, k < length (file_chunks file3 2) ∧ x = Some (Z.of_nat k)).
Proof.
  apply (progress_is_complete_after_all_chunks upload_dir empty_server opened
           (default opened (upload_chunks "u1" uploads3 opened))
           file3 2 "u1" "movie.bin" "abc" names uploads3).
  - lia.
  - discriminate.
  - vm_compute. reflexivity.
  - rewrite file3_chunks. apply Permutation_swap.
  - vm_compute. reflexivity.
Defined.

(** * Further properties of the client *)

Module ClientMore.
Import JS Client ClientSpec ClientLog.

Ltac fields st :=
  destruct st as [chs conc ups act pau uid ctl n ws ins mg lg];
  unfold set_uploadedChunks, set_activeConnections, set_paused, set_uploadId,
    set_workers, set_inits, set_merges, emit, send_chunk in *;
  simpl in *.

(** ** What is reported as progress *)

Lemma extends_refl (st : uploader) : extends st st.
Proof. split; [done|]. exists []. by rewrite app_nil_r. Qed.

Lemma extends_trans (st1 st2 st3 : uploader) :
  extends st1 st2 → extends st2 st3 → extends st1 st3.
Proof.
  intros [Hc1 (m1 & Hl1 & Hf1)] [Hc2 (m2 & Hl2 & Hf2)].
  split; [congruence|]. exists (m1 ++ m2). split.
  - by rewrite Hl2, Hl1, app_assoc.
  - apply Forall_app. split; [done|]. by rewrite <- Hc1.
Qed.

Lemma extends_quiet (st st' : uploader) :
  chunks st' = chunks st → log st' = log st → extends st st'.
Proof. intros Hc Hl. split; [done|]. exists []. by rewrite app_nil_r. Qed.

Lemma extends_emit (cb : callback) (st : uploader) :
  percent_ok (chunks st) cb → extends st (emit cb st).
Proof.
  intros Hcb. split; [by fields st|]. exists [cb].
  split; [by fields st|]. by apply Forall_singleton.
Qed.

Lemma percent_in_range (u n : nat) :
  (∃ z, min100 (round_pct u (JFin (Z.of_nat n))) = JFin z ∧ (0 ≤ z ≤ 100)%Z)
  ∨ (min100 (round_pct u (JFin (Z.of_nat n))) = JNaN ∧ n = 0).
Proof.
  unfold round_pct. destruct (Z.eqb_spec (Z.of_nat n) 0) as [Hz|Hz].
  - destruct (Nat.eqb u 0); [right; split; [done|lia]|].
    left. exists 100%Z. by split.
  - rewrite (proj2 (Z.ltb_ge (Z.of_nat n) 0)) by lia. rewrite andb_false_r.
    left. eexists. split; [reflexivity|].
    assert (0 ≤ (200 * Z.of_nat u + Z.of_nat n) / (2 * Z.of_nat n))%Z
      by (apply Z.div_pos; lia).
    lia.
Qed.

Lemma _updateProgress_extends (st : uploader) : extends st (_updateProgress st).
Proof.
  unfold _updateProgress. apply extends_emit. simpl.
  destruct (percent_in_range (length (remove_dups (uploadedChunks st)))
              (length (chunks st))) as [?|[? Hn]]; [by left|].
  right. split; [done|]. by apply length_zero_iff_nil.
Qed.

Lemma upload_loop_quiet (todo : list chunk) (st : uploader) :
  chunks (upload_loop todo st) = chunks st
  ∧ log (upload_loop todo st) = log st
  ∧ uploadedChunks (upload_loop todo st) = uploadedChunks st
  ∧ merges (upload_loop todo st) = merges st
  ∧ paused (upload_loop todo st) = paused st.
Proof.
  unfold upload_loop. destruct (_ && _); [|done].
  destruct (paused st) eqn:Hp; [done|]. destruct todo; [done|]. by fields st.
Qed.

Lemma _uploadChunks_quiet (st : uploader) :
  chunks (_uploadChunks st) = chunks st
  ∧ log (_uploadChunks st) = log st
  ∧ uploadedChunks (_uploadChunks st) = uploadedChunks st
  ∧ paused (_uploadChunks st) = paused st
  ∧ (merges (_uploadChunks st) = merges st
     ∨ merges (_uploadChunks st) = S (merges st) ∧ covered st).
Proof.
  unfold _uploadChunks. destruct (paused st) eqn:Hp; [by repeat split; try left|].
  case_bool_decide as Hnil.
  - assert (covered st) as Hcov.
    { intros c Hc. destruct (decide (Some (Z.of_nat (index c)) ∈ uploadedChunks st))
        as [?|Hno]; [done|].
      assert (In c (List.filter
                      (λ c, negb (bool_decide
                                    (Some (Z.of_nat (index c)) ∈ uploadedChunks st)))
                      (chunks st))) as Hin.
      { apply filter_In. split; [by apply list_elem_of_In|].
        by rewrite bool_decide_eq_false_2. }
      rewrite Hnil in Hin. done. }
    fields st. repeat split; try done. by right.
  - destruct (upload_loop_quiet (List.filter
                (λ c, negb (bool_decide
                              (Some (Z.of_nat (index c)) ∈ uploadedChunks st)))
                (chunks st)) st) as (? & ? & ? & ? & ?).
    repeat split; try done; try congruence. by left.
Qed.

Lemma _uploadChunks_extends (st : uploader) : extends st (_uploadChunks st).
Proof.
  destruct (_uploadChunks_quiet st) as (? & ? & _). by apply extends_quiet.
Qed.

Lemma upload_loop_extends (todo : list chunk) (st : uploader) :
  extends st (upload_loop todo st).
Proof.
  destruct (upload_loop_quiet todo st) as (? & ? & _). by apply extends_quiet.
Qed.

Lemma resume_worker_extends (w : worker) (o : outcome) (st : uploader) :
  extends st (resume_worker w o st).
Proof.
  unfold resume_worker. destruct o.
  - eapply extends_trans; [|apply upload_loop_extends].
    set (st1 := if bool_decide _ then st else _).
    assert (extends st st1) as H1.
    { subst st1. case_bool_decide; [apply extends_refl|].
      apply extends_quiet; by fields st. }
    set (st2 := set_activeConnections _ _).
    assert (extends st st2) as H2.
    { eapply extends_trans; [exact H1|].
      eapply extends_trans; [apply (_updateProgress_extends st1)|].
      subst st2. apply extends_quiet; by destruct (_updateProgress st1). }
    destruct (paused st2); [done|].
    eapply extends_trans; [exact H2|apply _uploadChunks_extends].
  - eapply extends_trans; [apply (extends_emit OnError); done|].
    apply extends_quiet; by destruct (emit OnError st).
  - eapply extends_trans; [apply (extends_emit OnError); done|].
    apply extends_quiet; by destruct (emit OnError st).
  - apply extends_quiet; by fields st.
Qed.

Lemma pause_extends (st : uploader) : extends st (pause st).
Proof.
  unfold pause.
  assert (extends st (set_paused true st)) as H1 by (apply extends_quiet; by fields st).
  destruct (abortController _); [|done].
  destruct (list_find _ _) as [[i w]|]; [|done].
  eapply extends_trans; [exact H1|].
  eapply extends_trans; [|apply resume_worker_extends].
  apply extends_quiet; by destruct (set_paused true st).
Qed.

Lemma start_extends (st : uploader) : extends st (start st).
Proof.
  unfold start. destruct (paused st).
  - assert (extends st (set_paused false st)) as H1
      by (apply extends_quiet; by fields st).
    destruct (uploadId _).
    + eapply extends_trans; [exact H1|apply _uploadChunks_extends].
    + eapply extends_trans; [exact H1|].
      apply extends_quiet; by destruct (set_paused false st).
  - apply extends_quiet; by fields st.
Qed.

Lemma init_done_extends (task : init_task) (st : uploader) :
  extends st (init_done task st).
Proof.
  unfold init_done. destruct (then_upload task);
    [apply _uploadChunks_extends | apply extends_refl].
Qed.

Lemma step_extends (e : event) (st st' : uploader) :
  step e st = Some st' → extends st st'.
Proof.
  destruct e as [| |i r|i r|i o|ok]; simpl.
  - intros [= <-]. apply start_extends.
  - intros [= <-]. apply pause_extends.
  - destruct (inits st !! i) as [task|]; [|done]. simpl.
    destruct (stage task); [|done].
    destruct r as [| |id]; intros [= <-].
    + eapply extends_trans; [|apply init_done_extends].
      eapply extends_trans; [|apply (extends_emit OnError); done].
      apply extends_quiet; by fields st.
    + eapply extends_trans; [|apply init_done_extends].
      eapply extends_trans; [|apply (extends_emit OnSuccess); done].
      eapply extends_trans; [|apply _updateProgress_extends].
      apply extends_quiet; by fields st.
    + apply extends_quiet; by fields st.
  - destruct (inits st !! i) as [task|]; [|done]. simpl.
    destruct (stage task); [done|].
    destruct r as [ups'|]; intros [= <-].
    + eapply extends_trans; [|apply init_done_extends].
      eapply extends_trans; [|apply _uploadChunks_extends].
      apply extends_quiet; by fields st.
    + eapply extends_trans; [|apply init_done_extends].
      eapply extends_trans; [|apply (extends_emit OnError); done].
      apply extends_quiet; by fields st.
  - destruct (workers st !! i) as [w|]; [|done]. simpl.
    case_bool_decide; [done|]. intros [= <-].
    eapply extends_trans; [|apply resume_worker_extends].
    apply extends_quiet; by fields st.
  - destruct (merges st) as [|m] eqn:Hm; [done|]. intros [= <-]. destruct ok.
    + eapply extends_trans; [|apply (extends_emit OnSuccess); done].
      apply extends_quiet; by fields st.
    + apply extends_quiet; by fields st.
Qed.

Lemma run_extends (evs : list event) (st st' : uploader) :
  run evs st = Some st' → extends st st'.
Proof.
  revert st. induction evs as [|e evs IH]; intros st; simpl.
  - intros [= <-]. apply extends_refl.
  - destruct (step e st) as [st1|] eqn:Hstep; [|done]. simpl. intros Hrun.
    eapply extends_trans; [by apply (step_extends e)|by apply IH].
Qed.

(** X16.  Whatever happens to an uploader, every percentage it has passed
    to [onProgress] is an integer between 0 and 100, also when the server
    lists indices the file does not have; the only other value is [NaN],
    for a file without chunks. *)
Theorem reported_progress_is_a_percentage (fileSize chunkSize : Z) (window : nat)
    (evs : list event) (st : uploader) (p : jsnum) :
  run evs (BigFileUploader fileSize chunkSize window) = Some st →
  OnProgress p ∈ log st →
  (∃ z, p = JFin z ∧ (0 ≤ z ≤ 100)%Z) ∨ (p = JNaN ∧ chunks st = []).
Proof.
  intros Hrun Hp. apply run_extends in Hrun as [Hc (more & Hl & Hf)].
  simpl in Hl. rewrite Hl in Hp.
  rewrite Forall_forall in Hf. specialize (Hf _ Hp).
  destruct Hf as [?|[? Hnil]]; [by left|]. right. split; [done|]. congruence.
Qed.

(** ** When the merge is requested *)

Lemma merges_if_covered_trans (st1 st2 st3 : uploader) :
  merges_if_covered st1 st2 → merges_if_covered st2 st3 → merges_if_covered st1 st3.
Proof.
  intros (Hc1 & Hu1 & Hm1) (Hc2 & Hu2 & Hm2).
  split; [congruence|]. split; [congruence|].
  destruct Hm1 as [Hm1|?]; [|by right].
  destruct Hm2 as [Hm2|Hcov]; [left; lia|].
  right. intros c Hc. rewrite <- Hu1. apply Hcov. by rewrite Hc1.
Qed.

Lemma merges_if_covered_quiet (st st' : uploader) :
  chunks st' = chunks st → uploadedChunks st' = uploadedChunks st →
  merges st' = merges st → merges_if_covered st st'.
Proof. intros ? ? Hm. repeat split; [done..|]. left. lia. Qed.

Lemma _uploadChunks_merges (st : uploader) : merges_if_covered st (_uploadChunks st).
Proof.
  destruct (_uploadChunks_quiet st) as (? & _ & ? & _ & [Hm|[Hm Hcov]]).
  - by apply merges_if_covered_quiet.
  - repeat split; [done..|]. by right.
Qed.

Lemma upload_loop_merges (todo : list chunk) (st : uploader) :
  merges_if_covered st (upload_loop todo st).
Proof.
  destruct (upload_loop_quiet todo st) as (? & _ & ? & ? & _).
  by apply merges_if_covered_quiet.
Qed.

Lemma init_done_merges (task : init_task) (st : uploader) :
  merges_if_covered st (init_done task st).
Proof.
  unfold init_done. destruct (then_upload task); [apply _uploadChunks_merges|].
  by apply merges_if_covered_quiet.
Qed.

(** After a prefix that adds no merge request, a run of steps that keep the
    record. *)
Lemma merge_added_covered (st sta st' : uploader) :
  merges sta ≤ merges st → merges_if_covered sta st' →
  merges st < merges st' → covered st'.
Proof.
  intros Hle (Hc & Hu & [Hm|Hcov]) Hlt; [lia|].
  intros c Hin. rewrite Hu. apply Hcov. by rewrite <- Hc.
Qed.

Lemma resume_worker_merges (w : worker) (o : outcome) (st : uploader) :
  merges st < merges (resume_worker w o st) → covered (resume_worker w o st).
Proof.
  unfold resume_worker. destruct o; [|fields st; lia..].
  set (st1 := if bool_decide _ then st else _).
  set (st2 := set_activeConnections _ _).
  assert (merges st2 = merges st) as Hm2.
  { subst st2 st1. unfold _updateProgress. case_bool_decide; by fields st. }
  apply (merge_added_covered st st2); [lia|].
  eapply merges_if_covered_trans; [|apply upload_loop_merges].
  destruct (paused st2); [by apply merges_if_covered_quiet|].
  apply _uploadChunks_merges.
Qed.

(** X17.  A merge request is sent only when every chunk of the file is
    recorded as uploaded: whenever an event leaves more merge requests in
    flight than before, the recorded indices cover all chunks. *)
Theorem merge_is_requested_only_when_all_chunks_are_recorded (e : event)
    (st st' : uploader) :
  step e st = Some st' →
  merges st < merges st' →
  ∀ c, c ∈ chunks st' → Some (Z.of_nat (index c)) ∈ uploadedChunks st'.
Proof.
  destruct e as [| |i r|i r|i o|ok]; simpl.
  - intros [= <-]. unfold start. destruct (paused st) eqn:Hp; [|fields st; lia].
    destruct (uploadId (set_paused false st)) as [uid'|] eqn:Hu; [|fields st; lia].
    apply (merge_added_covered st (set_paused false st));
      [fields st; lia | apply _uploadChunks_merges].
  - intros [= <-]. unfold pause.
    destruct (abortController _) as [ctl'|]; [|fields st; lia].
    destruct (list_find _ _) as [[i w]|]; [|fields st; lia].
    unfold resume_worker. fields st. lia.
  - destruct (inits st !! i) as [task|]; [|done]. simpl.
    destruct (stage task); [|done].
    destruct r as [| |id]; intros [= <-].
    + intros Hlt.
      eapply (merge_added_covered st); [|apply init_done_merges|exact Hlt].
      fields st. lia.
    + intros Hlt.
      eapply (merge_added_covered st); [|apply init_done_merges|exact Hlt].
      unfold _updateProgress. fields st. lia.
    + fields st. lia.
  - destruct (inits st !! i) as [task|]; [|done]. simpl.
    destruct (stage task); [done|].
    destruct r as [ups'|]; intros [= <-].
    + apply (merge_added_covered st (set_uploadedChunks ups'
                                       (set_inits (delete i (inits st)) st)));
        [fields st; lia|].
      eapply merges_if_covered_trans; [apply _uploadChunks_merges|].
      apply init_done_merges.
    + intros Hlt.
      eapply (merge_added_covered st); [|apply init_done_merges|exact Hlt].
      fields st. lia.
  - destruct (workers st !! i) as [w|]; [|done]. simpl.
    case_bool_decide; [done|]. intros [= <-] Hlt.
    apply resume_worker_merges.
    assert (merges (set_workers (delete i (workers st)) st) = merges st) as ->
      by by fields st.
    done.
  - destruct (merges st) as [|m] eqn:Hm; [done|]. intros [= <-].
    destruct ok; fields st; lia.
Qed.

(** ** Pause and resume *)

Lemma pause_keeps (st : uploader) :
  paused (pause st) = true
  ∧ inits (pause st) = inits st
  ∧ uploadId (pause st) = uploadId st
  ∧ uploadedChunks (pause st) = uploadedChunks st
  ∧ chunks (pause st) = chunks st
  ∧ ∀ w, w ∈ workers (pause st) → w ∈ workers st.
Proof.
  unfold pause.
  destruct (abortController (set_paused true st)) as [ctl'|] eqn:Hc;
    [|by fields st].
  destruct (list_find _ _) as [[i w]|] eqn:Hf; [|by fields st].
  unfold resume_worker. fields st. repeat split; try done.
  intros w' Hw'. by apply list_elem_of_delete_inv in Hw'.
Qed.

(** X18.  [start()] after [pause()] on an uploader that has a session does
    not open the session again and keeps the recorded indices; every
    transfer in flight afterwards either was in flight before the pause or
    is for a chunk that is not recorded as uploaded. *)
Theorem resume_sends_only_unrecorded_chunks (st : uploader) (id : string) :
  uploadId st = Some id →
  paused (start (pause st)) = false
  ∧ inits (start (pause st)) = inits st
  ∧ uploadId (start (pause st)) = Some id
  ∧ uploadedChunks (start (pause st)) = uploadedChunks st
  ∧ ∀ w, w ∈ workers (start (pause st)) →
         w ∈ workers st
         ∨ w_chunk w ∈ chunks st
           ∧ Some (Z.of_nat (index (w_chunk w))) ∉ uploadedChunks st.
Proof.
  intros Hid. destruct (pause_keeps st) as (Hp & Hi & Hu & Hup & Hch & Hw).
  remember (pause st) as stp eqn:E. clear E. rewrite Hid in Hu.
  unfold start. rewrite Hp.
  assert (uploadId (set_paused false stp) = Some id) as -> by by fields stp.
  unfold _uploadChunks.
  assert (paused (set_paused false stp) = false) as Hpf by by fields stp.
  rewrite Hpf.
  assert (uploadedChunks (set_paused false stp) = uploadedChunks st
          ∧ chunks (set_paused false stp) = chunks st
          ∧ inits (set_paused false stp) = inits st
          ∧ uploadId (set_paused false stp) = Some id
          ∧ workers (set_paused false stp) = workers stp) as (Hu1 & Hc1 & Hi1 & Hid1 & Hw1)
    by by fields stp.
  rewrite Hu1, Hc1.
  remember (set_paused false stp) as st1 eqn:E. clear E.
  set (todo := List.filter _ _).
  assert (∀ c, In c todo →
               c ∈ chunks st
               ∧ Some (Z.of_nat (index c)) ∉ uploadedChunks st) as Htodo.
  { intros c Hc. subst todo. apply filter_In in Hc as [Hc Hno].
    split; [by apply list_elem_of_In|].
    apply negb_true_iff, bool_decide_eq_false in Hno. done. }
  case_bool_decide as Hnil.
  - fields st1. subst. repeat split; try done.
    intros w Hin. left. by apply Hw.
  - unfold upload_loop. rewrite Hpf.
    destruct (_ && _).
    + destruct todo as [|c rest] eqn:Et; [done|].
      fields st1. subst. repeat split; try done.
      intros w [Hin| ->%list_elem_of_singleton]%elem_of_app; [left; by apply Hw|].
      right. simpl. apply Htodo. by left.
    + repeat split; try done. intros w Hin. left. apply Hw. by rewrite <- Hw1.
Qed.

(** ** A transfer that fails *)

(** When the fetch of a chunk fails other than by an abort, the error is
    reported through [onError], the chunk is not recorded, and the
    invocation that sent it returns. *)
Lemma failed_transfer_is_reported (i : nat) (o : outcome) (st st' : uploader) :
  o = HttpError ∨ o = NetworkError →
  step (EvSettle i o) st = Some st' →
  log st' = log st ++ [OnError]
  ∧ workers st' = delete i (workers st)
  ∧ uploadedChunks st' = uploadedChunks st
  ∧ merges st' = merges st
  ∧ paused st' = paused st
  ∧ activeConnections st' = (activeConnections st - 1)%Z.
Proof.
  intros Ho. simpl. destruct (workers st !! i) as [w|]; [|done]. simpl.
  case_bool_decide; [done|]. intros [= <-].
  unfold resume_worker. destruct Ho as [-> | ->]; by fields st.
Qed.

Lemma upload_loop_workers (todo : list chunk) (st : uploader) (w : worker) :
  w ∈ workers st → w ∈ workers (upload_loop todo st).
Proof.
  intros Hw. unfold upload_loop. destruct (_ && _); [|done].
  destruct (paused st); [done|]. destruct todo as [|c rest]; [done|].
  fields st. apply elem_of_app. by left.
Qed.

Lemma upload_loop_log (todo : list chunk) (st : uploader) :
  log (upload_loop todo st) = log st.
Proof.
  unfold upload_loop. destruct (_ && _); [|done].
  destruct (paused st); [done|]. destruct todo as [|c rest]; [done|].
  by fields st.
Qed.

(** The state of an invocation after an ok response, at the end of its
    [finally]. *)
Lemma after_ok_response (x : option Z) (st : uploader) :
  let st1 := if bool_decide (x ∈ uploadedChunks st) then st
             else set_uploadedChunks (uploadedChunks st ++ [x]) st in
  let st2 := set_activeConnections
               (activeConnections (_updateProgress st1) - 1)%Z (_updateProgress st1) in
  paused st2 = paused st
  ∧ (∀ y, y ∈ uploadedChunks st2 ↔ y ∈ uploadedChunks st ++ [x])
  ∧ chunks st2 = chunks st
  ∧ activeConnections st2 = (activeConnections st - 1)%Z
  ∧ concurrent st2 = concurrent st
  ∧ controllers st2 = controllers st
  ∧ ∃ p, log st2 = log st ++ [OnProgress p].
Proof.
  simpl. unfold _updateProgress. case_bool_decide as Hrec.
  - fields st. repeat split; try done; [| |by eexists].
    + intros Hy. apply elem_of_app. by left.
    + intros [Hy| ->%list_elem_of_singleton]%elem_of_app; done.
  - fields st. repeat split; try done. by eexists.
Qed.

(** X19.  A chunk whose transfer has failed is sent again without any call
    from outside.  The failure is reported through [onError] and the
    invocation that sent the chunk returns, but the chunk stays unrecorded
    and the other invocations go on: when a transfer that was in flight
    next to it completes, the nested call of [_uploadChunks] filters the
    chunks anew, and when the failed chunk is the first one that is not
    recorded, it is sent in a new transfer, after the error has been
    reported. *)
Theorem failed_chunk_is_sent_again_after_onError (st : uploader) (i j : nat)
    (w wj : worker) (o : outcome) (rest' : list chunk) :
  o = HttpError ∨ o = NetworkError →
  paused st = false →
  window_ok st →
  workers st !! i = Some w →
  delete i (workers st) !! j = Some wj →
  List.filter
    (λ c', negb (bool_decide
                   (Some (Z.of_nat (index c'))
                    ∈ uploadedChunks st ++ [Some (Z.of_nat (index (w_chunk wj)))])))
    (chunks st) = w_chunk w :: rest' →
  ∃ st1 st2 p,
    step (EvSettle i o) st = Some st1
    ∧ step (EvSettle j Ok) st1 = Some st2
    ∧ log st2 = log st ++ [OnError; OnProgress p]
    ∧ {| w_chunk := w_chunk w; w_todo := rest'; w_ctrl := controllers st |}
      ∈ workers st2
    ∧ Some (Z.of_nat (index (w_chunk w))) ∉ uploadedChunks st2.
Proof.
  intros Ho Hp [Hact Hwin] Hw Hwj Hfilter.
  assert (length (delete i (workers st)) = length (workers st) - 1) as Hdel
    by (apply length_delete; by eexists).
  apply lookup_lt_Some in Hw as Hlt. apply lookup_lt_Some in Hwj as Hltj.
  assert (Some (Z.of_nat (index (w_chunk w)))
          ∉ uploadedChunks st ++ [Some (Z.of_nat (index (w_chunk wj)))]) as Hfresh.
  { assert (In (w_chunk w)
               (List.filter
                  (λ c', negb (bool_decide
                                 (Some (Z.of_nat (index c'))
                                  ∈ uploadedChunks st
                                    ++ [Some (Z.of_nat (index (w_chunk wj)))])))
                  (chunks st))) as Hin by (rewrite Hfilter; by left).
    apply filter_In in Hin as [_ Hin].
    by apply negb_true_iff, bool_decide_eq_false in Hin. }
  set (st1 := resume_worker w o (set_workers (delete i (workers st)) st)).
  assert (step (EvSettle i o) st = Some st1) as Hstep1.
  { simpl. rewrite Hw. simpl.
    rewrite bool_decide_eq_false_2; [done|]. by destruct Ho as [-> | ->]. }
  destruct (failed_transfer_is_reported i o st st1 Ho Hstep1)
    as (Hlog1 & Hws1 & Hup1 & Hmg1 & Hp1 & Hact1).
  assert (chunks st1 = chunks st ∧ concurrent st1 = concurrent st
          ∧ controllers st1 = controllers st) as (Hch1 & Hconc1 & Hctl1).
  { subst st1. unfold resume_worker. destruct Ho as [-> | ->]; by fields st. }
  clearbody st1.
  set (st1' := set_workers (delete j (delete i (workers st))) st1).
  assert (step (EvSettle j Ok) st1 = Some (resume_worker wj Ok st1')) as Hstep2.
  { simpl. by rewrite Hws1, Hwj. }
  assert (uploadedChunks st1' = uploadedChunks st
          ∧ paused st1' = false
          ∧ chunks st1' = chunks st
          ∧ concurrent st1' = concurrent st
          ∧ controllers st1' = controllers st
          ∧ activeConnections st1' = (activeConnections st - 1)%Z
          ∧ log st1' = log st ++ [OnError])
    as (Hup1' & Hp1' & Hch1' & Hconc1' & Hctl1' & Hact1' & Hlog1').
  { subst st1'. fields st1. subst. by rewrite Hp. }
  clearbody st1'.
  unfold resume_worker in Hstep2.
  set (st2 := set_activeConnections _ _) in Hstep2.
  assert (paused st2 = false
          ∧ (∀ x, x ∈ uploadedChunks st2
                  ↔ x ∈ uploadedChunks st ++ [Some (Z.of_nat (index (w_chunk wj)))])
          ∧ chunks st2 = chunks st
          ∧ (activeConnections st2 < Z.of_nat (concurrent st2))%Z
          ∧ controllers st2 = controllers st
          ∧ ∃ p, log st2 = log st ++ [OnError; OnProgress p])
    as (Hp2 & Hup2 & Hch2 & Hroom & Hctl2 & p & Hlog2).
  { destruct (after_ok_response (Some (Z.of_nat (index (w_chunk wj)))) st1')
      as (Ha & Hb & Hc & Hd & He & Hf & p & Hg).
    fold st2 in Ha, Hb, Hc, Hd, He, Hf, Hg.
    rewrite Ha, Hc, Hd, He, Hf, Hg, Hp1', Hch1', Hact1', Hconc1', Hctl1', Hlog1'.
    split; [done|]. split; [intros y; by rewrite Hb, Hup1'|].
    split; [done|]. split; [lia|]. split; [done|].
    exists p. by rewrite <- app_assoc. }
  assert (List.filter
            (λ c', negb (bool_decide
                           (Some (Z.of_nat (index c')) ∈ uploadedChunks st2)))
            (chunks st) = w_chunk w :: rest') as Hfilter2.
  { rewrite <- Hfilter. apply filter_ext. intros c'. f_equal.
    apply bool_decide_ext, Hup2. }
  clearbody st2. rewrite Hp2 in Hstep2. unfold _uploadChunks in Hstep2.
  rewrite Hp2, Hch2, Hfilter2 in Hstep2.
  rewrite bool_decide_eq_false_2 in Hstep2 by done.
  set (st3 := upload_loop (w_chunk w :: rest') st2) in Hstep2.
  assert ({| w_chunk := w_chunk w; w_todo := rest'; w_ctrl := controllers st |}
          ∈ workers st3
          ∧ log st3 = log st2 ∧ uploadedChunks st3 = uploadedChunks st2)
    as (Hw3 & Hlog3 & Hup3).
  { subst st3. unfold upload_loop.
    rewrite (proj2 (Z.ltb_lt _ _) Hroom), Hp2. simpl.
    fields st2. subst. repeat split. apply elem_of_app. right. by left. }
  clearbody st3.
  exists st1, (upload_loop (w_todo wj) st3), p.
  split; [done|]. split; [done|].
  split; [rewrite upload_loop_log, Hlog3; exact Hlog2|].
  split; [by apply upload_loop_workers|].
  assert (uploadedChunks (upload_loop (w_todo wj) st3) = uploadedChunks st3) as ->.
  { unfold upload_loop. destruct (_ && _); [|done].
    destruct (paused st3); [done|]. destruct (w_todo wj); [done|]. by fields st3. }
  rewrite Hup3. by rewrite Hup2.
Qed.

(** ** Which indices are recorded *)

Lemma resume_worker_recorded (w : worker) (o : outcome) (st : uploader)
    (x : option Z) :
  x ∈ uploadedChunks (resume_worker w o st) →
  x ∈ uploadedChunks st ∨ o = Ok ∧ x = Some (Z.of_nat (index (w_chunk w))).
Proof.
  unfold resume_worker. destruct o; [|by left; fields st..].
  set (st1 := if bool_decide _ then st else _).
  set (st2 := set_activeConnections _ _).
  assert (uploadedChunks st2 = uploadedChunks st1) as H2
    by (subst st2; unfold _updateProgress; by destruct st1).
  set (st3 := if paused st2 then st2 else _).
  assert (uploadedChunks st3 = uploadedChunks st2) as H3.
  { subst st3. destruct (paused st2); [done|].
    by destruct (_uploadChunks_quiet st2) as (_ & _ & ? & _). }
  destruct (upload_loop_quiet (w_todo w) st3) as (_ & _ & H4 & _).
  rewrite H4, H3, H2. subst st1. case_bool_decide; [by left|].
  assert (uploadedChunks
            (set_uploadedChunks
               (uploadedChunks st ++ [Some (Z.of_nat (index (w_chunk w)))]) st)
          = uploadedChunks st ++ [Some (Z.of_nat (index (w_chunk w)))]) as ->
    by by fields st.
  intros [?| ->%list_elem_of_singleton]%elem_of_app; [by left|by right].
Qed.

(** X20.  An index enters the local list [uploadedChunks] in two ways only:
    the transfer of that chunk has completed with an ok response, or the
    server has listed it in its answer to the progress query. *)
Theorem index_is_recorded_only_on_confirmation (e : event) (st st' : uploader)
    (x : option Z) :
  step e st = Some st' →
  x ∈ uploadedChunks st' →
  x ∈ uploadedChunks st
  ∨ (∃ i w, e = EvSettle i Ok ∧ workers st !! i = Some w
            ∧ x = Some (Z.of_nat (index (w_chunk w))))
  ∨ (∃ i ups, e = EvProgressResponse i (Some ups) ∧ x ∈ ups).
Proof.
  assert (∀ task s, uploadedChunks (init_done task s) = uploadedChunks s) as Hdone.
  { intros task s. unfold init_done. destruct (then_upload task); [|done].
    by destruct (_uploadChunks_quiet s) as (_ & _ & ? & _). }
  destruct e as [| |i r|i r|i o|ok]; simpl.
  - intros [= <-]. unfold start. destruct (paused st) eqn:Hp; [|left; by fields st].
    destruct (uploadId (set_paused false st)) as [uid'|] eqn:Hu; [|left; by fields st].
    destruct (_uploadChunks_quiet (set_paused false st)) as (_ & _ & -> & _).
    left. by fields st.
  - intros [= <-]. destruct (pause_keeps st) as (_ & _ & _ & -> & _). by left.
  - destruct (inits st !! i) as [task|]; [|done]. simpl.
    destruct (stage task); [|done].
    destruct r as [| |id]; intros [= <-].
    + rewrite Hdone. left. by fields st.
    + rewrite Hdone. unfold _updateProgress. fields st.
      intros Hx. by apply elem_of_nil in Hx.
    + left. by fields st.
  - destruct (inits st !! i) as [task|]; [|done]. simpl.
    destruct (stage task); [done|].
    destruct r as [ups'|]; intros [= <-].
    + rewrite Hdone.
      destruct (_uploadChunks_quiet
                  (set_uploadedChunks ups' (set_inits (delete i (inits st)) st)))
        as (_ & _ & -> & _).
      intros Hx. right; right. exists i, ups'. split; [done|]. by fields st.
    + rewrite Hdone. left. by fields st.
  - destruct (workers st !! i) as [w|] eqn:Hw; [|done]. simpl.
    case_bool_decide; [done|]. intros [= <-] Hx.
    apply resume_worker_recorded in Hx as [Hx|[-> ->]].
    + left. by fields st.
    + right; left. by exists i, w.
  - destruct (merges st) as [|m] eqn:Hm; [done|]. intros [= <-].
    left. destruct ok; by fields st.
Qed.

(** ** A file that is already archived *)

(** X21.  When a fresh [start()] is answered by [init] with an existing
    file, the uploader reports its progress (0 percent of a non-empty
    file, as no chunk is recorded) and then success, and sends neither a
    chunk nor a merge request. *)
Theorem dedup_hit_reports_success_without_transfer (fileSize chunkSize : Z)
    (window : nat) :
  ∃ st p,
    run [EvStart; EvInitResponse 0 InitDedup]
        (BigFileUploader fileSize chunkSize window) = Some st
    ∧ log st = [OnProgress p; OnSuccess]
    ∧ (chunks st ≠ [] → p = JFin 0)
    ∧ workers st = []
    ∧ merges st = 0
    ∧ inits st = []
    ∧ uploadId st = None.
Proof.
  eexists _, _. split; [reflexivity|]. simpl. split; [reflexivity|].
  split; [|done].
  set (chs := _prepareChunks _ _). intros Hne.
  assert (0 < length chs) as Hlen by (destruct chs; [done|simpl; lia]).
  unfold round_pct. rewrite (proj2 (Z.eqb_neq _ 0)) by lia.
  rewrite Z.mul_0_r, Z.add_0_l.
  rewrite (Z.div_small (Z.of_nat (length chs)) (2 * Z.of_nat (length chs))) by lia.
  simpl. by rewrite (proj2 (Z.ltb_ge (Z.of_nat (length chs)) 0)) by lia.
Qed.

(** ** The same chunk in flight twice *)

(** X22.  When a transfer completes while the uploader is not paused, two
    invocations go on: the nested call of [_uploadChunks], which filters
    the chunks anew, and the loop of the invocation that has resumed, which
    still holds the list it filtered earlier.  When both lists begin with
    the same chunk and the window has room for two, that chunk is sent
    twice, in two transfers that are in flight together. *)
Theorem completed_transfer_sends_the_next_chunk_twice (st : uploader) (i : nat)
    (w : worker) (c : chunk) (rest rest' : list chunk) :
  paused st = false →
  window_ok st →
  workers st !! i = Some w →
  Some (Z.of_nat (index (w_chunk w))) ∉ uploadedChunks st →
  w_todo w = c :: rest →
  List.filter
    (λ c', negb (bool_decide
                   (Some (Z.of_nat (index c'))
                    ∈ uploadedChunks st ++ [Some (Z.of_nat (index (w_chunk w)))])))
    (chunks st) = c :: rest' →
  length (workers st) < concurrent st →
  ∃ st',
    step (EvSettle i Ok) st = Some st'
    ∧ workers st'
      = delete i (workers st)
        ++ [{| w_chunk := c; w_todo := rest'; w_ctrl := controllers st |};
            {| w_chunk := c; w_todo := rest; w_ctrl := S (controllers st) |}]
    ∧ uploadedChunks st'
      = uploadedChunks st ++ [Some (Z.of_nat (index (w_chunk w)))].
Proof.
  intros Hp [Hact Hwin] Hw Hnew Htodo Hfilter Hroom.
  assert (length (delete i (workers st)) = length (workers st) - 1) as Hdel
    by (apply length_delete; by eexists).
  apply lookup_lt_Some in Hw as Hlt.
  simpl. rewrite Hw. simpl. eexists. split; [reflexivity|].
  unfold resume_worker, _updateProgress, _uploadChunks, upload_loop.
  rewrite Htodo. destruct w as [wc wt wctl]. simpl in *.
  fields st. subst pau.
  rewrite (bool_decide_eq_false_2 _ Hnew). simpl. rewrite Hfilter. simpl.
  rewrite (proj2 (Z.ltb_lt (act - 1) (Z.of_nat conc))) by lia. simpl.
  rewrite (proj2 (Z.ltb_lt (act - 1 + 1) (Z.of_nat conc))) by lia. simpl.
  split; [|done]. by rewrite <- app_assoc.
Qed.

(** ** The statements at the scenarios *)

Lemma reported_progress_is_a_percentage_witness :
  (∃ z, JFin 33 = JFin z ∧ (0 ≤ z ≤ 100)%Z)
  ∨ (JFin 33 = JNaN ∧ chunks Scenario2.sending_twice = []).
Proof.
  apply (reported_progress_is_a_percentage 30 10 3 Scenario.first_chunk_done
           Scenario2.sending_twice (JFin 33)).
  - vm_compute. reflexivity.
  - vm_compute. constructor.
Defined.

Lemma merge_is_requested_only_when_all_chunks_are_recorded_witness :
  Some (Z.of_nat (index {| index := 0; c_start := 0; c_end := 10 |}))
  ∈ uploadedChunks
      (set_merges 1
         (set_inits [] (set_uploadedChunks [Some 0%Z] Scenario2.querying))).
Proof.
  apply (merge_is_requested_only_when_all_chunks_are_recorded
           (EvProgressResponse 0 (Some [Some 0%Z])) Scenario2.querying).
  - vm_compute. reflexivity.
  - vm_compute. lia.
  - vm_compute. constructor.
Defined.

Lemma resume_sends_only_unrecorded_chunks_witness :
  paused (start (pause Scenario2.sending_twice)) = false
  ∧ inits (start (pause Scenario2.sending_twice)) = inits Scenario2.sending_twice
  ∧ uploadId (start (pause Scenario2.sending_twice)) = Some "u1"
  ∧ uploadedChunks (start (pause Scenario2.sending_twice))
    = uploadedChunks Scenario2.sending_twice
  ∧ ∀ w, w ∈ workers (start (pause Scenario2.sending_twice)) →
         w ∈ workers Scenario2.sending_twice
         ∨ w_chunk w ∈ chunks Scenario2.sending_twice
           ∧ Some (Z.of_nat (index (w_chunk w)))
             ∉ uploadedChunks Scenario2.sending_twice.
Proof.
  apply (resume_sends_only_unrecorded_chunks Scenario2.sending_twice "u1").
  vm_compute. reflexivity.
Defined.

(** The first transfer of chunk 2 fails, then the transfer of chunk 1
    completes: chunk 2 is sent again. *)
Lemma failed_chunk_is_sent_again_after_onError_witness :
  ∃ st1 st2 p,
    step (EvSettle 1 HttpError) Scenario2.three_in_flight = Some st1
    ∧ step (EvSettle 0 Ok) st1 = Some st2
    ∧ log st2 = log Scenario2.three_in_flight ++ [OnError; OnProgress p]
    ∧ {| w_chunk :=
           w_chunk {| w_chunk := {| index := 2; c_start := 20; c_end := 30 |};
                      w_todo := []; w_ctrl := 3 |};
         w_todo := [];
         w_ctrl := controllers Scenario2.three_in_flight |}
      ∈ workers st2
    ∧ Some (Z.of_nat
              (index (w_chunk {| w_chunk := {| index := 2; c_start := 20; c_end := 30 |};
                                 w_todo := []; w_ctrl := 3 |})))
      ∉ uploadedChunks st2.
Proof.
  apply (failed_chunk_is_sent_again_after_onError Scenario2.three_in_flight 1 0
           {| w_chunk := {| index := 2; c_start := 20; c_end := 30 |};
              w_todo := []; w_ctrl := 3 |}
           {| w_chunk := {| index := 1; c_start := 10; c_end := 20 |};
              w_todo := [{| index := 2; c_start := 20; c_end := 30 |}];
              w_ctrl := 2 |}
           HttpError []).
  - left. reflexivity.
  - reflexivity.
  - split; vm_compute; [reflexivity|lia].
  - reflexivity.
  - reflexivity.
  - vm_compute. reflexivity.
Defined.

Lemma index_is_recorded_only_on_confirmation_witness :
  Some 0%Z ∈ uploadedChunks Scenario2.sending
  ∨ (∃ i w, EvSettle 0 Ok = EvSettle i Ok
            ∧ workers Scenario2.sending !! i = Some w
            ∧ Some 0%Z = Some (Z.of_nat (index (w_chunk w))))
  ∨ (∃ i ups, EvSettle 0 Ok = EvProgressResponse i (Some ups) ∧ Some 0%Z ∈ ups).
Proof.
  apply (index_is_recorded_only_on_confirmation (EvSettle 0 Ok) Scenario2.sending
           Scenario2.sending_twice (Some 0%Z)).
  - vm_compute. reflexivity.
  - apply (bool_decide_unpack _). vm_compute. reflexivity.
Defined.

Lemma completed_transfer_sends_the_next_chunk_twice_witness :
  ∃ st',
    step (EvSettle 0 Ok) Scenario2.sending = Some st'
    ∧ workers st'
      = delete 0 (workers Scenario2.sending)
        ++ [{| w_chunk := {| index := 1; c_start := 10; c_end := 20 |};
               w_todo := [{| index := 2; c_start := 20; c_end := 30 |}];
               w_ctrl := controllers Scenario2.sending |};
            {| w_chunk := {| index := 1; c_start := 10; c_end := 20 |};
               w_todo := [{| index := 2; c_start := 20; c_end := 30 |}];
               w_ctrl := S (controllers Scenario2.sending) |}]
    ∧ uploadedChunks st'
      = uploadedChunks Scenario2.sending
        ++ [Some (Z.of_nat
                    (index {| index := 0; c_start := 0; c_end := 10 |}))].
Proof.
  apply (completed_transfer_sends_the_next_chunk_twice Scenario2.sending 0
           {| w_chunk := {| index := 0; c_start := 0; c_end := 10 |};
              w_todo := [{| index := 1; c_start := 10; c_end := 20 |};
                         {| index := 2; c_start := 20; c_end := 30 |}];
              w_ctrl := 0 |}
           {| index := 1; c_start := 10; c_end := 20 |}
           [{| index := 2; c_start := 20; c_end := 30 |}]
           [{| index := 2; c_start := 20; c_end := 30 |}]).
  - vm_compute. reflexivity.
  - split; vm_compute; [reflexivity|lia].
  - vm_compute. reflexivity.
  - intros Hin. apply (bool_decide_pack _) in Hin. vm_compute in Hin. exact Hin.
  - reflexivity.
  - vm_compute. reflexivity.
  - vm_compute. lia.
Defined.

End ClientMore.
